(** * envmerge: the precedence resolution engine of [internal/resolver]

    A shallow embedding of [resolver.go] and the properties of its
    specification.  Go strings are byte sequences and are modelled by
    [string]; a Go map is a [gmap]; the [*Variable] cells shared between
    [Resolution.Variables] and [Resolution.ByName] live in one store. *)

From Stdlib Require Import Ascii String DecimalString.
From stdpp Require Import base list gmap strings sorting.

(** ** Go strings *)

Module GoString.

(** The two quote bytes [unquote] looks for. *)
Definition DQ : ascii := ascii_of_nat 34.
Definition SQ : ascii := ascii_of_nat 39.

(** [len(s)] *)
Definition len (s : string) : nat := String.length s.

(** [s[i]], for an index in range. *)
Definition byte_at (s : string) (i : nat) : ascii :=
  match String.get i s with Some c => c | None => Ascii.zero end.

(** [s[lo:hi]] *)
Definition slice (s : string) (lo hi : nat) : string :=
  String.substring lo (hi - lo) s.

(** [strings.HasPrefix(s, prefix)] *)
Definition HasPrefix (s prefix : string) : bool := String.prefix prefix s.

(** [strings.TrimPrefix(s, prefix)] *)
Definition TrimPrefix (s prefix : string) : string :=
  if HasPrefix s prefix then slice s (len prefix) (len s) else s.

(** The first ["="] of [s], if any: the text before it and the text after. *)
Fixpoint cut_eq (s : string) : option (string * string) :=
  match s with
  | EmptyString => None
  | String c s' =>
      if Ascii.eqb c "="%char then Some (EmptyString, s')
      else match cut_eq s' with
           | Some (k, v) => Some (String c k, v)
           | None => None
           end
  end.

(** [strings.SplitN(s, "=", 2)] *)
Definition SplitN_eq (s : string) : list string :=
  match cut_eq s with
  | Some (k, v) => [k; v]
  | None => [s]
  end.

(** [strings.Join(l, sep)] *)
Fixpoint Join (l : list string) (sep : string) : string :=
  match l with
  | [] => EmptyString
  | [s] => s
  | s :: rest => s +:+ sep +:+ Join rest sep
  end.

(** [fmt.Sprintf("%d", n)] for a length. *)
Definition Sprint_d (n : nat) : string :=
  NilEmpty.string_of_uint (Nat.to_uint n).

(** [s1 < s2] on Go strings: bytewise lexicographic. *)
Definition str_lt (s1 s2 : string) : bool := String.ltb s1 s2.

End GoString.
Import GoString.

(** [unquote], resolver.go 478-486. *)
Definition unquote (s : string) : string :=
  if (2 <=? len s)%nat then
    if (Ascii.eqb (byte_at s 0) DQ && Ascii.eqb (byte_at s (len s - 1)) DQ)
       || (Ascii.eqb (byte_at s 0) SQ && Ascii.eqb (byte_at s (len s - 1)) SQ)
    then slice s 1 (len s - 1)
    else s
  else s.

(** A value wrapped in the quote byte [q]. *)
Definition wrap (q : ascii) (x : string) : string :=
  String q (x +:+ String q EmptyString).

(** ** What the resolver takes from the Go libraries

    [sort.Slice] and [sort.Strings] are used through their documented
    contract only: the result is a rearrangement of the input in which no
    element is [less] than an earlier one, for a [less] that is a strict weak
    order; the documentation states that the sort is not guaranteed to be
    stable.  Ranging over a map visits its entries in an order the language
    leaves open, here any rearrangement of the entries.  [strings.TrimSpace],
    [filepath.Join] and [filepath.Dir] are taken as they come. *)

Definition strict_weak {A} (less : A -> A -> bool) : Prop :=
  (forall a, less a a = false) /\
  (forall a b c, less a b = true -> less b c = true -> less a c = true) /\
  (forall a b c, less a b = false -> less b c = false -> less a c = false).

(** No element is [less] than one before it. *)
Definition ascending {A} (less : A -> A -> bool) (l : list A) : Prop :=
  StronglySorted (fun a b => less b a = false) l.

Record GoLib := {
  sort_Slice : forall A : Type, (A -> A -> bool) -> list A -> list A;
  sort_Slice_perm : forall A less (l : list A), sort_Slice A less l ≡ₚ l;
  sort_Slice_sorted : forall A less (l : list A),
      strict_weak less -> ascending less (sort_Slice A less l);
  sort_Strings : list string -> list string;
  sort_Strings_perm : forall l, sort_Strings l ≡ₚ l;
  sort_Strings_sorted : forall l, ascending str_lt (sort_Strings l);
  map_range : forall A : Type, list A -> list A;
  map_range_perm : forall A (l : list A), map_range A l ≡ₚ l;
  TrimSpace : string -> string;
  filepath_Join : string -> string -> string;
  filepath_Dir : string -> string
}.

Arguments sort_Slice _ {A} _ _.
Arguments map_range _ {A} _.

(** ** Data model, resolver.go 15-108 *)

Inductive Layer :=
| LayerEnvExample
| LayerEnv
| LayerEnvLocal
| LayerEnvOther
| LayerComposeEnvFile
| LayerComposeInline
| LayerOSEnv.

(** [Layer.Precedence], resolver.go 50-69.  The [default] arm (-1) is for
    integers that are none of the seven constants. *)
Definition Precedence (l : Layer) : Z :=
  match l with
  | LayerEnvExample => 0
  | LayerEnv => 1
  | LayerEnvLocal => 2
  | LayerEnvOther => 3
  | LayerComposeEnvFile => 4
  | LayerComposeInline => 5
  | LayerOSEnv => 6
  end.

(** The integers of the constants, resolver.go 18-26 ([iota]). *)
Definition Layer_int (l : Layer) : Z :=
  match l with
  | LayerEnvExample => 0
  | LayerEnv => 1
  | LayerEnvLocal => 2
  | LayerEnvOther => 3
  | LayerComposeEnvFile => 4
  | LayerComposeInline => 5
  | LayerOSEnv => 6
  end.

(** [Layer.String], resolver.go 28-47.  The [default] arm gives
    [unknown] for integers that are none of the seven constants. *)
Definition Layer_String (l : Layer) : string :=
  match l with
  | LayerEnvExample => ".env.example"
  | LayerEnv => ".env"
  | LayerEnvLocal => ".env.local"
  | LayerEnvOther => ".env.*"
  | LayerComposeEnvFile => "compose env_file"
  | LayerComposeInline => "compose inline"
  | LayerOSEnv => "OS environment"
  end.

Record Source := {
  Layer_ : Layer;
  File : string;
  Line : Z;
  Service : string;
  Value : string;
  IsInline : bool
}.

(** [Variable] of resolver.go ([Variable] is a reserved word here). *)
Record Variable_ := {
  Name : string;
  FinalValue : string;
  FinalFrom : Source;
  Chain : list Source;
  Overridden : bool;
  Conflicts : list string
}.

(** The zero values [Source{}] and [Variable{Name: name}]. *)
Definition zero_Source : Source :=
  {| Layer_ := LayerEnvExample; File := ""; Line := 0; Service := "";
     Value := ""; IsInline := false |}.

Definition new_Variable (name : string) : Variable_ :=
  {| Name := name; FinalValue := ""; FinalFrom := zero_Source; Chain := [];
     Overridden := false; Conflicts := [] |}.

(** A [*Variable] is created by [addSource] only, which stores it at
    [ByName[name]]: the cell of a variable is addressed by that name.
    [Variables : []*Variable] is the list of such addresses, and [ByName]
    holds the cells, so that a write through either is seen by both. *)
Definition ptr := string.

Record Resolution := {
  Path : string;
  Variables : list ptr;
  ByName : gmap string Variable_;
  EnvFiles : list string;
  ComposeFiles : list string;
  Warnings : list string;
  Undefined : list string
}.

Record Options := {
  IncludeOSEnv : bool;
  ServiceName : string;
  StrictMode : bool;
  CompareWith : string
}.

(** [*p] *)
Definition deref (r : Resolution) (p : ptr) : Variable_ :=
  default (new_Variable "") (ByName r !! p).

Definition set_Variables (vs : list ptr) (r : Resolution) : Resolution :=
  {| Path := Path r; Variables := vs; ByName := ByName r;
     EnvFiles := EnvFiles r; ComposeFiles := ComposeFiles r;
     Warnings := Warnings r; Undefined := Undefined r |}.

Definition set_ByName (m : gmap string Variable_) (r : Resolution) : Resolution :=
  {| Path := Path r; Variables := Variables r; ByName := m;
     EnvFiles := EnvFiles r; ComposeFiles := ComposeFiles r;
     Warnings := Warnings r; Undefined := Undefined r |}.

Definition add_EnvFile (p : string) (r : Resolution) : Resolution :=
  {| Path := Path r; Variables := Variables r; ByName := ByName r;
     EnvFiles := EnvFiles r ++ [p]; ComposeFiles := ComposeFiles r;
     Warnings := Warnings r; Undefined := Undefined r |}.

Definition add_ComposeFile (p : string) (r : Resolution) : Resolution :=
  {| Path := Path r; Variables := Variables r; ByName := ByName r;
     EnvFiles := EnvFiles r; ComposeFiles := ComposeFiles r ++ [p];
     Warnings := Warnings r; Undefined := Undefined r |}.

Definition add_Warning (w : string) (r : Resolution) : Resolution :=
  {| Path := Path r; Variables := Variables r; ByName := ByName r;
     EnvFiles := EnvFiles r; ComposeFiles := ComposeFiles r;
     Warnings := Warnings r ++ [w]; Undefined := Undefined r |}.

Definition add_Undefined (n : string) (r : Resolution) : Resolution :=
  {| Path := Path r; Variables := Variables r; ByName := ByName r;
     EnvFiles := EnvFiles r; ComposeFiles := ComposeFiles r;
     Warnings := Warnings r; Undefined := Undefined r ++ [n] |}.

Definition set_Chain (c : list Source) (v : Variable_) : Variable_ :=
  {| Name := Name v; FinalValue := FinalValue v; FinalFrom := FinalFrom v;
     Chain := c; Overridden := Overridden v; Conflicts := Conflicts v |}.

Definition set_Final (src : Source) (v : Variable_) : Variable_ :=
  {| Name := Name v; FinalValue := Value src; FinalFrom := src;
     Chain := Chain v; Overridden := Overridden v; Conflicts := Conflicts v |}.

Definition set_Overridden (b : bool) (v : Variable_) : Variable_ :=
  {| Name := Name v; FinalValue := FinalValue v; FinalFrom := FinalFrom v;
     Chain := Chain v; Overridden := b; Conflicts := Conflicts v |}.

Definition add_Conflict (c : string) (v : Variable_) : Variable_ :=
  {| Name := Name v; FinalValue := FinalValue v; FinalFrom := FinalFrom v;
     Chain := Chain v; Overridden := Overridden v;
     Conflicts := Conflicts v ++ [c] |}.

(** [addSource], resolver.go 469-476. *)
Definition addSource (name : string) (src : Source) (r : Resolution) : Resolution :=
  let v := match ByName r !! name with
           | Some v => v
           | None => new_Variable name
           end in
  set_ByName (<[name := set_Chain (Chain v ++ [src]) v]> (ByName r)) r.

(** ** The file system and the manifests *)

(** An element of a [[]interface{}]: a string, or something else. *)
Inductive elem :=
| EString (s : string)
| EOther.

(** A value of a [map[string]interface{}]: nil, or a value with the text
    [fmt.Sprintf("%v", val)] gives it. *)
Inductive mapval :=
| VNil
| VFmt (text : string).

(** The dynamic values the two type switches tell apart. *)
Inductive iface :=
| INil
| IString (s : string)
| ISlice (items : list elem)
| IMap (entries : gmap string mapval)
| IOther.

Record service := {
  Environment : iface;
  EnvFile : iface
}.

Record composeFile := {
  Services : gmap string service
}.

(** A path that [os.Stat] finds: either [os.Open] and [os.ReadFile] fail on
    it with [err], or it is read.  A file that is read is seen through the
    lines [bufio.Scanner] yields, the final [scanner.Err()], and what
    [yaml.Unmarshal] makes of its bytes. *)
Inductive node :=
| Unreadable (err : string)
| Readable (lines : list string) (scan_err : option string)
           (yaml : string + composeFile).

Record FS := {
  Stat : string -> option node;
  ReadDir : string -> list string
}.

(** [os.Open(path)]: the lines and the scanner's error, or the failure. *)
Definition Open (fs : FS) (path : string) : string + (list string * option string) :=
  match Stat fs path with
  | None => inl ("open " +:+ path +:+ ": no such file or directory")
  | Some (Unreadable err) => inl err
  | Some (Readable lines scan_err _) => inr (lines, scan_err)
  end.

(** [os.ReadFile(path)] followed by [yaml.Unmarshal]. *)
Definition ReadYaml (fs : FS) (path : string) : string + composeFile :=
  match Stat fs path with
  | None => inl ("open " +:+ path +:+ ": no such file or directory")
  | Some (Unreadable err) => inl err
  | Some (Readable _ _ doc) => doc
  end.

(** ** Source ingestion, resolver.go 296-467 *)

Section Resolver.

Context (go : GoLib) (fs : FS).

(** The loop [for scanner.Scan() { lineNum++; ... }] over the lines of a
    file, with the resolution threaded through the body. *)
Fixpoint scan (body : Z -> string -> Resolution -> Resolution)
    (lineNum : Z) (lines : list string) (r : Resolution) : Resolution :=
  match lines with
  | [] => r
  | text :: rest =>
      let lineNum := (lineNum + 1)%Z in
      scan body lineNum rest (body lineNum text r)
  end.

(** The body of the loop of [parseEnvFile], resolver.go 307-338. *)
Definition parseEnvFile_line (path : string) (layer : Layer)
    (lineNum : Z) (text : string) (r : Resolution) : Resolution :=
  let line := TrimSpace go text in
  if String.eqb line "" || HasPrefix line "#" then r
  else
    let line := TrimPrefix line "export " in
    let line := TrimSpace go line in
    match SplitN_eq line with
    | [k; v] =>
        let key := TrimSpace go k in
        let value := TrimSpace go v in
        let value := unquote value in
        if String.eqb key "" then r
        else addSource key
               {| Layer_ := layer; File := path; Line := lineNum;
                  Service := ""; Value := value; IsInline := false |} r
    | _ => r
    end.

(** [parseEnvFile], resolver.go 296-342: the resolution and the error. *)
Definition parseEnvFile (path : string) (layer : Layer) (r : Resolution)
    : Resolution * option string :=
  match Open fs path with
  | inl err => (r, Some err)
  | inr (lines, scan_err) =>
      (scan (parseEnvFile_line path layer) 0 lines r, scan_err)
  end.

(** The body of the scanner loop of [parseEnvFileRef], resolver.go 405-425. *)
Definition parseEnvFileRef_line (envPath serviceName : string)
    (lineNum : Z) (text : string) (r : Resolution) : Resolution :=
  let line := TrimSpace go text in
  if String.eqb line "" || HasPrefix line "#" then r
  else
    match SplitN_eq line with
    | [k; v] =>
        let key := TrimSpace go k in
        let value := unquote (TrimSpace go v) in
        addSource key
          {| Layer_ := LayerComposeEnvFile; File := envPath; Line := lineNum;
             Service := serviceName; Value := value; IsInline := false |} r
    | _ => r
    end.

(** The type switch of [parseEnvFileRef], resolver.go 380-390. *)
Definition envFile_files (envFile : iface) : list string :=
  match envFile with
  | IString v => [v]
  | ISlice v =>
      foldl (fun files f =>
               match f with EString s => files ++ [s] | EOther => files end)
            [] v
  | _ => []
  end.

(** [parseEnvFileRef], resolver.go 377-429. *)
Definition parseEnvFileRef (composePath serviceName : string)
    (envFile : iface) (r : Resolution) : Resolution :=
  let baseDir := filepath_Dir go composePath in
  foldl (fun r f =>
           let envPath := filepath_Join go baseDir f in
           match Stat fs envPath with
           | Some _ =>
               match Open fs envPath with
               | inl _ => r
               | inr (lines, _) =>
                   scan (parseEnvFileRef_line envPath serviceName) 0 lines r
               end
           | None => r
           end)
        r (envFile_files envFile).

Definition inline_Source (composePath serviceName value : string) : Source :=
  {| Layer_ := LayerComposeInline; File := composePath; Line := 0;
     Service := serviceName; Value := value; IsInline := true |}.

(** [parseInlineEnv], resolver.go 431-467. *)
Definition parseInlineEnv (composePath serviceName : string)
    (env : iface) (r : Resolution) : Resolution :=
  match env with
  | IMap v =>
      foldl (fun r '(key, val) =>
               let value := match val with
                            | VNil => ""
                            | VFmt text => text
                            end in
               addSource key (inline_Source composePath serviceName value) r)
            r (map_range go (map_to_list v))
  | ISlice v =>
      foldl (fun r item =>
               match item with
               | EString s =>
                   let parts := SplitN_eq s in
                   let key := List.hd "" parts in
                   let value := match parts with
                                | [_; v] => v
                                | _ => ""
                                end in
                   addSource key (inline_Source composePath serviceName value) r
               | EOther => r
               end)
            r v
  | _ => r
  end.

(** [parseComposeFile], resolver.go 351-375. *)
Definition parseComposeFile (path : string) (r : Resolution)
    : Resolution * option string :=
  match ReadYaml fs path with
  | inl err => (r, Some err)
  | inr compose =>
      (foldl (fun r '(serviceName, svc) =>
                let r := match EnvFile svc with
                         | INil => r
                         | envFile => parseEnvFileRef path serviceName envFile r
                         end in
                match Environment svc with
                | INil => r
                | env => parseInlineEnv path serviceName env r
                end)
             r (map_range go (map_to_list (Services compose))),
       None)
  end.

(** ** Precedence resolution, resolver.go 116-294 *)

(** The comparison handed to [sort.Slice] for a chain, resolver.go 179-181. *)
Definition chain_less (a b : Source) : bool :=
  (Precedence (Layer_ a) <? Precedence (Layer_ b))%Z.

(** The map [values] of resolver.go 190-195. *)
Definition chain_values (chain : list Source) : gmap string bool :=
  foldl (fun values src =>
           if String.eqb (Value src) "" then values
           else <[Value src := true]> values)
        ∅ chain.

(** The body of the loop over [r.ByName], resolver.go 178-203, on one cell. *)
Definition finalize (v : Variable_) : Variable_ :=
  let v := set_Chain (sort_Slice go chain_less (Chain v)) v in
  let v := match last (Chain v) with
           | Some src => set_Final src v
           | None => v
           end in
  let values := chain_values (Chain v) in
  if (1 <? size values)%nat then
    let v := set_Overridden true v in
    foldl (fun v '(val, _) =>
             if String.eqb val (FinalValue v) then v else add_Conflict val v)
          v (map_range go (map_to_list values))
  else v.

(** Step 3 of [ResolveWithOptions], resolver.go 176-211: every cell is
    finalized and listed, then the list is sorted by name. *)
Definition buildVariables (r : Resolution) : Resolution :=
  let r := foldl (fun r '(name, v) =>
                    let r := set_ByName (<[name := finalize v]> (ByName r)) r in
                    set_Variables (Variables r ++ [name]) r)
                 r (map_range go (map_to_list (ByName r))) in
  set_Variables
    (sort_Slice go (fun p q => str_lt (Name (deref r p)) (Name (deref r q)))
                (Variables r))
    r.

Definition osenv_Source (value : string) : Source :=
  {| Layer_ := LayerOSEnv; File := "environment"; Line := 0; Service := "";
     Value := value; IsInline := false |}.

(** The body of the loop over [os.Environ()], resolver.go 216-233. *)
Definition mergeOSEnv_entry (r : Resolution) (env : string) : Resolution :=
  match SplitN_eq env with
  | [key; value] =>
      match ByName r !! key with
      | Some _ =>
          let r := addSource key (osenv_Source value) r in
          let v := deref r key in
          let v := set_Overridden true (set_Final (osenv_Source value) v) in
          set_ByName (<[key := v]> (ByName r)) r
      | None => r
      end
  | _ => r
  end.

Definition mergeOSEnv (environ : list string) (r : Resolution) : Resolution :=
  foldl mergeOSEnv_entry r environ.

(** The test of resolver.go 260-266. *)
Definition usedByService (serviceName : string) (v : Variable_) : bool :=
  existsb (fun src => String.eqb (Service src) serviceName
                      || String.eqb (Service src) "")
          (Chain v).

(** [filterToService], resolver.go 255-274. *)
Definition filterToService (serviceName : string) (r : Resolution) : Resolution :=
  set_Variables
    (List.filter (fun p => usedByService serviceName (deref r p)) (Variables r))
    r.

(** The test of resolver.go 280-289. *)
Definition isUndefined (v : Variable_) : bool :=
  String.eqb (FinalValue v) ""
  && negb (existsb (fun src => negb (String.eqb (Value src) "")) (Chain v)).

(** [findUndefinedVars], resolver.go 277-294. *)
Definition findUndefinedVars (r : Resolution) : Resolution :=
  foldl (fun r' p =>
           if isUndefined (deref r p) then add_Undefined (Name (deref r p)) r'
           else r')
        r (Variables r).

(** Steps 1 and 2 of [ResolveWithOptions], resolver.go 117-174. *)
Definition envPatterns : list (string * Layer) :=
  [(".env.example", LayerEnvExample); (".env", LayerEnv);
   (".env.local", LayerEnvLocal)].

Definition composePatterns : list string :=
  ["docker-compose.yml"; "docker-compose.yaml"; "compose.yml"; "compose.yaml"].

Definition warn (what : string) (res : Resolution * option string) : Resolution :=
  match res with
  | (r, Some err) => add_Warning ("Error parsing " +:+ what +:+ ": " +:+ err) r
  | (r, None) => r
  end.

Definition ingest (basePath : string) : Resolution :=
  let r := {| Path := basePath; Variables := []; ByName := ∅; EnvFiles := [];
              ComposeFiles := []; Warnings := []; Undefined := [] |} in
  let r := foldl (fun r '(pattern, layer) =>
                    let envPath := filepath_Join go basePath pattern in
                    match Stat fs envPath with
                    | Some _ =>
                        warn pattern
                          (parseEnvFile envPath layer (add_EnvFile envPath r))
                    | None => r
                    end)
                 r envPatterns in
  let r := foldl (fun r name =>
                    if HasPrefix name ".env."
                       && negb (String.eqb name ".env.example")
                       && negb (String.eqb name ".env.local")
                    then
                      let envPath := filepath_Join go basePath name in
                      warn name
                        (parseEnvFile envPath LayerEnvOther
                           (add_EnvFile envPath r))
                    else r)
                 r (ReadDir fs basePath) in
  foldl (fun r pattern =>
           let composePath := filepath_Join go basePath pattern in
           match Stat fs composePath with
           | Some _ =>
               warn pattern
                 (parseComposeFile composePath (add_ComposeFile composePath r))
           | None => r
           end)
        r composePatterns.

(** [ResolveWithOptions], resolver.go 116-252; [environ] is [os.Environ()]. *)
Definition ResolveWithOptions (environ : list string) (basePath : string)
    (opts : Options) : Resolution * option string :=
  let r := ingest basePath in
  let r := buildVariables r in
  let r := if IncludeOSEnv opts then mergeOSEnv environ r else r in
  let r := if String.eqb (ServiceName opts) "" then r
           else filterToService (ServiceName opts) r in
  if StrictMode opts then
    let r := findUndefinedVars r in
    if (0 <? length (Undefined r))%nat then
      (r, Some ("strict mode: " +:+ Sprint_d (length (Undefined r))
                +:+ " undefined variable(s): " +:+ Join (Undefined r) ", "))
    else (r, None)
  else (r, None).

(** [Resolve], resolver.go 111-113. *)
Definition Resolve (environ : list string) (basePath : string)
    : Resolution * option string :=
  ResolveWithOptions environ basePath
    {| IncludeOSEnv := false; ServiceName := ""; StrictMode := false;
       CompareWith := "" |}.

End Resolver.

(** ** Comparison, resolver.go 488-556 *)

Record DiffVar := {
  DiffName : string;
  FirstValue : string;
  SecondValue : string
}.

Record CompareResult := {
  OnlyInFirst : list string;
  OnlyInSecond : list string;
  Different : list DiffVar;
  Same : list string
}.

(** The maps [firstVars] and [secondVars], resolver.go 507-516. *)
Definition finalValues (r : Resolution) : gmap string string :=
  foldl (fun m p => <[Name (deref r p) := FinalValue (deref r p)]> m)
        ∅ (Variables r).

(** [Compare], resolver.go 504-556. *)
Definition Compare (go : GoLib) (first second : Resolution) : CompareResult :=
  let firstVars := finalValues first in
  let secondVars := finalValues second in
  let onlyInFirst :=
    foldl (fun acc '(name, _) =>
             match secondVars !! name with
             | None => acc ++ [name]
             | Some _ => acc
             end)
          [] (map_range go (map_to_list firstVars)) in
  let onlyInSecond :=
    foldl (fun acc '(name, _) =>
             match firstVars !! name with
             | None => acc ++ [name]
             | Some _ => acc
             end)
          [] (map_range go (map_to_list secondVars)) in
  let '(different, same) :=
    foldl (fun '(different, same) '(name, firstVal) =>
             match secondVars !! name with
             | Some secondVal =>
                 if negb (String.eqb firstVal secondVal)
                 then (different ++ [{| DiffName := name;
                                        FirstValue := firstVal;
                                        SecondValue := secondVal |}], same)
                 else (different, same ++ [name])
             | None => (different, same)
             end)
          ([], []) (map_range go (map_to_list firstVars)) in
  {| OnlyInFirst := sort_Strings go onlyInFirst;
     OnlyInSecond := sort_Strings go onlyInSecond;
     Different :=
       sort_Slice go (fun a b => str_lt (DiffName a) (DiffName b)) different;
     Same := sort_Strings go same |}.

(** ** Reporting, package reporter *)

(** The functions of [github.com/fatih/color] the reporter calls on a text
    without arguments; what they wrap it in depends on the terminal. *)
Record Color := {
  CyanString : string -> string;
  YellowString : string -> string;
  GreenString : string -> string;
  WhiteString : string -> string;
  HiBlackString : string -> string
}.

(** The line feed. *)
Definition NL : string := String (ascii_of_nat 10) EmptyString.

(** [fmt.Sprintf("%d", n)] for an [int]. *)
Definition Sprint_int (n : Z) : string := NilZero.string_of_int (Z.to_int n).

(** The types [FormatJSON] declares. *)
Record jsonSource := {
  js_Layer : string;
  js_File : string;
  js_Line : Z;
  js_Service : string;
  js_Value : string
}.

Record jsonVariable := {
  jv_Name : string;
  jv_FinalValue : string;
  jv_FinalFrom : jsonSource;
  jv_Overridden : bool;
  jv_Chain : list jsonSource
}.

Record jsonOutput := {
  jo_Path : string;
  jo_EnvFiles : list string;
  jo_ComposeFiles : list string;
  jo_Variables : list jsonVariable;
  jo_Warnings : list string
}.

(** The literal [jsonSource{...}] of an observation. *)
Definition json_Source (s : Source) : jsonSource :=
  {| js_Layer := Layer_String (Layer_ s); js_File := File s;
     js_Line := Line s; js_Service := Service s; js_Value := Value s |}.

(** The value [out] that [FormatJSON] hands to [json.MarshalIndent]. *)
Definition json_out (r : Resolution) : jsonOutput :=
  let out := {| jo_Path := Path r; jo_EnvFiles := EnvFiles r;
                jo_ComposeFiles := ComposeFiles r; jo_Variables := [];
                jo_Warnings := Warnings r |} in
  foldl (fun out p =>
           let v := deref r p in
           let jv := {| jv_Name := Name v; jv_FinalValue := FinalValue v;
                        jv_FinalFrom := json_Source (FinalFrom v);
                        jv_Overridden := Overridden v; jv_Chain := [] |} in
           let jv :=
             if Overridden v then
               foldl (fun jv s =>
                        {| jv_Name := jv_Name jv;
                           jv_FinalValue := jv_FinalValue jv;
                           jv_FinalFrom := jv_FinalFrom jv;
                           jv_Overridden := jv_Overridden jv;
                           jv_Chain := jv_Chain jv ++ [json_Source s] |})
                     jv (Chain v)
             else jv in
           {| jo_Path := jo_Path out; jo_EnvFiles := jo_EnvFiles out;
              jo_ComposeFiles := jo_ComposeFiles out;
              jo_Variables := jo_Variables out ++ [jv];
              jo_Warnings := jo_Warnings out |})
        out (Variables r).

(** The two lists [overridden] and [clean] of [FormatText]. *)
Definition split_overridden (r : Resolution) : list ptr * list ptr :=
  foldl (fun '(overridden, clean) p =>
           if Overridden (deref r p) then (overridden ++ [p], clean)
           else (overridden, clean ++ [p]))
        ([], []) (Variables r).

(** The comparison [FormatMarkdown] hands to [sort.Slice]. *)
Definition markdown_less (r : Resolution) (a b : ptr) : bool :=
  if negb (Bool.eqb (Overridden (deref r a)) (Overridden (deref r b)))
  then Overridden (deref r a)
  else str_lt (Name (deref r a)) (Name (deref r b)).

(** The cell [val] of a row of the table of [FormatMarkdown]. *)
Definition markdown_val (v : Variable_) : string :=
  let val := FinalValue v in
  let val := if (30 <? len val)%nat then slice val 0 27 +:+ "..." else val in
  "`" +:+ val +:+ "`".

(** The row of a variable in the table of [FormatMarkdown]. *)
Definition markdown_row (v : Variable_) : string :=
  let val := markdown_val v in
  let src := Layer_String (Layer_ (FinalFrom v)) in
  let src := if negb (String.eqb (Service (FinalFrom v)) "")
             then src +:+ " (" +:+ Service (FinalFrom v) +:+ ")"
             else src in
  let override := if Overridden v then "⚠️ Yes" else "" in
  "| `" +:+ Name v +:+ "` | " +:+ val +:+ " | " +:+ src +:+ " | "
    +:+ override +:+ " |" +:+ NL.

(** The line of an observation in the chain [formatVariable] prints. *)
Definition chain_line (marker : string) (s : Source) : string :=
  let loc :=
    if negb (String.eqb (File s) "") then
      if (0 <? Line s)%Z then File s +:+ ":" +:+ Sprint_int (Line s)
      else File s
    else Layer_String (Layer_ s) in
  let val := if String.eqb (Value s) "" then "(empty)" else Value s in
  "    " +:+ marker +:+ loc +:+ " = " +:+ val +:+ NL.

Section Reporter.

Context (go : GoLib) (paint : Color)
  (MarshalIndent : jsonOutput -> string + string).

(** [formatVariable]; [sb] is the builder. *)
Definition formatVariable (v : Variable_) (showChain : bool) (sb : string)
    : string :=
  let sb := sb +:+ WhiteString paint (Name v) in
  let sb := sb +:+ NL in
  let finalVal := if String.eqb (FinalValue v) ""
                  then HiBlackString paint "(empty)" else FinalValue v in
  let sb := sb +:+ ("  final: " +:+ finalVal +:+ NL) in
  let src := FinalFrom v in
  let loc := if (0 <? Line src)%Z
             then File src +:+ ":" +:+ Sprint_int (Line src) else File src in
  let sb := if negb (String.eqb (Service src) "")
            then sb +:+ ("  from: " +:+ Layer_String (Layer_ src)
                         +:+ " (service: " +:+ Service src +:+ ")" +:+ NL)
            else sb +:+ ("  from: " +:+ loc +:+ NL) in
  let sb :=
    if showChain && (1 <? length (Chain v))%nat then
      let sb := sb +:+ HiBlackString paint ("  chain:" +:+ NL) in
      foldl (fun sb i =>
               match Chain v !! i with
               | Some s =>
                   let marker := if (i =? length (Chain v) - 1)%nat
                                 then "→ " else "  " in
                   sb +:+ chain_line marker s
               | None => sb
               end)
            sb (reverse (seq 0 (length (Chain v))))
    else sb in
  sb +:+ NL.

(** [FormatText] *)
Definition FormatText (r : Resolution) : string * option string :=
  let sb := CyanString paint ("Environment Resolution Report" +:+ NL) in
  let sb := sb +:+ CyanString paint
                     ("=============================" +:+ NL +:+ NL) in
  let sb := sb +:+ ("Scanned path: " +:+ Path r +:+ NL) in
  let sb := sb +:+ ("Env files: " +:+ Sprint_d (length (EnvFiles r)) +:+ NL) in
  let sb := sb +:+ ("Compose files: " +:+ Sprint_d (length (ComposeFiles r))
                    +:+ NL) in
  let sb := sb +:+ ("Variables resolved: " +:+ Sprint_d (length (Variables r))
                    +:+ NL +:+ NL) in
  let sb :=
    if (0 <? length (Warnings r))%nat then
      let sb := sb +:+ YellowString paint ("⚠️  Warnings" +:+ NL) in
      let sb := foldl (fun sb w => sb +:+ ("  • " +:+ w +:+ NL)) sb
                      (Warnings r) in
      sb +:+ NL
    else sb in
  let '(overridden, clean) := split_overridden r in
  let sb :=
    if (0 <? length overridden)%nat then
      let sb := sb +:+ YellowString paint ("Variables with Overrides" +:+ NL) in
      let sb := sb +:+ ("------------------------" +:+ NL) in
      let sb := foldl (fun sb p => formatVariable (deref r p) true sb) sb
                      overridden in
      sb +:+ NL
    else sb in
  let sb :=
    if (0 <? length clean)%nat then
      let sb := sb +:+ GreenString paint ("Cleanly Resolved Variables" +:+ NL) in
      let sb := sb +:+ ("--------------------------" +:+ NL) in
      foldl (fun sb p => formatVariable (deref r p) false sb) sb clean
    else sb in
  (sb, None).

(** [FormatJSON] *)
Definition FormatJSON (r : Resolution) : string * option string :=
  match MarshalIndent (json_out r) with
  | inl data => (data, None)
  | inr err => ("", Some err)
  end.

(** [FormatMarkdown] *)
Definition FormatMarkdown (r : Resolution) : string * option string :=
  let sb := "# Environment Resolution Report" +:+ NL +:+ NL in
  let sb := sb +:+ ("**Path:** `" +:+ Path r +:+ "`" +:+ NL +:+ NL) in
  let sb := sb +:+ ("## Summary" +:+ NL +:+ NL) in
  let sb := sb +:+ ("| Metric | Value |" +:+ NL) in
  let sb := sb +:+ ("|--------|-------|" +:+ NL) in
  let sb := sb +:+ ("| Env files scanned | " +:+ Sprint_d (length (EnvFiles r))
                    +:+ " |" +:+ NL) in
  let sb := sb +:+ ("| Compose files scanned | "
                    +:+ Sprint_d (length (ComposeFiles r)) +:+ " |" +:+ NL) in
  let sb := sb +:+ ("| Variables resolved | "
                    +:+ Sprint_d (length (Variables r)) +:+ " |" +:+ NL) in
  let overrides :=
    foldl (fun overrides p =>
             if Overridden (deref r p) then S overrides else overrides)
          0%nat (Variables r) in
  let sb := sb +:+ ("| Variables with overrides | " +:+ Sprint_d overrides
                    +:+ " |" +:+ NL) in
  let sb := sb +:+ NL in
  let sb :=
    if (0 <? length (Warnings r))%nat then
      let sb := sb +:+ ("## ⚠️ Warnings" +:+ NL +:+ NL) in
      let sb := foldl (fun sb w => sb +:+ ("- " +:+ w +:+ NL)) sb
                      (Warnings r) in
      sb +:+ NL
    else sb in
  let sb := sb +:+ ("## Resolved Variables" +:+ NL +:+ NL) in
  let sb := sb +:+ ("| Variable | Final Value | Source | Overridden |" +:+ NL) in
  let sb := sb +:+ ("|----------|-------------|--------|------------|" +:+ NL) in
  let vars := sort_Slice go (markdown_less r) (Variables r) in
  let sb := foldl (fun sb p => sb +:+ markdown_row (deref r p)) sb vars in
  (sb, None).

End Reporter.

(** ** The routines of Go's [sort] and [strings] used to run the resolver *)

Section GoSort.

Context {A : Type} (less : A -> A -> bool).

(** One round of the inner loop of [insertionSort]: [x = data[i]] is swapped
    with its left neighbour as long as it is [less]. [rl] is [data[a:i]]
    read from right to left. *)
Fixpoint insert_back (x : A) (rl : list A) : list A :=
  match rl with
  | [] => [x]
  | y :: rl' => if less x y then y :: insert_back x rl' else x :: rl
  end.

(** [insertionSort(data, a, b)]: what [sort.Slice] runs on a slice of at
    most 12 elements since Go 1.19. *)
Definition insertionSort (l : list A) : list A :=
  reverse (foldl (fun rl x => insert_back x rl) [] l).

(** The pass with gap 6 that [quickSort] (Go up to 1.18) runs on a slice of
    at most 12 elements before [insertionSort]:
    [for i := a + 6; i < b; i++ { if Less(i, i-6) { Swap(i, i-6) } }]. *)
Definition gap6_step (l : list A) (i : nat) : list A :=
  match l !! i, l !! (i - 6) with
  | Some x, Some y => if less x y then <[i - 6 := x]> (<[i := y]> l) else l
  | _, _ => l
  end.

Definition gap6_pass (l : list A) : list A :=
  foldl gap6_step l (seq 6 (length l - 6)).

Definition quickSort_small (l : list A) : list A :=
  insertionSort (gap6_pass l).

(** [data.Swap(i, j)] and [data.Less(i, j)] on a slice. *)
Definition swap_at (l : list A) (i j : nat) : list A :=
  match l !! i, l !! j with
  | Some x, Some y => <[j := x]> (<[i := y]> l)
  | _, _ => l
  end.

Definition less_at (l : list A) (i j : nat) : bool :=
  match l !! i, l !! j with
  | Some x, Some y => less x y
  | _, _ => false
  end.

(** [order2] and [median] of Go's pattern-defeating quicksort (since Go
    1.19), with the count of swaps that gives [choosePivot] its hint. *)
Definition order2 (l : list A) (a b swaps : nat) : nat * nat * nat :=
  if less_at l b a then (b, a, S swaps) else (a, b, swaps).

Definition median (l : list A) (a b c swaps : nat) : nat * nat :=
  let '(a, b, swaps) := order2 l a b swaps in
  let '(b, c, swaps) := order2 l b c swaps in
  let '(a, b, swaps) := order2 l a b swaps in
  (b, swaps).

(** [choosePivot(data, 0, n)] for [8 <= n < 50]: the median of the elements
    at [n/4], [n/4*2] and [n/4*3]. *)
Definition choosePivot (l : list A) : nat * nat :=
  let n := length l in
  median l (n / 4 * 1) (n / 4 * 2) (n / 4 * 3) 0.

(** [partialInsertionSort] on fewer than 50 elements: it reports whether
    the slice is sorted already, and moves nothing. *)
Fixpoint adjacent_sorted (l : list A) : bool :=
  match l with
  | x :: (y :: _) as l' => negb (less y x) && adjacent_sorted l'
  | _ => true
  end.

(** The loops [for i <= j && Less(i, a) { i++ }] and
    [for i <= j && !Less(j, a) { j-- }] of [partition]. *)
Fixpoint scan_up (l : list A) (a i j fuel : nat) : nat :=
  match fuel with
  | 0 => i
  | S fuel =>
      if (i <=? j)%nat && less_at l i a then scan_up l a (S i) j fuel else i
  end.

Fixpoint scan_down (l : list A) (a i j fuel : nat) : nat :=
  match fuel with
  | 0 => j
  | S fuel =>
      if (i <=? j)%nat && negb (less_at l j a)
      then scan_down l a i (j - 1) fuel else j
  end.

(** The [for] loop that ends [partition]: the slice and the final [j]. *)
Fixpoint partition_loop (l : list A) (a i j fuel : nat) : list A * nat :=
  match fuel with
  | 0 => (l, j)
  | S fuel =>
      let i := scan_up l a i j (length l) in
      let j := scan_down l a i j (length l) in
      if (j <? i)%nat then (l, j)
      else partition_loop (swap_at l i j) a (S i) (j - 1) fuel
  end.

(** [partition(data, a, b, pivot)]: the slice and the new place of the
    pivot. *)
Definition partition (l : list A) (a b pivot : nat) : list A * nat :=
  let l := swap_at l a pivot in
  let i := scan_up l a (a + 1) (b - 1) (length l) in
  let j := scan_down l a i (b - 1) (length l) in
  if (j <? i)%nat then (swap_at l j a, j)
  else
    let l := swap_at l i j in
    let '(l, j) := partition_loop l a (S i) (j - 1) (length l) in
    (swap_at l j a, j).

(** [pdqsort] on a slice of 13 elements: it returns at once when the slice
    is sorted; otherwise it partitions the slice around the pivot and runs
    [insertionSort] on either side, both of at most 12 elements.  No
    element right of the pivot is [less] than it, so that the two insertion
    sorts amount to one over the whole slice. *)
Definition pdqsort_13 (l : list A) : list A :=
  let '(pivot, swaps) := choosePivot l in
  if (swaps =? 0)%nat && adjacent_sorted l then l
  else insertionSort (fst (partition l 0 (length l) pivot)).

(** [sort.Slice] since Go 1.19, on at most 13 elements. *)
Definition pdqsort_small (l : list A) : list A :=
  if (length l =? 13)%nat then pdqsort_13 l else insertionSort l.

End GoSort.

(** The bytes [strings.TrimSpace] removes on its ASCII path. *)
Definition asciiSpace (c : ascii) : bool :=
  match nat_of_ascii c with
  | 9 | 10 | 11 | 12 | 13 | 32 => true
  | _ => false
  end.

Fixpoint trim_left (s : string) : string :=
  match s with
  | EmptyString => EmptyString
  | String c s' => if asciiSpace c then trim_left s' else s
  end.

(** [strings.TrimSpace] on a string whose white space is ASCII.  The
    library also removes Unicode white space, which this routine leaves in
    place; it is used to run the resolver on ASCII files only. *)
Definition ascii_TrimSpace (s : string) : string :=
  String.rev (trim_left (String.rev (trim_left s))).

(** [filepath.Join] and [filepath.Dir] on clean slash-separated paths.  The
    library cleans its result (a leading [./], a doubled slash); these
    routines do not, and are used to run the resolver on clean paths only. *)
Definition clean_Join (dir name : string) : string :=
  if String.eqb dir "" || String.eqb dir "." then name
  else dir +:+ "/" +:+ name.

Fixpoint dir_of (s : string) : option string :=
  match s with
  | EmptyString => None
  | String c s' =>
      match dir_of s' with
      | Some d => Some (String c d)
      | None => if Ascii.eqb c "/"%char then Some EmptyString else None
      end
  end.

Definition clean_Dir (path : string) : string :=
  match dir_of path with
  | Some d => d
  | None => "."
  end.

(** ** The vocabulary of the properties *)

(** The first and the last byte are the same quote. *)
Definition quote_pair (c q : ascii) : bool :=
  (Ascii.eqb c DQ && Ascii.eqb q DQ) || (Ascii.eqb c SQ && Ascii.eqb q SQ).

(** The mismatched value of the specification: [it], a single quote, a
    double quote and [s], between two single quotes. *)
Definition its_value : string := "'it'" +:+ String DQ "s'".

(** The rank of an observation. *)
Definition rank (s : Source) : Z := Precedence (Layer_ s).

Definition by_rank (a b : Source) : Prop := (rank a <= rank b)%Z.

(** Two observations of the chain carry different non-empty values. *)
Definition two_values (chain : list Source) : Prop :=
  exists s1 s2, s1 ∈ chain /\ s2 ∈ chain /\
    Value s1 <> "" /\ Value s2 <> "" /\ Value s1 <> Value s2.

(** The resolution [ResolveWithOptions] starts from. *)
Definition empty_Resolution (basePath : string) : Resolution :=
  {| Path := basePath; Variables := []; ByName := ∅; EnvFiles := [];
     ComposeFiles := []; Warnings := []; Undefined := [] |}.

(** Before finalization a cell holds its name and its chain, and nothing
    else; the chain is not empty. *)
Definition fresh (r : Resolution) : Prop :=
  forall k v, ByName r !! k = Some v ->
    v = set_Chain (Chain v) (new_Variable k) /\ Chain v <> [].

(** The values the process environment gives to [key], in order. *)
Definition environ_values (key : string) (environ : list string) : list string :=
  omap (fun env => match SplitN_eq env with
                   | [k; value] => if String.eqb k key then Some value else None
                   | _ => None
                   end) environ.

(** What resolver.go 223-231 does to the cell of a merged variable. *)
Definition merge_cell (v : Variable_) (value : string) : Variable_ :=
  set_Overridden true
    (set_Final (osenv_Source value)
       (set_Chain (Chain v ++ [osenv_Source value]) v)).

(** The state after steps 1 to 3 and the ambient merge. *)
Definition merged (go : GoLib) (fs : FS) (environ : list string)
    (basePath : string) (opts : Options) : Resolution :=
  let r := buildVariables go (ingest go fs basePath) in
  if IncludeOSEnv opts then mergeOSEnv environ r else r.

(** Observations of equal rank stand in [sorted] in the order they have in
    [arrival]. *)
Definition same_order_in_rank (arrival sorted : list Source) : Prop :=
  forall k : Z, filter (fun s => rank s = k) sorted
                = filter (fun s => rank s = k) arrival.

(** The winner of a chain: one of its observations, of the highest rank. *)
Definition wins (src : Source) (chain : list Source) : Prop :=
  src ∈ chain /\ forall o, o ∈ chain -> (rank o <= rank src)%Z.

(** The fields ingestion fills, besides the index. *)
Definition same_report (r r' : Resolution) : Prop :=
  Path r' = Path r /\ EnvFiles r' = EnvFiles r
  /\ ComposeFiles r' = ComposeFiles r /\ Warnings r' = Warnings r.

(** The resolution before the strict check. *)
Definition filtered (go : GoLib) (fs : FS) (environ : list string)
    (basePath : string) (opts : Options) : Resolution :=
  let r := merged go fs environ basePath opts in
  if String.eqb (ServiceName opts) "" then r
  else filterToService (ServiceName opts) r.

(** The error [parseEnvFile] returns for a path, and the error
    [parseComposeFile] returns. *)
Definition env_error (fs : FS) (path : string) : option string :=
  match Open fs path with
  | inl err => Some err
  | inr (_, scan_err) => scan_err
  end.

Definition compose_error (fs : FS) (path : string) : option string :=
  match ReadYaml fs path with
  | inl err => Some err
  | inr _ => None
  end.

Definition warning (what err : string) : string :=
  "Error parsing " +:+ what +:+ ": " +:+ err.


(** What the three loops of [Compare] append for one entry of the map
    they range over, [other] being the other map. *)
Definition only_in (other : gmap string string) (e : string * string)
    : option string :=
  match other !! e.1 with
  | None => Some e.1
  | Some _ => None
  end.

Definition diff_of (other : gmap string string) (e : string * string)
    : option DiffVar :=
  match other !! e.1 with
  | Some secondVal =>
      if negb (String.eqb e.2 secondVal)
      then Some {| DiffName := e.1; FirstValue := e.2;
                   SecondValue := secondVal |}
      else None
  | None => None
  end.

Definition same_of (other : gmap string string) (e : string * string)
    : option string :=
  match other !! e.1 with
  | Some secondVal =>
      if negb (String.eqb e.2 secondVal) then None else Some e.1
  | None => None
  end.

(** The comparison handed to [sort.Slice] at resolver.go 551-553. *)
Definition by_DiffName (a b : DiffVar) : bool :=
  str_lt (DiffName a) (DiffName b).

(** A difference, seen from the other side. *)
Definition swap_diff (d : DiffVar) : DiffVar :=
  {| DiffName := DiffName d; FirstValue := SecondValue d;
     SecondValue := FirstValue d |}.

(** The layers of the plain env files. *)
Definition env_layer (l : Layer) : Prop :=
  l = LayerEnvExample \/ l = LayerEnv \/ l = LayerEnvLocal \/ l = LayerEnvOther.

(** The calls [r.addSource(name, src)] of a list of observations, in order. *)
Definition addSources (obs : list (string * Source)) (r : Resolution)
    : Resolution :=
  foldl (fun r '(name, src) => addSource name src r) r obs.

(** The observations of [obs] that carry the name [name]. *)
Definition named (name : string) (obs : list (string * Source)) : list Source :=
  omap (fun e => if String.eqb e.1 name then Some e.2 else None) obs.

(** The cell [addSource] works on: the one at [ByName[name]], or a new one. *)
Definition cell (r : Resolution) (name : string) : Variable_ :=
  default (new_Variable name) (ByName r !! name).

(** *** The observations of the artifacts

    What each parser hands to [addSource], as a list in the order of the
    calls. *)

(** The observation of one line of a plain env file, if it has one. *)
Definition env_line_obs (go : GoLib) (path : string) (layer : Layer)
    (lineNum : Z) (text : string) : option (string * Source) :=
  let line := TrimSpace go text in
  if String.eqb line "" || HasPrefix line "#" then None
  else
    match SplitN_eq (TrimSpace go (TrimPrefix line "export ")) with
    | [k; v] =>
        if String.eqb (TrimSpace go k) "" then None
        else Some (TrimSpace go k,
                   {| Layer_ := layer; File := path; Line := lineNum;
                      Service := ""; Value := unquote (TrimSpace go v);
                      IsInline := false |})
    | _ => None
    end.

(** The observation of one line of a file a manifest refers to. *)
Definition ref_line_obs (go : GoLib) (envPath serviceName : string)
    (lineNum : Z) (text : string) : option (string * Source) :=
  let line := TrimSpace go text in
  if String.eqb line "" || HasPrefix line "#" then None
  else
    match SplitN_eq line with
    | [k; v] =>
        Some (TrimSpace go k,
              {| Layer_ := LayerComposeEnvFile; File := envPath;
                 Line := lineNum; Service := serviceName;
                 Value := unquote (TrimSpace go v); IsInline := false |})
    | _ => None
    end.

(** The observations of the lines after line [lineNum]. *)
Fixpoint scan_obs (f : Z -> string -> option (string * Source))
    (lineNum : Z) (lines : list string) : list (string * Source) :=
  match lines with
  | [] => []
  | text :: rest =>
      option_list (f (lineNum + 1)%Z text) ++ scan_obs f (lineNum + 1)%Z rest
  end.

(** The observations of a plain env file. *)
Definition file_obs (go : GoLib) (fs : FS) (path : string) (layer : Layer)
    : list (string * Source) :=
  match Open fs path with
  | inl _ => []
  | inr (lines, _) => scan_obs (env_line_obs go path layer) 0 lines
  end.

(** The observations of the files a service refers to. *)
Definition ref_obs (go : GoLib) (fs : FS) (composePath serviceName : string)
    (envFile : iface) : list (string * Source) :=
  mjoin ((fun f =>
            let envPath := filepath_Join go (filepath_Dir go composePath) f in
            match Stat fs envPath with
            | Some _ =>
                match Open fs envPath with
                | inl _ => []
                | inr (lines, _) =>
                    scan_obs (ref_line_obs go envPath serviceName) 0 lines
                end
            | None => []
            end) <$> envFile_files envFile).

(** The observations of the inline declarations of a service. *)
Definition inline_obs (go : GoLib) (composePath serviceName : string)
    (env : iface) : list (string * Source) :=
  match env with
  | IMap v =>
      (fun e => (e.1, inline_Source composePath serviceName
                        match e.2 with VNil => "" | VFmt text => text end))
        <$> map_range go (map_to_list v)
  | ISlice v =>
      omap (fun item =>
              match item with
              | EString s =>
                  Some (List.hd "" (SplitN_eq s),
                        inline_Source composePath serviceName
                          match SplitN_eq s with [_; v] => v | _ => "" end)
              | EOther => None
              end) v
  | _ => []
  end.

(** The observations of a manifest: service after service, the referenced
    files of a service before its inline declarations. *)
Definition compose_obs (go : GoLib) (fs : FS) (path : string)
    : list (string * Source) :=
  match ReadYaml fs path with
  | inl _ => []
  | inr compose =>
      mjoin ((fun e => ref_obs go fs path e.1 (EnvFile e.2)
                       ++ inline_obs go path e.1 (Environment e.2))
               <$> map_range go (map_to_list (Services compose)))
  end.

(** The names of the listing that are other-variant env files. *)
Definition other_variant (name : string) : bool :=
  HasPrefix name ".env."
  && negb (String.eqb name ".env.example")
  && negb (String.eqb name ".env.local").

(** The observations of a directory, in the order of ingestion. *)
Definition ingest_obs (go : GoLib) (fs : FS) (basePath : string)
    : list (string * Source) :=
  mjoin ((fun e => match Stat fs (filepath_Join go basePath e.1) with
                   | Some _ => file_obs go fs (filepath_Join go basePath e.1) e.2
                   | None => []
                   end) <$> envPatterns)
  ++ mjoin ((fun name => file_obs go fs (filepath_Join go basePath name)
                           LayerEnvOther)
              <$> List.filter other_variant (ReadDir fs basePath))
  ++ mjoin ((fun pattern =>
               match Stat fs (filepath_Join go basePath pattern) with
               | Some _ => compose_obs go fs (filepath_Join go basePath pattern)
               | None => []
               end) <$> composePatterns).

(** How the parsers and the ambient merge tag an observation of the name
    [name], layer by layer. *)
Definition tagged (name : string) (s : Source) : Prop :=
  match Layer_ s with
  | LayerEnvExample | LayerEnv | LayerEnvLocal | LayerEnvOther =>
      name <> "" /\ Service s = "" /\ IsInline s = false /\ (1 <= Line s)%Z
  | LayerComposeEnvFile => IsInline s = false /\ (1 <= Line s)%Z
  | LayerComposeInline => IsInline s = true /\ Line s = 0%Z
  | LayerOSEnv =>
      File s = "environment" /\ Service s = "" /\ IsInline s = false
      /\ Line s = 0%Z
  end.

(** The same options, without the ambient merge. *)
Definition without_ambient (opts : Options) : Options :=
  {| IncludeOSEnv := false; ServiceName := ServiceName opts;
     StrictMode := StrictMode opts; CompareWith := CompareWith opts |}.

(** *** The artifacts the resolver finds

    Each with the name its warning carries and its path, in the order of
    ingestion. *)
Definition found_env (go : GoLib) (fs : FS) (basePath : string)
    : list (string * string) :=
  omap (fun e : string * Layer =>
          match Stat fs (filepath_Join go basePath e.1) with
          | Some _ => Some (e.1, filepath_Join go basePath e.1)
          | None => None
          end) envPatterns
  ++ ((fun name => (name, filepath_Join go basePath name))
        <$> List.filter other_variant (ReadDir fs basePath)).

Definition found_compose (go : GoLib) (fs : FS) (basePath : string)
    : list (string * string) :=
  omap (fun pattern =>
          match Stat fs (filepath_Join go basePath pattern) with
          | Some _ => Some (pattern, filepath_Join go basePath pattern)
          | None => None
          end) composePatterns.

(** The warnings of the artifacts of [found] that fail with [err]. *)
Definition warnings_of (err : string -> option string)
    (found : list (string * string)) : list string :=
  omap (fun e => warning e.1 <$> err e.2) found.

(** *** Declarations of a manifest *)

(** The text [s] holds no [=]. *)
Definition no_eq (s : string) : Prop :=
  "="%char ∉ list_ascii_of_string s.

(** The strings among the items of a list. *)
Definition item_strings (items : list elem) : list string :=
  omap (fun item => match item with EString s => Some s | EOther => None end)
       items.

(** The text of a value of a map. *)
Definition mapval_text (val : mapval) : string :=
  match val with VNil => "" | VFmt text => text end.

(** What an inline item [s] declares: the text before its first [=] with
    the text after it, or itself with the empty value. *)
Definition declares (s : string) (e : string * Source) : Prop :=
  (s = e.1 +:+ "=" +:+ Value e.2 /\ no_eq e.1)
  \/ (no_eq s /\ e.1 = s /\ Value e.2 = "").

(** *** Runs that differ in the library only *)

(** Two libraries that differ at most in how they sort and in the order in
    which they range over a map. *)
Definition same_text_lib (go go' : GoLib) : Prop :=
  TrimSpace go = TrimSpace go'
  /\ filepath_Join go = filepath_Join go'
  /\ filepath_Dir go = filepath_Dir go'.

(** No name is observed twice in one layer. *)
Definition once_per_layer (obs : list (string * Source)) : Prop :=
  forall name, NoDup (rank <$> named name obs).

(** Two cells that differ at most in the order of [Conflicts]. *)
Definition same_cell (v v' : Variable_) : Prop :=
  Name v' = Name v /\ FinalValue v' = FinalValue v
  /\ FinalFrom v' = FinalFrom v /\ Chain v' = Chain v
  /\ Overridden v' = Overridden v /\ Conflicts v' ≡ₚ Conflicts v.

(** ** Directories, environments and options to run the resolver on *)

(** A directory given by the nodes at its paths and its listing. *)
Definition mkFS (files : list (string * node)) (listing : list string) : FS :=
  {| Stat := fun p => snd <$> List.find (fun e => String.eqb (fst e) p) files;
     ReadDir := fun _ => listing |}.

(** A readable env file, which is no manifest. *)
Definition env_node (lines : list string) : node :=
  Readable lines None (inl "yaml: not a manifest").

(** [Options{}] *)
Definition opts0 : Options :=
  {| IncludeOSEnv := false; ServiceName := ""; StrictMode := false;
     CompareWith := "" |}.

(** A manifest with two services: [a] declares [X] six times inline, [b]
    refers to a file that sets [X]. *)
Definition fs_seven : FS :=
  mkFS
    [("proj/docker-compose.yml",
      Readable [] None
        (inr {| Services :=
                  <["a" := {| Environment :=
                                ISlice [EString "X=1"; EString "X=2";
                                        EString "X=3"; EString "X=4";
                                        EString "X=5"; EString "X=6"];
                              EnvFile := INil |}]>
                  (<["b" := {| Environment := INil;
                               EnvFile := IString "b.env" |}]> ∅) |}));
     ("proj/b.env", env_node ["X=7"])]
    [].

(** The same, with twelve inline declarations of [X]. *)
Definition fs_thirteen : FS :=
  mkFS
    [("proj/docker-compose.yml",
      Readable [] None
        (inr {| Services :=
                  <["a" := {| Environment :=
                                ISlice [EString "X=1"; EString "X=2";
                                        EString "X=3"; EString "X=4";
                                        EString "X=5"; EString "X=6";
                                        EString "X=7"; EString "X=8";
                                        EString "X=9"; EString "X=10";
                                        EString "X=11"; EString "X=12"];
                              EnvFile := INil |}]>
                  (<["b" := {| Environment := INil;
                               EnvFile := IString "b.env" |}]> ∅) |}));
     ("proj/b.env", env_node ["X=13"])]
    [].

(** A manifest whose services [a] and [b] both declare [X] inline, with
    different values. *)
Definition fs_two_services : FS :=
  mkFS
    [("proj/docker-compose.yml",
      Readable [] None
        (inr {| Services :=
                  <["a" := {| Environment := ISlice [EString "X=1"];
                              EnvFile := INil |}]>
                  (<["b" := {| Environment := ISlice [EString "X=2"];
                               EnvFile := INil |}]> ∅) |}))]
    [].

(** Scenarios 2 and 6 of the specification: a base file and a local
    override, and an environment that sets the same name. *)
Definition fs_base_local : FS :=
  mkFS [("proj/.env", env_node ["API_KEY=from_base"]);
        ("proj/.env.local", env_node ["API_KEY=from_local"])]
       [".env"; ".env.local"].

Definition environ_api : list string :=
  ["HOME=/root"; "API_KEY=override_from_ambient"].

Definition opts_ambient : Options :=
  {| IncludeOSEnv := true; ServiceName := ""; StrictMode := false;
     CompareWith := "" |}.

(** A base file that sets [X], and an environment that sets it to the very
    same value. *)
Definition fs_one : FS := mkFS [("proj/.env", env_node ["X=a"])] [".env"].

Definition opts_strict : Options :=
  {| IncludeOSEnv := false; ServiceName := ""; StrictMode := true;
     CompareWith := "" |}.

(** Scenario 5 of the specification: a base file that holds [EMPTY_VAR=]
    and nothing else. *)
Definition fs_empty_var : FS :=
  mkFS [("proj/.env", env_node ["EMPTY_VAR="])] [".env"].

(** A manifest whose service lists the bare name [REF]. *)
Definition fs_bare_ref : FS :=
  mkFS
    [("proj/docker-compose.yml",
      Readable [] None
        (inr {| Services :=
                  <["api" := {| Environment := ISlice [EString "REF"];
                                EnvFile := INil |}]> ∅ |}))]
    [].

(** A manifest whose service [api] refers to [app.env]; the file is also
    the base file of a second directory. *)
Definition app_env : node :=
  env_node ["export FOO=bar"; "=orphan"; "PLAIN='p'"].

Definition fs_env_file : FS :=
  mkFS
    [("proj/docker-compose.yml",
      Readable [] None
        (inr {| Services :=
                  <["api" := {| Environment := INil;
                                EnvFile := IString "app.env" |}]> ∅ |}));
     ("proj/app.env", app_env);
     ("base/.env", app_env)]
    [].

(** A template, a base file and a local override that all set [X]. *)
Definition fs_three_layers : FS :=
  mkFS [("proj/.env.example", env_node ["X=1"]);
        ("proj/.env", env_node ["X=2"]);
        ("proj/.env.local", env_node ["X=3"])]
       [".env"; ".env.example"; ".env.local"].

(** A manifest with two services, each with a bare reference of its own. *)
Definition fs_two_refs : FS :=
  mkFS
    [("proj/docker-compose.yml",
      Readable [] None
        (inr {| Services :=
                  <["a" := {| Environment := ISlice [EString "REF_A"];
                              EnvFile := INil |}]>
                  (<["b" := {| Environment := ISlice [EString "REF_B"];
                               EnvFile := INil |}]> ∅) |}))]
    [].

Definition opts_strict_a : Options :=
  {| IncludeOSEnv := false; ServiceName := "a"; StrictMode := true;
     CompareWith := "" |}.

(** The colour functions when colour is off. *)
Definition no_color : Color :=
  {| CyanString := id; YellowString := id; GreenString := id;
     WhiteString := id; HiBlackString := id |}.

(** * Properties *)

(** ** The sorting routines meet the contract of [sort.Slice] *)

Section GoSortFacts.

Context {A : Type} (less : A -> A -> bool).

Lemma insert_back_perm (x : A) (rl : list A) :
  insert_back less x rl ≡ₚ x :: rl.
Proof.
  induction rl as [|y rl IH]; simpl; [done|].
  destruct (less x y); [|done].
  rewrite IH. apply Permutation_swap.
Qed.

Lemma foldl_insert_back_perm (l acc : list A) :
  foldl (fun rl x => insert_back less x rl) acc l ≡ₚ l ++ acc.
Proof.
  revert acc. induction l as [|x l IH]; intros acc; simpl; [done|].
  rewrite IH, insert_back_perm. symmetry. apply Permutation_middle.
Qed.

Lemma insertionSort_perm (l : list A) : insertionSort less l ≡ₚ l.
Proof.
  unfold insertionSort.
  rewrite reverse_Permutation, foldl_insert_back_perm.
  by rewrite app_nil_r.
Qed.

Lemma strict_weak_asym :
  strict_weak less -> forall a b, less a b = true -> less b a = false.
Proof.
  intros (Hirr & Htr & _) a b Hab.
  destruct (less b a) eqn:Hba; [|done].
  by rewrite <- (Hirr a), (Htr a b a Hab Hba).
Qed.

Lemma insert_back_sorted (x : A) (rl : list A) :
  strict_weak less ->
  StronglySorted (fun a b => less a b = false) rl ->
  StronglySorted (fun a b => less a b = false) (insert_back less x rl).
Proof.
  intros Hsw. induction rl as [|y rl IH]; intros Hs; simpl.
  { repeat constructor. }
  apply StronglySorted_cons in Hs as [Hy Hrl].
  destruct (less x y) eqn:Hxy.
  - apply StronglySorted_cons. split; [|by apply IH].
    rewrite (insert_back_perm x rl). constructor; [|done].
    by apply strict_weak_asym.
  - apply StronglySorted_cons. split; [|by apply StronglySorted_cons].
    constructor; [done|].
    destruct Hsw as (_ & _ & Hneg).
    eapply Forall_impl; [exact Hy|]. intros b Hb. by apply (Hneg x y b).
Qed.

Lemma StronglySorted_reverse_flip (R : relation A) (l : list A) :
  StronglySorted (flip R) l -> StronglySorted R (reverse l).
Proof.
  induction l as [|x l IH]; intros Hs; [constructor|].
  apply StronglySorted_cons in Hs as [Hx Hl].
  rewrite reverse_cons. apply StronglySorted_app_2.
  - intros x1 x2 Hx1 ->%list_elem_of_singleton.
    rewrite elem_of_reverse in Hx1.
    rewrite Forall_forall in Hx. exact (Hx x1 Hx1).
  - by apply IH.
  - repeat constructor.
Qed.

Lemma insertionSort_sorted (l : list A) :
  strict_weak less -> ascending less (insertionSort less l).
Proof.
  intros Hsw. unfold ascending, insertionSort.
  apply StronglySorted_reverse_flip. unfold flip.
  assert (forall acc,
    StronglySorted (fun a b => less a b = false) acc ->
    StronglySorted (fun a b => less a b = false)
      (foldl (fun rl x => insert_back less x rl) acc l)) as H.
  { induction l as [|x l IH]; intros acc Hacc; simpl; [done|].
    apply IH. by apply insert_back_sorted. }
  apply H. constructor.
Qed.

(** Elements that [less] does not tell apart keep their order. *)
Lemma insert_back_filter (P : A -> Prop) `{!forall a, Decision (P a)}
    (x : A) (rl : list A) :
  (forall a b, P a -> P b -> less a b = false) ->
  filter P (insert_back less x rl) = filter P (x :: rl).
Proof.
  intros HP. induction rl as [|y rl IH]; simpl; [done|].
  destruct (less x y) eqn:Hxy; [|done].
  rewrite !filter_cons, IH, !filter_cons.
  destruct (decide (P y)), (decide (P x)); try done.
  by rewrite HP in Hxy.
Qed.

Lemma insertionSort_filter (P : A -> Prop) `{!forall a, Decision (P a)}
    (l : list A) :
  (forall a b, P a -> P b -> less a b = false) ->
  filter P (insertionSort less l) = filter P l.
Proof.
  intros HP. unfold insertionSort.
  assert (forall acc,
    filter P (foldl (fun rl x => insert_back less x rl) acc l)
    = reverse (filter P l) ++ filter P acc) as Hfold.
  { induction l as [|x l IH]; intros acc; simpl; [done|].
    rewrite IH, (insert_back_filter P x acc HP), !filter_cons.
    destruct (decide (P x)); [|done].
    by rewrite reverse_cons, <- app_assoc. }
  rewrite filter_reverse, Hfold, app_nil_r. apply reverse_involutive.
Qed.

Lemma gap6_step_perm (l : list A) (i : nat) : gap6_step less l i ≡ₚ l.
Proof.
  unfold gap6_step.
  destruct (l !! i) as [x|] eqn:Hi; [|done].
  destruct (l !! (i - 6)) as [y|] eqn:Hj; [|done].
  destruct (less x y); [|done].
  by apply Permutation_insert_swap.
Qed.

Lemma gap6_pass_perm (l : list A) : gap6_pass less l ≡ₚ l.
Proof.
  unfold gap6_pass. generalize (seq 6 (length l - 6)) as idx.
  intros idx. revert l. induction idx as [|i idx IH]; intros l; simpl; [done|].
  by rewrite IH, gap6_step_perm.
Qed.

Lemma quickSort_small_perm (l : list A) : quickSort_small less l ≡ₚ l.
Proof.
  unfold quickSort_small. by rewrite insertionSort_perm, gap6_pass_perm.
Qed.

Lemma quickSort_small_sorted (l : list A) :
  strict_weak less -> ascending less (quickSort_small less l).
Proof. intros. by apply insertionSort_sorted. Qed.

Lemma swap_at_perm (l : list A) (i j : nat) : swap_at l i j ≡ₚ l.
Proof.
  unfold swap_at.
  destruct (l !! i) as [x|] eqn:Hi; [|done].
  destruct (l !! j) as [y|] eqn:Hj; [|done].
  by apply Permutation_insert_swap.
Qed.

Lemma partition_loop_perm (fuel : nat) (l : list A) (a i j : nat) :
  fst (partition_loop less l a i j fuel) ≡ₚ l.
Proof.
  revert l i j. induction fuel as [|fuel IH]; intros l i j;
    cbn [partition_loop]; [done|]. cbn zeta.
  match goal with |- context [if ?c then _ else _] => destruct c end;
    [done|]. by rewrite IH, swap_at_perm.
Qed.

Lemma partition_perm (l : list A) (a b pivot : nat) :
  fst (partition less l a b pivot) ≡ₚ l.
Proof.
  unfold partition. cbn zeta.
  match goal with |- context [if ?c then _ else _] => destruct c end;
    cbn [fst].
  { by rewrite !swap_at_perm. }
  match goal with |- context [partition_loop less ?l' ?a' ?i' ?j' ?f'] =>
    pose proof (partition_loop_perm f' l' a' i' j') as Hp;
    destruct (partition_loop less l' a' i' j' f') as [l2 j2] end.
  cbn [fst] in *. by rewrite swap_at_perm, Hp, !swap_at_perm.
Qed.

Lemma adjacent_sorted_ascending (l : list A) :
  strict_weak less -> adjacent_sorted less l = true -> ascending less l.
Proof.
  intros (_ & _ & Hneg). unfold ascending.
  induction l as [|x l IH]; intros Hs; [constructor|].
  destruct l as [|y l']; [repeat constructor|].
  cbn [adjacent_sorted] in Hs. apply andb_true_iff in Hs as [Hyx Hs].
  apply negb_true_iff in Hyx. specialize (IH Hs).
  apply StronglySorted_cons. split; [|done].
  apply StronglySorted_cons in IH as [Hy _].
  constructor; [done|].
  eapply Forall_impl; [exact Hy|]. intros b Hb. by apply (Hneg b y x).
Qed.

Lemma pdqsort_small_perm (l : list A) : pdqsort_small less l ≡ₚ l.
Proof.
  unfold pdqsort_small, pdqsort_13.
  destruct (length l =? 13)%nat; [|apply insertionSort_perm].
  destruct (choosePivot less l) as [pivot swaps].
  destruct (_ && _); [done|].
  by rewrite insertionSort_perm, partition_perm.
Qed.

Lemma pdqsort_small_sorted (l : list A) :
  strict_weak less -> ascending less (pdqsort_small less l).
Proof.
  intros Hsw. unfold pdqsort_small, pdqsort_13.
  destruct (length l =? 13)%nat; [|by apply insertionSort_sorted].
  destruct (choosePivot less l) as [pivot swaps].
  destruct (_ && _) eqn:Hc; [|by apply insertionSort_sorted].
  apply andb_true_iff in Hc as [_ Hc]. by apply adjacent_sorted_ascending.
Qed.

End GoSortFacts.

(** ** The order on names *)

Lemma str_lt_false (a b : string) : str_lt b a = false <-> String.le a b.
Proof.
  unfold str_lt, String.le, String.ltb, String.leb.
  rewrite (String.compare_antisym a b).
  destruct (String.compare b a); simpl; split; done.
Qed.

Lemma str_lt_true (a b : string) : str_lt a b = true <-> ~ String.le b a.
Proof.
  rewrite <- str_lt_false. destruct (str_lt a b); split; done.
Qed.

Lemma str_lt_strict_weak {A} (f : A -> string) :
  strict_weak (fun a b => str_lt (f a) (f b)).
Proof.
  split; [|split].
  - intros a. by apply str_lt_false.
  - intros a b c Hab Hbc. apply str_lt_true. intros Hca.
    apply str_lt_true in Hab. apply Hab.
    destruct (total String.le (f c) (f b)) as [Hcb|Hbc'].
    + by apply str_lt_true in Hbc.
    + by etrans.
  - intros a b c Hab Hbc. apply str_lt_false.
    apply str_lt_false in Hab, Hbc. by etrans.
Qed.

Lemma ascending_str_lt {A} (f : A -> string) (l : list A) :
  ascending (fun a b => str_lt (f a) (f b)) l
  <-> StronglySorted String.le (f <$> l).
Proof.
  unfold ascending. induction l as [|x l IH].
  { split; constructor. }
  rewrite fmap_cons, !StronglySorted_cons, IH, Forall_fmap.
  split; intros [Hx ?]; (split; [|done]);
    (eapply Forall_impl; [exact Hx|]); intros y Hy; by apply str_lt_false.
Qed.

(** ** Go libraries to run the resolver with *)

Lemma insertionSort_strings_sorted (l : list string) :
  ascending str_lt (insertionSort str_lt l).
Proof. apply insertionSort_sorted, (str_lt_strict_weak id). Qed.

Lemma quickSort_small_strings_sorted (l : list string) :
  ascending str_lt (quickSort_small str_lt l).
Proof. apply quickSort_small_sorted, (str_lt_strict_weak id). Qed.

(** Insertion sort, and maps ranged over in the order [map_to_list] lists
    their entries. *)
Definition go_lib : GoLib :=
  {| sort_Slice := @insertionSort;
     sort_Slice_perm := @insertionSort_perm;
     sort_Slice_sorted := @insertionSort_sorted;
     sort_Strings := insertionSort str_lt;
     sort_Strings_perm := insertionSort_perm str_lt;
     sort_Strings_sorted := insertionSort_strings_sorted;
     map_range := fun A l => l;
     map_range_perm := fun A l => reflexivity l;
     TrimSpace := ascii_TrimSpace;
     filepath_Join := clean_Join;
     filepath_Dir := clean_Dir |}.

(** The same, with every map ranged over in the opposite order. *)
Definition go_lib_rev : GoLib :=
  {| sort_Slice := @insertionSort;
     sort_Slice_perm := @insertionSort_perm;
     sort_Slice_sorted := @insertionSort_sorted;
     sort_Strings := insertionSort str_lt;
     sort_Strings_perm := insertionSort_perm str_lt;
     sort_Strings_sorted := insertionSort_strings_sorted;
     map_range := @reverse;
     map_range_perm := @reverse_Permutation;
     TrimSpace := ascii_TrimSpace;
     filepath_Join := clean_Join;
     filepath_Dir := clean_Dir |}.

Lemma pdqsort_small_strings_sorted (l : list string) :
  ascending str_lt (pdqsort_small str_lt l).
Proof. apply pdqsort_small_sorted, (str_lt_strict_weak id). Qed.

(** The sort of Go since 1.19 on slices of at most 13 elements. *)
Definition go119_lib : GoLib :=
  {| sort_Slice := @pdqsort_small;
     sort_Slice_perm := @pdqsort_small_perm;
     sort_Slice_sorted := @pdqsort_small_sorted;
     sort_Strings := pdqsort_small str_lt;
     sort_Strings_perm := pdqsort_small_perm str_lt;
     sort_Strings_sorted := pdqsort_small_strings_sorted;
     map_range := fun A l => l;
     map_range_perm := fun A l => reflexivity l;
     TrimSpace := ascii_TrimSpace;
     filepath_Join := clean_Join;
     filepath_Dir := clean_Dir |}.

(** The sort of Go up to 1.18 on short slices. *)
Definition go118_lib : GoLib :=
  {| sort_Slice := @quickSort_small;
     sort_Slice_perm := @quickSort_small_perm;
     sort_Slice_sorted := @quickSort_small_sorted;
     sort_Strings := quickSort_small str_lt;
     sort_Strings_perm := quickSort_small_perm str_lt;
     sort_Strings_sorted := quickSort_small_strings_sorted;
     map_range := fun A l => l;
     map_range_perm := fun A l => reflexivity l;
     TrimSpace := ascii_TrimSpace;
     filepath_Join := clean_Join;
     filepath_Dir := clean_Dir |}.

(** ** Unquoting *)

Lemma get_snoc (x : string) (q : ascii) :
  String.get (String.length x) (x +:+ String q EmptyString) = Some q.
Proof. induction x as [|c x IH]; simpl; [done|exact IH]. Qed.

Lemma length_snoc (x : string) (q : ascii) :
  String.length (x +:+ String q EmptyString) = S (String.length x).
Proof. induction x as [|c x IH]; simpl; [done|by rewrite IH]. Qed.

Lemma substring_snoc (x : string) (q : ascii) :
  String.substring 0 (String.length x) (x +:+ String q EmptyString) = x.
Proof. induction x as [|c x IH]; simpl; [done|by rewrite IH]. Qed.

(** [unquote] on a string of two bytes or more, given by its first byte,
    its middle and its last byte. *)
Lemma unquote_ends (c q : ascii) (x : string) :
  unquote (String c (x +:+ String q EmptyString))
  = if quote_pair c q then x else String c (x +:+ String q EmptyString).
Proof.
  unfold unquote, quote_pair, len, byte_at, slice.
  cbn [String.length]. rewrite length_snoc.
  replace (S (S (String.length x)) - 1) with (S (String.length x)) by lia.
  cbn [String.get Nat.leb]. rewrite get_snoc.
  replace (S (String.length x) - 1) with (String.length x) by lia.
  cbn [String.substring]. by rewrite substring_snoc.
Qed.

Lemma string_snoc_inv (s : string) :
  s <> EmptyString -> exists x q, s = x +:+ String q EmptyString.
Proof.
  induction s as [|c s IH]; intros Hs; [done|].
  destruct s as [|c' s'].
  - by exists EmptyString, c.
  - destruct IH as (x & q & Hx); [done|].
    exists (String c x), q. by rewrite Hx.
Qed.

Lemma unquote_short (s : string) : len s < 2 -> unquote s = s.
Proof.
  intros Hlen. unfold unquote.
  destruct (2 <=? len s)%nat eqn:Hle; [|done].
  apply Nat.leb_le in Hle. lia.
Qed.

Lemma quote_pair_true (c q : ascii) :
  quote_pair c q = true -> c = q /\ (q = DQ \/ q = SQ).
Proof.
  unfold quote_pair. intros H.
  apply orb_true_iff in H as [H|H]; apply andb_true_iff in H as [H1 H2];
    apply Ascii.eqb_eq in H1, H2; subst; auto.
Qed.

Lemma unquote_wrap (q : ascii) (x : string) :
  q = DQ \/ q = SQ -> unquote (wrap q x) = x.
Proof.
  intros Hq. unfold wrap. rewrite unquote_ends.
  by destruct Hq as [-> | ->].
Qed.

Lemma unquote_unwrapped (s : string) :
  (forall q x, q = DQ \/ q = SQ -> s <> wrap q x) -> unquote s = s.
Proof.
  intros Hs. destruct s as [|c s]; [done|].
  destruct s as [|c' s']; [done|].
  destruct (string_snoc_inv (String c' s')) as (x & q & Hx); [done|].
  rewrite Hx, unquote_ends.
  destruct (quote_pair c q) eqn:Hp; [|done].
  apply quote_pair_true in Hp as [-> Hq].
  exfalso. apply (Hs q x Hq). unfold wrap. by rewrite Hx.
Qed.

(** C5, as stated, fails on its own example: [its_value] begins and ends
    with a single quote, and [unquote] strips that pair. *)
Lemma unquote_its_value_changed : unquote its_value <> its_value.
Proof. vm_compute. discriminate. Qed.

(** C5 (amended).  [unquote] returns its argument unchanged when it is not
    a value wrapped in a pair of double quotes or in a pair of single
    quotes; it strips exactly the outer pair of a value so wrapped, whatever
    the value holds; a value that begins with one kind of quote and ends
    with the other is left as it is, and [its_value], which begins and
    ends with a single quote, loses that pair. *)
Theorem unquote_spec :
  (forall s, (forall q x, q = DQ \/ q = SQ -> s <> wrap q x) -> unquote s = s)
  /\ (forall x, unquote (wrap DQ x) = x)
  /\ (forall x, unquote (wrap SQ x) = x)
  /\ (forall x, unquote (String SQ (x +:+ String DQ EmptyString))
                = String SQ (x +:+ String DQ EmptyString))
  /\ (forall x, unquote (String DQ (x +:+ String SQ EmptyString))
                = String DQ (x +:+ String SQ EmptyString))
  /\ unquote its_value = "it'" +:+ String DQ "s".
Proof.
  split; [exact unquote_unwrapped|].
  split; [intros x; apply unquote_wrap; auto|].
  split; [intros x; apply unquote_wrap; auto|].
  split; [intros x; by rewrite unquote_ends|].
  split; [intros x; by rewrite unquote_ends|].
  reflexivity.
Qed.

Lemma unquote_spec_witness : unquote "plain" = "plain".
Proof.
  apply unquote_spec. intros q x [-> | ->]; vm_compute; discriminate.
Defined.

(** ** Finalization of one variable *)

Lemma key_less_strict_weak {A} (f : A -> Z) :
  strict_weak (fun a b => (f a <? f b)%Z).
Proof.
  split; [|split].
  - intros a. apply Z.ltb_irrefl.
  - intros a b c ?%Z.ltb_lt ?%Z.ltb_lt. apply Z.ltb_lt. lia.
  - intros a b c ?%Z.ltb_ge ?%Z.ltb_ge. apply Z.ltb_ge. lia.
Qed.

Lemma chain_less_strict_weak : strict_weak chain_less.
Proof. apply (key_less_strict_weak (fun s => Precedence (Layer_ s))). Qed.

Lemma ascending_chain_less (l : list Source) :
  ascending chain_less l <-> StronglySorted by_rank l.
Proof.
  unfold ascending. induction l as [|x l IH].
  { split; constructor. }
  rewrite !StronglySorted_cons, IH.
  split; intros [Hx ?]; (split; [|done]);
    (eapply Forall_impl; [exact Hx|]); intros y Hy;
    unfold chain_less, by_rank, rank in *; by apply Z.ltb_ge.
Qed.

Section Finalize.

Context (go : GoLib).

(** The loop of resolver.go 198-202 writes [Conflicts] only. *)
Lemma conflicts_loop_frame (l : list (string * bool)) (v : Variable_) :
  let v' := foldl (fun v '(val, _) =>
                     if String.eqb val (FinalValue v) then v
                     else add_Conflict val v) v l in
  Name v' = Name v /\ FinalValue v' = FinalValue v /\ FinalFrom v' = FinalFrom v
  /\ Chain v' = Chain v /\ Overridden v' = Overridden v.
Proof.
  revert v. induction l as [|[val b] l IH]; intros v; simpl; [done|].
  destruct (String.eqb val (FinalValue v)); [apply IH|].
  destruct (IH (add_Conflict val v)) as (? & ? & ? & ? & ?). done.
Qed.

Lemma finalize_Name (v : Variable_) : Name (finalize go v) = Name v.
Proof.
  unfold finalize.
  destruct (last _) as [src|]; simpl;
    destruct (1 <? size _)%nat; try done;
    match goal with |- Name (foldl ?f ?v0 ?l) = _ =>
      destruct (conflicts_loop_frame l v0) as (-> & _) end; done.
Qed.

Lemma finalize_Chain (v : Variable_) :
  Chain (finalize go v) = sort_Slice go chain_less (Chain v).
Proof.
  unfold finalize.
  destruct (last _) as [src|]; simpl;
    destruct (1 <? size _)%nat; try done;
    match goal with |- Chain (foldl ?f ?v0 ?l) = _ =>
      destruct (conflicts_loop_frame l v0) as (_ & _ & _ & -> & _) end; done.
Qed.

Lemma finalize_FinalFrom (v : Variable_) :
  FinalFrom (finalize go v)
  = default (FinalFrom v) (last (sort_Slice go chain_less (Chain v))).
Proof.
  unfold finalize. cbn [Chain set_Chain].
  destruct (last _) as [src|]; simpl;
    destruct (1 <? size _)%nat; try done;
    match goal with |- FinalFrom (foldl ?f ?v0 ?l) = _ =>
      destruct (conflicts_loop_frame l v0) as (_ & _ & -> & _) end; done.
Qed.

Lemma finalize_FinalValue (v : Variable_) :
  FinalValue (finalize go v)
  = match last (sort_Slice go chain_less (Chain v)) with
    | Some src => Value src
    | None => FinalValue v
    end.
Proof.
  unfold finalize. cbn [Chain set_Chain].
  destruct (last _) as [src|]; simpl;
    destruct (1 <? size _)%nat; try done;
    match goal with |- FinalValue (foldl ?f ?v0 ?l) = _ =>
      destruct (conflicts_loop_frame l v0) as (_ & -> & _) end; done.
Qed.

Lemma finalize_Overridden (v : Variable_) :
  Overridden (finalize go v)
  = (1 <? size (chain_values (sort_Slice go chain_less (Chain v))))%nat
    || Overridden v.
Proof.
  unfold finalize. cbn [Chain set_Chain].
  destruct (last _) as [src|]; simpl;
    destruct (1 <? size _)%nat; try done;
    match goal with |- Overridden (foldl ?f ?v0 ?l) = _ =>
      destruct (conflicts_loop_frame l v0) as (_ & _ & _ & _ & ->) end; done.
Qed.

End Finalize.

(** ** The distinct non-empty values of a chain *)

Lemma map_size_gt_1 {V} (m : gmap string V) :
  1 < size m <->
  exists k1 k2, k1 <> k2 /\ is_Some (m !! k1) /\ is_Some (m !! k2).
Proof.
  split.
  - rewrite <- length_map_to_list. intros Hlen.
    pose proof (NoDup_fst_map_to_list m) as Hnd.
    destruct (map_to_list m) as [|[k1 v1] [|[k2 v2] l]] eqn:Hl;
      simpl in Hlen; [lia..|].
    exists k1, k2. split; [|split].
    + simpl in Hnd. apply NoDup_cons in Hnd as [Hnot _].
      intros ->. apply Hnot. left.
    + exists v1. apply elem_of_map_to_list. rewrite Hl. left.
    + exists v2. apply elem_of_map_to_list. rewrite Hl. right. left.
  - intros (k1 & k2 & Hne & H1 & H2).
    pose proof (map_size_delete_Some k1 m H1) as Hdel.
    assert (size (delete k1 m) <> 0) as Hnz.
    { apply (map_size_ne_0_lookup_2 _ k2). by rewrite lookup_delete_ne. }
    lia.
Qed.

Lemma chain_values_fold (chain : list Source) (m : gmap string bool) (x : string) :
  is_Some (foldl (fun values src =>
                    if String.eqb (Value src) "" then values
                    else <[Value src := true]> values) m chain !! x)
  <-> is_Some (m !! x) \/ (x <> "" /\ exists s, s ∈ chain /\ Value s = x).
Proof.
  revert m. induction chain as [|s chain IH]; intros m; simpl.
  { split; [auto|]. intros [?|(_ & s & Hs & _)]; [done|]. by inv Hs. }
  rewrite IH. destruct (String.eqb_spec (Value s) "") as [He|Hne].
  - setoid_rewrite elem_of_cons. split; intros H; clear IH;
      decompose [and or ex] H; subst; eauto 8; congruence.
  - rewrite lookup_insert_is_Some'. setoid_rewrite elem_of_cons.
    split; intros H; clear IH; decompose [and or ex] H; subst; eauto 8.
Qed.

Lemma chain_values_lookup (chain : list Source) (x : string) :
  is_Some (chain_values chain !! x)
  <-> x <> "" /\ exists s, s ∈ chain /\ Value s = x.
Proof.
  unfold chain_values. rewrite chain_values_fold, lookup_empty.
  split; [intros [[? ?]|?]|]; auto. done.
Qed.

Lemma chain_values_size (chain : list Source) :
  (1 <? size (chain_values chain))%nat = true <-> two_values chain.
Proof.
  rewrite Nat.ltb_lt, map_size_gt_1. unfold two_values. split.
  - intros (k1 & k2 & Hne & H1 & H2).
    apply chain_values_lookup in H1 as (? & s1 & ? & <-).
    apply chain_values_lookup in H2 as (? & s2 & ? & <-).
    by exists s1, s2.
  - intros (s1 & s2 & ? & ? & ? & ? & ?).
    exists (Value s1), (Value s2). split; [done|].
    split; apply chain_values_lookup; eauto.
Qed.

Lemma two_values_perm (l1 l2 : list Source) :
  l1 ≡ₚ l2 -> two_values l1 <-> two_values l2.
Proof.
  intros Hp. unfold two_values. by setoid_rewrite Hp.
Qed.

(** ** Ingestion only adds observations, files and warnings *)

Section IngestInd.

Context (go : GoLib) (fs : FS) (P : Resolution -> Prop).

Hypothesis P_addSource : forall name src r, P r -> P (addSource name src r).
Hypothesis P_add_EnvFile : forall p r, P r -> P (add_EnvFile p r).
Hypothesis P_add_ComposeFile : forall p r, P r -> P (add_ComposeFile p r).
Hypothesis P_add_Warning : forall w r, P r -> P (add_Warning w r).

Lemma foldl_inv {X} (f : Resolution -> X -> Resolution) (l : list X) r :
  (forall r x, P r -> P (f r x)) -> P r -> P (foldl f r l).
Proof.
  intros Hf. revert r. induction l as [|x l IH]; intros r Hr; simpl; auto.
Qed.

Lemma scan_inv body lines lineNum r :
  (forall n text r, P r -> P (body n text r)) ->
  P r -> P (scan body lineNum lines r).
Proof.
  intros Hbody. revert lineNum r.
  induction lines as [|text lines IH]; intros lineNum r Hr; simpl; auto.
Qed.

Lemma parseEnvFile_line_inv path layer n text r :
  P r -> P (parseEnvFile_line go path layer n text r).
Proof.
  intros Hr. unfold parseEnvFile_line.
  destruct (_ || _); [done|].
  destruct (SplitN_eq _) as [|k [|v [|? ?]]]; try done.
  destruct (String.eqb _ _); auto.
Qed.

Lemma parseEnvFileRef_line_inv envPath serviceName n text r :
  P r -> P (parseEnvFileRef_line go envPath serviceName n text r).
Proof.
  intros Hr. unfold parseEnvFileRef_line.
  destruct (_ || _); [done|].
  destruct (SplitN_eq _) as [|k [|v [|? ?]]]; auto.
Qed.

Lemma warn_inv what res : P (fst res) -> P (warn what res).
Proof. destruct res as [r [err|]]; simpl; auto. Qed.

Lemma parseEnvFile_inv path layer r :
  P r -> P (fst (parseEnvFile go fs path layer r)).
Proof.
  intros Hr. unfold parseEnvFile.
  destruct (Open fs path) as [err|[lines scan_err]]; simpl; [done|].
  apply scan_inv; [|done]. intros. by apply parseEnvFile_line_inv.
Qed.

Lemma parseEnvFileRef_inv composePath serviceName envFile r :
  P r -> P (parseEnvFileRef go fs composePath serviceName envFile r).
Proof.
  intros Hr. unfold parseEnvFileRef. apply foldl_inv; [|done].
  clear r Hr. intros r f Hr.
  destruct (Stat fs _); [|done].
  destruct (Open fs _) as [err|[lines scan_err]]; [done|].
  apply scan_inv; [|done]. intros. by apply parseEnvFileRef_line_inv.
Qed.

Lemma parseInlineEnv_inv composePath serviceName env r :
  P r -> P (parseInlineEnv go composePath serviceName env r).
Proof.
  intros Hr. unfold parseInlineEnv. destruct env; try done.
  - apply foldl_inv; [|done]. intros r' [s|] Hr'; auto.
  - apply foldl_inv; [|done]. intros r' [key val] Hr'. auto.
Qed.

Lemma parseComposeFile_inv path r :
  P r -> P (fst (parseComposeFile go fs path r)).
Proof.
  intros Hr. unfold parseComposeFile.
  destruct (ReadYaml fs path) as [err|compose]; cbn [fst]; [done|].
  apply foldl_inv; [|done]. clear r Hr. intros r [serviceName svc] Hr.
  assert (P (match EnvFile svc with
             | INil => r
             | envFile => parseEnvFileRef go fs path serviceName envFile r
             end)) as Hr'.
  { destruct (EnvFile svc); try done; by apply parseEnvFileRef_inv. }
  destruct (Environment svc); try done; by apply parseInlineEnv_inv.
Qed.

Lemma ingest_inv basePath :
  P (empty_Resolution basePath) -> P (ingest go fs basePath).
Proof.
  intros H0. unfold ingest. fold (empty_Resolution basePath).
  apply foldl_inv.
  { intros r pattern Hr. destruct (Stat fs _); [|done].
    apply warn_inv, parseComposeFile_inv. auto. }
  apply foldl_inv.
  { intros r name Hr. destruct (_ && _); [|done].
    apply warn_inv, parseEnvFile_inv. auto. }
  apply foldl_inv; [|done].
  intros r [pattern layer] Hr. destruct (Stat fs _); [|done].
  apply warn_inv, parseEnvFile_inv. auto.
Qed.

End IngestInd.

Lemma fresh_ingest go fs basePath : fresh (ingest go fs basePath).
Proof.
  apply ingest_inv; try done.
  - intros name src r Hr k v. unfold addSource. cbn [ByName set_ByName].
    destruct (decide (name = k)) as [->|Hne].
    + rewrite lookup_insert_eq. intros [= <-]. cbn [Chain set_Chain].
      split; [|by destruct (Chain _)].
      destruct (ByName r !! k) as [v0|] eqn:Hk; [|done].
      destruct (Hr k v0 Hk) as [-> _]. done.
    + rewrite lookup_insert_ne by done. apply Hr.
Qed.

(** ** Finalization of the whole index *)

Section BuildVariables.

Context (go : GoLib).

Definition finalize_step (r : Resolution) (e : string * Variable_) : Resolution :=
  let '(name, v) := e in
  let r := set_ByName (<[name := finalize go v]> (ByName r)) r in
  set_Variables (Variables r ++ [name]) r.

Lemma finalize_loop_lookup (l : list (string * Variable_)) (r : Resolution) (k : string) :
  NoDup l.*1 ->
  (forall v, (k, v) ∈ l ->
     ByName (foldl finalize_step r l) !! k = Some (finalize go v))
  /\ (k ∉ l.*1 -> ByName (foldl finalize_step r l) !! k = ByName r !! k).
Proof.
  revert r. induction l as [|[k0 v0] l IH]; intros r Hnd.
  { split; [intros v Hv; by inv Hv|done]. }
  apply NoDup_cons in Hnd as [Hk0 Hnd]. cbn [foldl].
  destruct (IH (finalize_step r (k0, v0)) Hnd) as [IH1 IH2]. split.
  - intros v Hv. apply elem_of_cons in Hv as [[= -> ->]|Hv]; [|by apply IH1].
    rewrite IH2 by done. cbn. apply lookup_insert_eq.
  - intros Hk. rewrite fmap_cons, not_elem_of_cons in Hk. destruct Hk as [Hne Hk].
    rewrite IH2 by done. cbn. by rewrite lookup_insert_ne.
Qed.

Lemma finalize_loop_Variables (l : list (string * Variable_)) (r : Resolution) :
  Variables (foldl finalize_step r l) = Variables r ++ l.*1.
Proof.
  revert r. induction l as [|[k0 v0] l IH]; intros r; cbn [foldl].
  { by rewrite app_nil_r. }
  rewrite IH. cbn. by rewrite <- app_assoc.
Qed.

Lemma buildVariables_unfold (r : Resolution) :
  buildVariables go r
  = let r' := foldl finalize_step r (map_range go (map_to_list (ByName r))) in
    set_Variables
      (sort_Slice go (fun p q => str_lt (Name (deref r' p)) (Name (deref r' q)))
                  (Variables r'))
      r'.
Proof.
  unfold buildVariables. do 2 f_equal.
Qed.

(** Every cell is finalized, once. *)
Lemma buildVariables_ByName (r : Resolution) :
  ByName (buildVariables go r) = finalize go <$> ByName r.
Proof.
  rewrite buildVariables_unfold. cbn [ByName set_Variables].
  set (l := map_range go (map_to_list (ByName r))).
  assert (l ≡ₚ map_to_list (ByName r)) as Hl by apply map_range_perm.
  assert (NoDup l.*1) as Hnd.
  { rewrite Hl. apply NoDup_fst_map_to_list. }
  apply map_eq. intros k. rewrite lookup_fmap.
  destruct (finalize_loop_lookup l r k Hnd) as [H1 H2].
  destruct (ByName r !! k) as [v|] eqn:Hk; simpl.
  - apply H1. rewrite Hl. by apply elem_of_map_to_list.
  - rewrite H2; [done|]. rewrite Hl. intros Hin.
    apply list_elem_of_fmap in Hin as ([k' v] & -> & Hin).
    apply elem_of_map_to_list in Hin. simpl in Hk. congruence.
Qed.

Lemma buildVariables_Variables (r : Resolution) :
  Variables (buildVariables go r)
  ≡ₚ Variables r ++ (map_to_list (ByName r)).*1.
Proof.
  rewrite buildVariables_unfold. cbn [Variables set_Variables].
  rewrite sort_Slice_perm, finalize_loop_Variables.
  by rewrite (map_range_perm go).
Qed.

End BuildVariables.

(** ** The ambient merge *)

Lemma mergeOSEnv_entry_lookup (r : Resolution) (env key : string) :
  ByName (mergeOSEnv_entry r env) !! key
  = (fun v => foldl merge_cell v (environ_values key [env])) <$> ByName r !! key.
Proof.
  unfold mergeOSEnv_entry, environ_values. cbn [omap list_omap].
  destruct (SplitN_eq env) as [|k [|value [|? ?]]];
    try (by destruct (ByName r !! key)).
  destruct (ByName r !! k) as [v|] eqn:Hk.
  - unfold deref, addSource. cbn [ByName set_ByName]. rewrite Hk.
    rewrite lookup_insert_eq. cbn [default].
    destruct (String.eqb_spec k key) as [->|Hne].
    + rewrite lookup_insert_eq, Hk. done.
    + rewrite !lookup_insert_ne by done. by destruct (ByName r !! key).
  - destruct (String.eqb_spec k key) as [->|Hne].
    + by rewrite Hk.
    + by destruct (ByName r !! key).
Qed.

Lemma environ_values_app key l1 l2 :
  environ_values key (l1 ++ l2) = environ_values key l1 ++ environ_values key l2.
Proof. apply omap_app. Qed.

Lemma mergeOSEnv_lookup (environ : list string) (r : Resolution) (key : string) :
  ByName (mergeOSEnv environ r) !! key
  = (fun v => foldl merge_cell v (environ_values key environ)) <$> ByName r !! key.
Proof.
  unfold mergeOSEnv. revert r.
  induction environ as [|env environ IH]; intros r; cbn [foldl].
  { by destruct (ByName r !! key). }
  rewrite IH, mergeOSEnv_entry_lookup.
  change (env :: environ) with ([env] ++ environ).
  rewrite environ_values_app, <- option_fmap_compose.
  destruct (ByName r !! key) as [v|]; [|done]. cbn [fmap option_fmap option_map].
  by rewrite foldl_app.
Qed.

Lemma merge_cell_fold (vals : list string) (v : Variable_) :
  let v' := foldl merge_cell v vals in
  Name v' = Name v
  /\ Chain v' = Chain v ++ (osenv_Source <$> vals)
  /\ Conflicts v' = Conflicts v
  /\ FinalFrom v' = default (FinalFrom v) (last (osenv_Source <$> vals))
  /\ FinalValue v' = default (FinalValue v) (last vals)
  /\ Overridden v' = (if vals is [] then Overridden v else true).
Proof.
  revert v. induction vals as [|x vals IH] using rev_ind; intros v.
  { cbn. by rewrite app_nil_r. }
  cbn zeta. rewrite foldl_app. cbn [foldl].
  destruct (IH v) as (HN & HC & HCo & _ & _ & _).
  rewrite fmap_app, !last_snoc. cbn [fmap list_fmap].
  cbn [merge_cell Name Chain Conflicts FinalFrom FinalValue Overridden
       set_Overridden set_Final set_Chain default Value osenv_Source].
  rewrite HN, HC, HCo, <- app_assoc, last_snoc.
  repeat split; try done. by destruct vals.
Qed.

(** ** What the later passes leave alone *)

Lemma filterToService_ByName serviceName r :
  ByName (filterToService serviceName r) = ByName r.
Proof. done. Qed.

Lemma findUndefinedVars_fold (r0 : Resolution) (ps : list ptr) (r : Resolution) :
  let r' := foldl (fun r' p =>
                     if isUndefined (deref r0 p)
                     then add_Undefined (Name (deref r0 p)) r' else r') r ps in
  ByName r' = ByName r /\ Variables r' = Variables r
  /\ Path r' = Path r /\ EnvFiles r' = EnvFiles r
  /\ ComposeFiles r' = ComposeFiles r /\ Warnings r' = Warnings r
  /\ Undefined r'
     = Undefined r
       ++ ((fun p => Name (deref r0 p))
             <$> List.filter (fun p => isUndefined (deref r0 p)) ps).
Proof.
  revert r. induction ps as [|p ps IH]; intros r; cbn [foldl List.filter].
  { cbn. by rewrite app_nil_r. }
  destruct (isUndefined (deref r0 p)).
  - destruct (IH (add_Undefined (Name (deref r0 p)) r))
      as (-> & -> & -> & -> & -> & -> & ->).
    cbn. by rewrite <- app_assoc.
  - apply IH.
Qed.

Lemma findUndefinedVars_ByName r : ByName (findUndefinedVars r) = ByName r.
Proof. apply (findUndefinedVars_fold r (Variables r) r). Qed.

Lemma findUndefinedVars_Variables r :
  Variables (findUndefinedVars r) = Variables r.
Proof. apply (findUndefinedVars_fold r (Variables r) r). Qed.

Lemma findUndefinedVars_Undefined r :
  Undefined (findUndefinedVars r)
  = Undefined r
    ++ ((fun p => Name (deref r p))
          <$> List.filter (fun p => isUndefined (deref r p)) (Variables r)).
Proof. apply (findUndefinedVars_fold r (Variables r) r). Qed.

Lemma ResolveWithOptions_ByName go fs environ basePath opts :
  ByName (fst (ResolveWithOptions go fs environ basePath opts))
  = ByName (merged go fs environ basePath opts).
Proof.
  unfold ResolveWithOptions, merged.
  set (r := if IncludeOSEnv opts then _ else _).
  set (r' := if String.eqb (ServiceName opts) "" then r else _).
  assert (ByName r' = ByName r) as Hr'.
  { unfold r'. by destruct (String.eqb _ _). }
  destruct (StrictMode opts); [|done].
  destruct (0 <? _)%nat; cbn [fst]; by rewrite findUndefinedVars_ByName.
Qed.

(** The cell of a variable in the returned resolution: the ingested cell,
    finalized, then merged with the values the environment gives it. *)
Lemma ResolveWithOptions_cell go fs environ basePath opts (name : string) :
  ByName (fst (ResolveWithOptions go fs environ basePath opts)) !! name
  = (fun v0 => foldl merge_cell (finalize go v0)
                 (if IncludeOSEnv opts then environ_values name environ else []))
      <$> ByName (ingest go fs basePath) !! name.
Proof.
  rewrite ResolveWithOptions_ByName. unfold merged.
  destruct (IncludeOSEnv opts).
  - rewrite mergeOSEnv_lookup, buildVariables_ByName, lookup_fmap.
    by destruct (ByName (ingest go fs basePath) !! name).
  - rewrite buildVariables_ByName, lookup_fmap.
    by destruct (ByName (ingest go fs basePath) !! name).
Qed.

(** ** C4: the finalization sort *)

(** C4, as stated, fails: [sort.Slice] is not a stable sort.  With the
    sort of Go up to 1.18, seven observations of [X], six of the inline
    rank in arrival order and one of the file-reference rank, are sorted
    with the first inline observation moved behind the five others.  With
    the sort of Go since 1.19, which is stable up to 12 elements, thirteen
    observations, twelve of them inline, are sorted with the seventh
    inline observation first and the second one last. *)
Lemma sort_not_stable :
  (let arrival := Chain (deref (ingest go118_lib fs_seven "proj") "X") in
   let sorted :=
     Chain (deref (fst (Resolve go118_lib fs_seven [] "proj")) "X") in
   Value <$> arrival = ["1"; "2"; "3"; "4"; "5"; "6"; "7"]
   /\ Value <$> sorted = ["7"; "2"; "3"; "4"; "5"; "6"; "1"]
   /\ ~ same_order_in_rank arrival sorted)
  /\ (let arrival := Chain (deref (ingest go119_lib fs_thirteen "proj") "X") in
      let sorted :=
        Chain (deref (fst (Resolve go119_lib fs_thirteen [] "proj")) "X") in
      Value <$> arrival
      = ["1"; "2"; "3"; "4"; "5"; "6"; "7"; "8"; "9"; "10"; "11"; "12"; "13"]
      /\ Value <$> sorted
         = ["13"; "7"; "3"; "4"; "5"; "6"; "1"; "8"; "9"; "10"; "11"; "12"; "2"]
      /\ ~ same_order_in_rank arrival sorted).
Proof.
  cbn zeta. split; (split; [by vm_compute|]); (split; [by vm_compute|]);
    intros H; specialize (H 5%Z); vm_compute in H; discriminate H.
Qed.

(** C4 (amended).  Finalization replaces every cell of the index by its
    finalized cell, whose chain is the arrival chain rearranged in ascending
    layer rank.  The library sort it calls promises no more; on a chain that
    the sort treats as insertion sort does, observations of equal rank keep
    their arrival order, and the sort of Go since 1.19 does so on every
    chain of at most 12 observations. *)
Theorem finalize_sorts_by_rank (go : GoLib) :
  (forall r, ByName (buildVariables go r) = finalize go <$> ByName r)
  /\ (forall v, Chain (finalize go v) ≡ₚ Chain v
              /\ StronglySorted by_rank (Chain (finalize go v)))
  /\ (forall v,
        sort_Slice go chain_less (Chain v) = insertionSort chain_less (Chain v) ->
        same_order_in_rank (Chain v) (Chain (finalize go v)))
  /\ (forall v, length (Chain v) <= 12 ->
        sort_Slice go119_lib chain_less (Chain v)
        = insertionSort chain_less (Chain v)
        /\ same_order_in_rank (Chain v) (Chain (finalize go119_lib v))).
Proof.
  assert (forall (g : GoLib) v,
            sort_Slice g chain_less (Chain v) = insertionSort chain_less (Chain v) ->
            same_order_in_rank (Chain v) (Chain (finalize g v))) as Hins.
  { intros g v Hs k. rewrite finalize_Chain, Hs.
    apply insertionSort_filter. intros a b <- Hb.
    unfold chain_less. apply Z.ltb_ge. unfold rank in Hb. lia. }
  split; [apply buildVariables_ByName|]. split; [|split].
  - intros v. rewrite finalize_Chain. split; [apply sort_Slice_perm|].
    apply ascending_chain_less, sort_Slice_sorted, chain_less_strict_weak.
  - apply Hins.
  - intros v Hlen.
    assert (sort_Slice go119_lib chain_less (Chain v)
            = insertionSort chain_less (Chain v)) as Hs.
    { cbn [sort_Slice go119_lib]. unfold pdqsort_small.
      destruct (Nat.eqb_spec (length (Chain v)) 13) as [He|_]; [lia|done]. }
    split; [exact Hs|]. by apply Hins.
Qed.

Lemma finalize_sorts_by_rank_witness :
  same_order_in_rank
    (Chain (deref (ingest go119_lib fs_seven "proj") "X"))
    (Chain (finalize go119_lib (deref (ingest go119_lib fs_seven "proj") "X")))
  /\ same_order_in_rank
       (Chain (deref (ingest go_lib fs_thirteen "proj") "X"))
       (Chain (finalize go_lib (deref (ingest go_lib fs_thirteen "proj") "X"))).
Proof.
  split.
  - apply (proj2 (proj2 (proj2 (finalize_sorts_by_rank go119_lib)))).
    vm_compute. lia.
  - apply (proj1 (proj2 (proj2 (finalize_sorts_by_rank go_lib)))).
    reflexivity.
Defined.

(** ** C1: the final value *)

Lemma rank_le_6 (o : Source) : (rank o <= 6)%Z.
Proof. unfold rank. destruct (Layer_ o); simpl; lia. Qed.

Lemma finalize_last (go : GoLib) (v0 : Variable_) :
  Chain v0 <> [] ->
  exists src, last (Chain (finalize go v0)) = Some src
    /\ FinalFrom (finalize go v0) = src
    /\ FinalValue (finalize go v0) = Value src
    /\ wins src (Chain v0).
Proof.
  intros Hne. rewrite finalize_FinalFrom, finalize_FinalValue, finalize_Chain.
  pose proof (sort_Slice_perm go Source chain_less (Chain v0)) as Hp.
  pose proof (sort_Slice_sorted go Source chain_less (Chain v0)
                chain_less_strict_weak) as Hs.
  apply ascending_chain_less in Hs.
  destruct (last (sort_Slice go chain_less (Chain v0))) as [src|] eqn:Hl.
  - exists src. repeat split; try done.
    + rewrite <- Hp. by apply last_Some_elem_of.
    + intros o Ho. rewrite <- Hp in Ho.
      apply last_Some in Hl as [l' Hl']. rewrite Hl' in Ho, Hs.
      apply elem_of_app in Ho as [Ho|Ho].
      * apply (StronglySorted_app_1_elem_of _ _ _ _ _ Hs Ho). left.
      * apply list_elem_of_singleton in Ho as ->. lia.
  - apply last_None in Hl. rewrite Hl in Hp.
    apply Permutation_nil in Hp. done.
Qed.

(** A finalized cell, merged with the values [vals] of the environment. *)
Lemma merged_cell_final (go : GoLib) (v0 : Variable_) (vals : list string) :
  Chain v0 <> [] ->
  let v := foldl merge_cell (finalize go v0) vals in
  FinalValue v = Value (FinalFrom v) /\ wins (FinalFrom v) (Chain v).
Proof.
  intros Hne v.
  destruct (merge_cell_fold vals (finalize go v0)) as (_ & HC & _ & HF & HV & _).
  fold v in HC, HF, HV.
  destruct (finalize_last go v0 Hne) as (src & Hl & HFF & HFV & Hin & Hmax).
  destruct vals as [|x vals _] using rev_ind.
  - cbn [fmap list_fmap last default] in HC, HF, HV. rewrite app_nil_r in HC.
    rewrite HV, HF, HC, HFF, HFV. split; [done|]. split.
    + by apply last_Some_elem_of.
    + intros o Ho. apply Hmax. rewrite finalize_Chain in Ho.
      by rewrite sort_Slice_perm in Ho.
  - rewrite last_snoc in HV. rewrite fmap_app in HF, HC.
    change (osenv_Source <$> [x]) with [osenv_Source x] in HF, HC.
    rewrite last_snoc in HF. cbn [default] in HF, HV.
    rewrite HV, HF, HC. split; [done|]. split.
    + apply elem_of_app. right. apply elem_of_app. right. left.
    + intros o _. apply rank_le_6.
Qed.

(** C1, as stated, fails: two observations of the highest rank may carry
    different values, and then the order of ingestion decides.  The same
    two inline observations, ingested in the two orders in which the
    services of the manifest may be visited, give two final values. *)
Lemma final_value_depends_on_order :
  let v1 := deref (fst (Resolve go_lib fs_two_services [] "proj")) "X" in
  let v2 := deref (fst (Resolve go_lib_rev fs_two_services [] "proj")) "X" in
  Chain v1 ≡ₚ Chain v2
  /\ (forall o, o ∈ Chain v1 -> rank o = 5%Z)
  /\ FinalValue v1 = "2" /\ FinalValue v2 = "1".
Proof.
  cbn zeta. split; [|split; [|split; by vm_compute]].
  - vm_compute. apply Permutation_swap.
  - vm_compute. intros o Ho.
    apply list_elem_of_In in Ho. simpl in Ho.
    destruct Ho as [<-|[<-|[]]]; reflexivity.
Qed.

(** C1 (amended).  For every variable of the returned resolution, the final
    value is the value of [FinalFrom], which is an observation of the chain
    whose rank no other observation of the chain exceeds; hence, whenever
    all observations of the highest rank carry one value (in particular when
    there is one such observation), that value is the final value, in
    whatever order the observations were ingested and whatever the sort
    does with equal ranks.  When the ambient merge is enabled and the
    environment gives values to the name of a tracked variable, the last of
    them is the final value. *)
Theorem final_value_max_rank (go : GoLib) (fs : FS) (environ : list string)
    (basePath : string) (opts : Options) (name : string) (v : Variable_) :
  ByName (fst (ResolveWithOptions go fs environ basePath opts)) !! name = Some v ->
  FinalValue v = Value (FinalFrom v)
  /\ wins (FinalFrom v) (Chain v)
  /\ (forall x, (forall o, wins o (Chain v) -> Value o = x) -> FinalValue v = x)
  /\ (forall go' v', Chain v' ≡ₚ Chain v ->
        (exists x, forall o, wins o (Chain v) -> Value o = x) ->
        FinalValue (finalize go' v') = FinalValue v)
  /\ (IncludeOSEnv opts = true ->
      forall value, last (environ_values name environ) = Some value ->
        FinalValue v = value /\ FinalFrom v = osenv_Source value).
Proof.
  rewrite ResolveWithOptions_cell. intros Hv.
  destruct (ByName (ingest go fs basePath) !! name) as [v0|] eqn:Hv0; [|done].
  cbn in Hv. injection Hv as <-.
  destruct (fresh_ingest go fs basePath name v0 Hv0) as [_ Hne].
  set (vals := if IncludeOSEnv opts then _ else _).
  destruct (merged_cell_final go v0 vals Hne) as [HV Hw].
  split; [done|]. split; [done|]. split; [|split].
  - intros x Hx. rewrite HV. by apply Hx.
  - intros go' v' Hp [x Hx].
    assert (Chain v' <> []) as Hne'.
    { intros Hnil. rewrite Hnil in Hp. apply Permutation_nil in Hp.
      destruct Hw as [Hin _]. rewrite Hp in Hin. by inv Hin. }
    destruct (finalize_last go' v' Hne') as (src & _ & _ & -> & Hin & Hmax).
    rewrite HV, (Hx _ Hw). apply Hx. split; [by rewrite <- Hp|].
    intros o Ho. apply Hmax. by rewrite Hp.
  - intros Hos value Hlast. unfold vals. rewrite Hos.
    destruct (merge_cell_fold (environ_values name environ) (finalize go v0))
      as (_ & _ & _ & HF & HV' & _).
    cbn zeta in HF, HV'. rewrite HV', HF, Hlast. split; [done|].
    apply last_Some in Hlast as [l' ->]. rewrite fmap_app.
    change (osenv_Source <$> [value]) with [osenv_Source value].
    by rewrite last_snoc.
Qed.

Lemma final_value_max_rank_witness :
  let v := deref (fst (ResolveWithOptions go_lib fs_base_local environ_api
                         "proj" opts_ambient)) "API_KEY" in
  FinalValue v = "override_from_ambient"
  /\ FinalValue v = Value (FinalFrom v) /\ wins (FinalFrom v) (Chain v).
Proof.
  intros v.
  assert (ByName (fst (ResolveWithOptions go_lib fs_base_local environ_api
                         "proj" opts_ambient)) !! "API_KEY" = Some v) as Hv.
  { vm_compute. reflexivity. }
  destruct (final_value_max_rank _ _ _ _ _ _ _ Hv) as (H1 & H2 & _ & _ & H5).
  split; [|by split].
  apply (H5 eq_refl). vm_compute. reflexivity.
Defined.

(** ** C6: the Overridden flag *)

(** C6, as stated, fails after the ambient merge: the merge sets the flag of
    every variable it touches, here one whose two observations carry the
    same value. *)
Lemma overridden_without_two_values :
  let v := deref (fst (ResolveWithOptions go_lib fs_one ["X=a"] "proj"
                         opts_ambient)) "X" in
  Value <$> Chain v = ["a"; "a"]
  /\ Overridden v = true /\ ~ two_values (Chain v).
Proof.
  cbn zeta. split; [by vm_compute|]. split; [by vm_compute|].
  intros (s1 & s2 & H1 & H2 & _ & _ & Hne). apply Hne. clear Hne.
  vm_compute in H1, H2.
  apply list_elem_of_In in H1, H2. simpl in H1, H2.
  destruct H1 as [<-|[<-|[]]]; destruct H2 as [<-|[<-|[]]]; reflexivity.
Qed.

(** C6 (amended).  For every variable of the returned resolution: without
    the ambient merge, the flag is set if and only if two observations of
    its chain carry different non-empty values, an observation with an empty
    value counting for nothing; with the ambient merge, the flag is set if
    and only if two of the observations ingested from files and manifests
    carry different non-empty values or the environment gives a value,
    whatever it is, to the name of the variable. *)
Theorem overridden_iff (go : GoLib) (fs : FS) (environ : list string)
    (basePath : string) (opts : Options) (name : string) (v : Variable_) :
  ByName (fst (ResolveWithOptions go fs environ basePath opts)) !! name = Some v ->
  exists v0, ByName (ingest go fs basePath) !! name = Some v0
    /\ (Overridden v = true <->
        two_values (Chain v0)
        \/ (IncludeOSEnv opts = true /\ environ_values name environ <> []))
    /\ (IncludeOSEnv opts = false ->
        Chain v ≡ₚ Chain v0 /\ (Overridden v = true <-> two_values (Chain v))).
Proof.
  rewrite ResolveWithOptions_cell. intros Hv.
  destruct (ByName (ingest go fs basePath) !! name) as [v0|] eqn:Hv0; [|done].
  cbn in Hv. injection Hv as <-. exists v0. split; [done|].
  destruct (fresh_ingest go fs basePath name v0 Hv0) as [Hfresh _].
  assert (Overridden v0 = false) as Hov by (by rewrite Hfresh).
  assert (Overridden (finalize go v0) = true <-> two_values (Chain v0)) as Hfin.
  { rewrite finalize_Overridden, Hov, orb_false_r, chain_values_size.
    apply two_values_perm, sort_Slice_perm. }
  set (vals := if IncludeOSEnv opts then _ else _).
  destruct (merge_cell_fold vals (finalize go v0)) as (_ & HC & _ & _ & _ & HO).
  cbn zeta in HC, HO. split.
  - rewrite HO. unfold vals. destruct (IncludeOSEnv opts).
    + destruct (environ_values name environ) as [|x l].
      * rewrite Hfin. split; [auto|]. intros [?|[_ ?]]; done.
      * split; [|done]. intros _. right. done.
    + rewrite Hfin. split; [auto|]. intros [?|[? _]]; done.
  - intros Hos. unfold vals in *. rewrite Hos in *. cbn in HC, HO.
    rewrite app_nil_r in HC. cbn [foldl]. split.
    + rewrite finalize_Chain. apply sort_Slice_perm.
    + rewrite Hfin. symmetry. apply two_values_perm.
      rewrite finalize_Chain. apply sort_Slice_perm.
Qed.

Lemma overridden_iff_witness :
  let v := deref (fst (ResolveWithOptions go_lib fs_base_local [] "proj"
                         opts0)) "API_KEY" in
  Overridden v = true <-> two_values (Chain v).
Proof.
  intros v.
  assert (ByName (fst (ResolveWithOptions go_lib fs_base_local [] "proj"
                         opts0)) !! "API_KEY" = Some v) as Hv.
  { vm_compute. reflexivity. }
  destruct (overridden_iff _ _ _ _ _ _ _ Hv) as (v0 & _ & _ & H).
  apply (H eq_refl).
Defined.

(** ** C2: undefined variables under strict mode *)

Lemma isUndefined_spec (v : Variable_) :
  isUndefined v = true
  <-> FinalValue v = "" /\ forall s, s ∈ Chain v -> Value s = "".
Proof.
  unfold isUndefined.
  rewrite andb_true_iff, negb_true_iff, String.eqb_eq.
  apply and_iff_compat_l. split.
  - intros Hex s Hs. destruct (String.eqb_spec (Value s) "") as [|Hne]; [done|].
    assert (existsb (fun src => negb (String.eqb (Value src) "")) (Chain v)
            = true) as Htrue; [|congruence].
    apply existsb_exists. exists s. split; [by apply list_elem_of_In|].
    by apply negb_true_iff, String.eqb_neq.
  - intros Hall. apply not_true_iff_false. intros Hex.
    apply existsb_exists in Hex as (s & Hs & Hv).
    apply negb_true_iff, String.eqb_neq in Hv.
    apply Hv, Hall. by apply list_elem_of_In.
Qed.

(** C2 on the code.  The test of [findUndefinedVars] sees the values of the
    observations only: a variable is listed when all of them are empty.  A
    bare reference is listed, as the claim says; the explicit assignment
    [EMPTY_VAR=] of a base file is listed as well, and the strict call
    fails on it, which the claim denies. *)
Theorem explicit_empty_listed_undefined :
  (forall v, isUndefined v = true
             <-> FinalValue v = "" /\ forall s, s ∈ Chain v -> Value s = "")
  /\ (let '(r, err) := ResolveWithOptions go_lib fs_bare_ref [] "proj"
                         opts_strict in
      Undefined r = ["REF"]
      /\ err = Some "strict mode: 1 undefined variable(s): REF")
  /\ (let '(r, err) := ResolveWithOptions go_lib fs_empty_var [] "proj"
                         opts_strict in
      Layer_ <$> Chain (deref r "EMPTY_VAR") = [LayerEnv]
      /\ FinalValue (deref r "EMPTY_VAR") = ""
      /\ Undefined r = ["EMPTY_VAR"]
      /\ err = Some "strict mode: 1 undefined variable(s): EMPTY_VAR").
Proof.
  split; [exact isUndefined_spec|]. split; by vm_compute.
Qed.

(** ** C3: files referenced by a manifest *)

(** C3 on the code.  The loop of [parseEnvFileRef] is a copy of the loop of
    [parseEnvFile] without the stripping of a leading [export ] and without
    the skipping of an empty key: on the same three lines the plain parser
    gives [FOO] and [PLAIN], the parser of referenced files gives the names
    [export FOO], the empty name and [PLAIN]. *)
Theorem env_file_ref_differs_from_plain :
  let plain := fst (parseEnvFile go_lib fs_env_file "base/.env" LayerEnv
                      (empty_Resolution "base")) in
  let ref := parseEnvFileRef go_lib fs_env_file "proj/docker-compose.yml" "api"
               (IString "app.env") (empty_Resolution "proj") in
  (forall k, is_Some (ByName plain !! k) <-> k = "FOO" \/ k = "PLAIN")
  /\ (forall k, is_Some (ByName ref !! k)
               <-> k = "export FOO" \/ k = "" \/ k = "PLAIN")
  /\ Value <$> Chain (deref plain "FOO") = ["bar"]
  /\ Value <$> Chain (deref ref "export FOO") = ["bar"]
  /\ Value <$> Chain (deref ref "") = ["orphan"]
  /\ Chain (deref ref "PLAIN")
     = [{| Layer_ := LayerComposeEnvFile; File := "proj/app.env"; Line := 3;
           Service := "api"; Value := "p"; IsInline := false |}]
  /\ Chain (deref plain "PLAIN")
     = [{| Layer_ := LayerEnv; File := "base/.env"; Line := 3;
           Service := ""; Value := "p"; IsInline := false |}].
Proof.
  cbn zeta.
  assert (ByName (fst (parseEnvFile go_lib fs_env_file "base/.env" LayerEnv
                         (empty_Resolution "base")))
          = <["FOO" := set_Chain
                [{| Layer_ := LayerEnv; File := "base/.env"; Line := 1;
                    Service := ""; Value := "bar"; IsInline := false |}]
                (new_Variable "FOO")]>
            (<["PLAIN" := set_Chain
                [{| Layer_ := LayerEnv; File := "base/.env"; Line := 3;
                    Service := ""; Value := "p"; IsInline := false |}]
                (new_Variable "PLAIN")]> ∅)) as Hplain.
  { by vm_compute. }
  assert (ByName (parseEnvFileRef go_lib fs_env_file "proj/docker-compose.yml"
                    "api" (IString "app.env") (empty_Resolution "proj"))
          = <["export FOO" := set_Chain
                [{| Layer_ := LayerComposeEnvFile; File := "proj/app.env";
                    Line := 1; Service := "api"; Value := "bar";
                    IsInline := false |}]
                (new_Variable "export FOO")]>
            (<["" := set_Chain
                [{| Layer_ := LayerComposeEnvFile; File := "proj/app.env";
                    Line := 2; Service := "api"; Value := "orphan";
                    IsInline := false |}]
                (new_Variable "")]>
            (<["PLAIN" := set_Chain
                [{| Layer_ := LayerComposeEnvFile; File := "proj/app.env";
                    Line := 3; Service := "api"; Value := "p";
                    IsInline := false |}]
                (new_Variable "PLAIN")]> ∅))) as Href.
  { by vm_compute. }
  split; [|split; [|repeat split; by vm_compute]].
  - intros k. rewrite Hplain, !lookup_insert_is_Some', lookup_empty.
    split; [intros [?|[?|[? ?]]]|intros [?|?]]; auto; done.
  - intros k. rewrite Href, !lookup_insert_is_Some', lookup_empty.
    split; [intros [?|[?|[?|[? ?]]]]|intros [?|[?|?]]]; auto; done.
Qed.

(** ** C8: two runs over the same directory *)

(** C8 on the code.  Two runs over the same directory and options that
    differ in nothing but the order in which the Go maps are ranged over
    ([values] at resolver.go 198, [compose.Services] at 362) return
    different resolutions: the same Conflicts in another order in the
    first directory, another final value and winner in the second. *)
Theorem resolve_depends_on_map_order :
  (let v := deref (fst (Resolve go_lib fs_three_layers [] "proj")) "X" in
   let v' := deref (fst (Resolve go_lib_rev fs_three_layers [] "proj")) "X" in
   Chain v = Chain v' /\ FinalValue v = "3" /\ FinalValue v' = "3"
   /\ Conflicts v = ["1"; "2"] /\ Conflicts v' = ["2"; "1"])
  /\ (let v := deref (fst (Resolve go_lib fs_two_services [] "proj")) "X" in
      let v' := deref (fst (Resolve go_lib_rev fs_two_services [] "proj")) "X" in
      Value <$> Chain v = ["1"; "2"] /\ Value <$> Chain v' = ["2"; "1"]
      /\ Service (FinalFrom v) = "b" /\ Service (FinalFrom v') = "a"
      /\ FinalValue v = "2" /\ FinalValue v' = "1")
  /\ fst (Resolve go_lib fs_three_layers [] "proj")
     <> fst (Resolve go_lib_rev fs_three_layers [] "proj")
  /\ fst (Resolve go_lib fs_two_services [] "proj")
     <> fst (Resolve go_lib_rev fs_two_services [] "proj").
Proof.
  split; [repeat split; by vm_compute|].
  split; [repeat split; by vm_compute|].
  split; intros Heq.
  - apply (f_equal (fun r => Conflicts (deref r "X"))) in Heq.
    vm_compute in Heq. discriminate Heq.
  - apply (f_equal (fun r => FinalValue (deref r "X"))) in Heq.
    vm_compute in Heq. discriminate Heq.
Qed.

(** ** C10: the service filter *)

(** C10.  [filterToService] writes the list [Variables] and nothing else:
    the index [ByName] is the same map, with every cell it had, and so are
    the other fields.  [findUndefinedVars], which runs next, lists the
    undefined variables of the filtered list: a variable the filter removed
    is not listed, although it is still in [ByName]. *)
Theorem filterToService_frame (serviceName : string) (r : Resolution) :
  let r' := filterToService serviceName r in
  ByName r' = ByName r
  /\ (forall name, ByName r' !! name = ByName r !! name)
  /\ Path r' = Path r /\ EnvFiles r' = EnvFiles r
  /\ ComposeFiles r' = ComposeFiles r /\ Warnings r' = Warnings r
  /\ Undefined r' = Undefined r
  /\ Variables r'
     = List.filter (fun p => usedByService serviceName (deref r p)) (Variables r)
  /\ ByName (findUndefinedVars r') = ByName r
  /\ Undefined (findUndefinedVars r')
     = Undefined r
       ++ ((fun p => Name (deref r p))
             <$> List.filter (fun p => isUndefined (deref r p)) (Variables r'))
  /\ (let '(res, _) := ResolveWithOptions go_lib fs_two_refs [] "proj"
                         opts_strict_a in
      Variables res = ["REF_A"] /\ Undefined res = ["REF_A"]
      /\ isUndefined (deref res "REF_B") = true
      /\ (forall k, is_Some (ByName res !! k) <-> k = "REF_A" \/ k = "REF_B")).
Proof.
  cbn zeta. repeat (split; [reflexivity|]).
  split; [by rewrite findUndefinedVars_ByName|].
  split; [by rewrite findUndefinedVars_Undefined|].
  assert (ByName (fst (ResolveWithOptions go_lib fs_two_refs [] "proj"
                         opts_strict_a))
          = <["REF_A" := deref (fst (ResolveWithOptions go_lib fs_two_refs []
                                       "proj" opts_strict_a)) "REF_A"]>
            (<["REF_B" := deref (fst (ResolveWithOptions go_lib fs_two_refs []
                                        "proj" opts_strict_a)) "REF_B"]> ∅))
    as HB by (by vm_compute).
  destruct (ResolveWithOptions go_lib fs_two_refs [] "proj" opts_strict_a)
    as [res err] eqn:Hres.
  cbn [fst] in HB.
  assert (res = fst (ResolveWithOptions go_lib fs_two_refs [] "proj"
                       opts_strict_a)) as Hres' by (by rewrite Hres).
  split; [rewrite Hres'; by vm_compute|].
  split; [rewrite Hres'; by vm_compute|].
  split; [rewrite Hres'; by vm_compute|].
  intros k. rewrite HB, !lookup_insert_is_Some', lookup_empty.
  split; [intros [?|[?|[? ?]]]|intros [?|?]]; auto; done.
Qed.

(** ** C7: failure and warnings *)

Lemma same_report_refl r : same_report r r.
Proof. done. Qed.

Lemma same_report_trans r1 r2 r3 :
  same_report r1 r2 -> same_report r2 r3 -> same_report r1 r3.
Proof.
  intros (? & ? & ? & ?) (? & ? & ? & ?). repeat split; congruence.
Qed.

Lemma buildVariables_report go r : same_report r (buildVariables go r).
Proof.
  rewrite buildVariables_unfold. cbn zeta.
  generalize (map_range go (map_to_list (ByName r))) as l. intros l.
  assert (same_report r (foldl (finalize_step go) r l)) as H; [|exact H].
  revert r. induction l as [|[k v] l IH] using rev_ind; intros r; [done|].
  rewrite foldl_app. cbn [foldl]. apply (same_report_trans _ _ _ (IH r)). done.
Qed.

Lemma buildVariables_Undefined go r :
  Undefined (buildVariables go r) = Undefined r.
Proof.
  rewrite buildVariables_unfold. cbn zeta.
  generalize (map_range go (map_to_list (ByName r))) as l. intros l.
  cbn [Undefined set_Variables].
  revert r. induction l as [|[k v] l IH] using rev_ind; intros r; [done|].
  rewrite foldl_app. cbn [foldl]. cbn. apply IH.
Qed.

Lemma mergeOSEnv_entry_frame r env :
  same_report r (mergeOSEnv_entry r env)
  /\ Variables (mergeOSEnv_entry r env) = Variables r
  /\ Undefined (mergeOSEnv_entry r env) = Undefined r.
Proof.
  unfold mergeOSEnv_entry.
  destruct (SplitN_eq env) as [|k [|value [|? ?]]]; try done.
  by destruct (ByName r !! k).
Qed.

Lemma mergeOSEnv_frame environ r :
  same_report r (mergeOSEnv environ r)
  /\ Variables (mergeOSEnv environ r) = Variables r
  /\ Undefined (mergeOSEnv environ r) = Undefined r.
Proof.
  unfold mergeOSEnv. revert r.
  induction environ as [|env environ IH]; intros r; cbn [foldl]; [done|].
  destruct (mergeOSEnv_entry_frame r env) as (H1 & H2 & H3).
  destruct (IH (mergeOSEnv_entry r env)) as (H1' & H2' & H3').
  split; [by eapply same_report_trans|]. split; congruence.
Qed.

Lemma filtered_frame go fs environ basePath opts :
  same_report (ingest go fs basePath) (filtered go fs environ basePath opts)
  /\ Undefined (filtered go fs environ basePath opts)
     = Undefined (ingest go fs basePath).
Proof.
  unfold filtered, merged.
  set (r0 := ingest go fs basePath).
  set (rm := if IncludeOSEnv opts then _ else _).
  assert (same_report r0 rm /\ Undefined rm = Undefined r0) as [Hm Hu].
  { unfold rm. destruct (IncludeOSEnv opts).
    - destruct (mergeOSEnv_frame environ (buildVariables go r0))
        as (Hm & _ & Hmu).
      split.
      + eapply same_report_trans; [apply buildVariables_report|exact Hm].
      + rewrite Hmu. apply buildVariables_Undefined.
    - split; [apply buildVariables_report|apply buildVariables_Undefined]. }
  cbn zeta. destruct (String.eqb _ _); [done|].
  split; [exact Hm|exact Hu].
Qed.

Lemma ResolveWithOptions_unfold go fs environ basePath opts :
  ResolveWithOptions go fs environ basePath opts
  = let r := filtered go fs environ basePath opts in
    if StrictMode opts then
      let r := findUndefinedVars r in
      if (0 <? length (Undefined r))%nat then
        (r, Some ("strict mode: " +:+ Sprint_d (length (Undefined r))
                  +:+ " undefined variable(s): " +:+ Join (Undefined r) ", "))
      else (r, None)
    else (r, None).
Proof. reflexivity. Qed.

Lemma ingest_Undefined go fs basePath : Undefined (ingest go fs basePath) = [].
Proof. by apply (ingest_inv go fs (fun r => Undefined r = [])). Qed.

Section Warnings.

Context (go : GoLib) (fs : FS) (basePath : string).

Definition envPattern_step (r : Resolution) (e : string * Layer) : Resolution :=
  let '(pattern, layer) := e in
  let envPath := filepath_Join go basePath pattern in
  match Stat fs envPath with
  | Some _ => warn pattern (parseEnvFile go fs envPath layer (add_EnvFile envPath r))
  | None => r
  end.

Definition other_step (r : Resolution) (name : string) : Resolution :=
  if HasPrefix name ".env."
     && negb (String.eqb name ".env.example")
     && negb (String.eqb name ".env.local")
  then
    let envPath := filepath_Join go basePath name in
    warn name (parseEnvFile go fs envPath LayerEnvOther (add_EnvFile envPath r))
  else r.

Definition compose_step (r : Resolution) (pattern : string) : Resolution :=
  let composePath := filepath_Join go basePath pattern in
  match Stat fs composePath with
  | Some _ =>
      warn pattern (parseComposeFile go fs composePath
                      (add_ComposeFile composePath r))
  | None => r
  end.

Lemma ingest_unfold :
  ingest go fs basePath
  = foldl compose_step
      (foldl other_step
         (foldl envPattern_step (empty_Resolution basePath) envPatterns)
         (ReadDir fs basePath))
      composePatterns.
Proof. reflexivity. Qed.


Section Kept.

Context (w : string).

Let P (r : Resolution) : Prop := w ∈ Warnings r.








End Kept.

Lemma snd_parseEnvFile path layer r :
  snd (parseEnvFile go fs path layer r) = env_error fs path.
Proof.
  unfold parseEnvFile, env_error.
  by destruct (Open fs path) as [err|[lines scan_err]].
Qed.

Lemma snd_parseComposeFile path r :
  snd (parseComposeFile go fs path r) = compose_error fs path.
Proof.
  unfold parseComposeFile, compose_error.
  by destruct (ReadYaml fs path) as [err|doc].
Qed.






End Warnings.





(** ** C9: comparison *)

Section CompareFacts.

Lemma omap_cons {X Y} (f : X -> option Y) (x : X) (l : list X) :
  omap f (x :: l)
  = match f x with Some y => y :: omap f l | None => omap f l end.
Proof. reflexivity. Qed.

Lemma only_loop (other : gmap string string) (l : list (string * string))
    (acc : list string) :
  foldl (fun acc '(name, _) =>
           match other !! name with
           | None => acc ++ [name]
           | Some _ => acc
           end) acc l
  = acc ++ omap (only_in other) l.
Proof.
  revert acc. induction l as [|[name val] l IH]; intros acc; cbn [foldl].
  { by rewrite app_nil_r. }
  rewrite IH, omap_cons.
  assert (only_in other (name, val)
          = match other !! name with None => Some name | Some _ => None end)
    as -> by done.
  destruct (other !! name); [done|]. by rewrite <- app_assoc.
Qed.

Lemma diff_same_loop (other : gmap string string) (l : list (string * string))
    (ds : list DiffVar) (ss : list string) :
  foldl (fun '(different, same) '(name, firstVal) =>
           match other !! name with
           | Some secondVal =>
               if negb (String.eqb firstVal secondVal)
               then (different ++ [{| DiffName := name;
                                      FirstValue := firstVal;
                                      SecondValue := secondVal |}], same)
               else (different, same ++ [name])
           | None => (different, same)
           end) (ds, ss) l
  = (ds ++ omap (diff_of other) l, ss ++ omap (same_of other) l).
Proof.
  revert ds ss. induction l as [|[name val] l IH]; intros ds ss; cbn [foldl].
  { by rewrite !app_nil_r. }
  rewrite !omap_cons.
  assert (diff_of other (name, val)
          = match other !! name with
            | Some secondVal =>
                if negb (String.eqb val secondVal)
                then Some {| DiffName := name; FirstValue := val;
                             SecondValue := secondVal |}
                else None
            | None => None
            end) as -> by done.
  assert (same_of other (name, val)
          = match other !! name with
            | Some secondVal =>
                if negb (String.eqb val secondVal) then None else Some name
            | None => None
            end) as -> by done.
  destruct (other !! name) as [secondVal|]; [|apply IH].
  destruct (negb (String.eqb val secondVal)); rewrite IH;
    by rewrite <- app_assoc.
Qed.

Lemma Compare_unfold (go : GoLib) (first second : Resolution) :
  Compare go first second
  = let firstVars := map_range go (map_to_list (finalValues first)) in
    let secondVars := map_range go (map_to_list (finalValues second)) in
    {| OnlyInFirst :=
         sort_Strings go (omap (only_in (finalValues second)) firstVars);
       OnlyInSecond :=
         sort_Strings go (omap (only_in (finalValues first)) secondVars);
       Different :=
         sort_Slice go by_DiffName (omap (diff_of (finalValues second)) firstVars);
       Same := sort_Strings go (omap (same_of (finalValues second)) firstVars) |}.
Proof.
  unfold Compare. rewrite !only_loop, diff_same_loop. reflexivity.
Qed.

Context (go : GoLib).

Lemma range_elem (m : gmap string string) (e : string * string) :
  e ∈ map_range go (map_to_list m) <-> m !! e.1 = Some e.2.
Proof.
  rewrite (map_range_perm go). destruct e as [k v].
  apply elem_of_map_to_list.
Qed.

Lemma range_NoDup (m : gmap string string) :
  NoDup (map_range go (map_to_list m)).*1.
Proof. rewrite (map_range_perm go). apply NoDup_fst_map_to_list. Qed.

Lemma NoDup_omap_keys {B} (f : string * string -> option B) (key : B -> string)
    (l : list (string * string)) :
  NoDup l.*1 ->
  (forall e y, f e = Some y -> key y = e.1) ->
  NoDup (omap f l).
Proof.
  intros Hnd Hkey. induction l as [|e l IH]; [constructor|].
  rewrite fmap_cons in Hnd. apply NoDup_cons in Hnd as [Hnot Hnd].
  rewrite omap_cons.
  destruct (f e) as [y|] eqn:Hy; [|by apply IH].
  apply NoDup_cons. split; [|by apply IH].
  intros Hin. apply list_elem_of_omap in Hin as (e' & He' & Hy').
  apply Hnot. apply Hkey in Hy, Hy'. rewrite <- Hy, Hy'.
  by apply list_elem_of_fmap_2.
Qed.

Lemma elem_only (m other : gmap string string) (n : string) :
  n ∈ omap (only_in other) (map_range go (map_to_list m))
  <-> is_Some (m !! n) /\ other !! n = None.
Proof.
  rewrite list_elem_of_omap. split.
  - intros ([k v] & He & Hf). apply range_elem in He. unfold only_in in Hf.
    cbn [fst snd] in *. destruct (other !! k) eqn:Hk; [done|].
    injection Hf as <-. eauto.
  - intros [[v Hv] Ho]. exists (n, v). split; [by apply range_elem|].
    unfold only_in. cbn [fst]. by rewrite Ho.
Qed.

Lemma elem_diff (m other : gmap string string) (d : DiffVar) :
  d ∈ omap (diff_of other) (map_range go (map_to_list m))
  <-> m !! DiffName d = Some (FirstValue d)
      /\ other !! DiffName d = Some (SecondValue d)
      /\ FirstValue d <> SecondValue d.
Proof.
  rewrite list_elem_of_omap. split.
  - intros ([k v] & He & Hf). apply range_elem in He. unfold diff_of in Hf.
    cbn [fst snd] in *. destruct (other !! k) as [v2|] eqn:Hk; [|done].
    destruct (String.eqb_spec v v2) as [|Hne]; [done|].
    cbn [negb] in Hf. injection Hf as <-. done.
  - intros (Hm & Ho & Hne). exists (DiffName d, FirstValue d).
    split; [by apply range_elem|]. unfold diff_of. cbn [fst snd].
    rewrite Ho. apply String.eqb_neq in Hne. rewrite Hne. cbn [negb].
    by destruct d.
Qed.

Lemma elem_same (m other : gmap string string) (n : string) :
  n ∈ omap (same_of other) (map_range go (map_to_list m))
  <-> exists v, m !! n = Some v /\ other !! n = Some v.
Proof.
  rewrite list_elem_of_omap. split.
  - intros ([k v] & He & Hf). apply range_elem in He. unfold same_of in Hf.
    cbn [fst snd] in *. destruct (other !! k) as [v2|] eqn:Hk; [|done].
    destruct (String.eqb_spec v v2) as [->|Hne]; [|done].
    cbn [negb] in Hf. injection Hf as <-. eauto.
  - intros (v & Hm & Ho). exists (n, v). split; [by apply range_elem|].
    unfold same_of. cbn [fst snd]. by rewrite Ho, String.eqb_refl.
Qed.

Lemma NoDup_only (m other : gmap string string) :
  NoDup (omap (only_in other) (map_range go (map_to_list m))).
Proof.
  apply (NoDup_omap_keys _ id); [apply range_NoDup|].
  intros e y. unfold only_in. destruct (other !! e.1); [done|].
  by intros [= <-].
Qed.

Lemma NoDup_same (m other : gmap string string) :
  NoDup (omap (same_of other) (map_range go (map_to_list m))).
Proof.
  apply (NoDup_omap_keys _ id); [apply range_NoDup|].
  intros e y. unfold same_of. destruct (other !! e.1); [|done].
  destruct (negb _); [done|]. by intros [= <-].
Qed.

Lemma NoDup_diff (m other : gmap string string) :
  NoDup (omap (diff_of other) (map_range go (map_to_list m))).
Proof.
  apply (NoDup_omap_keys _ DiffName); [apply range_NoDup|].
  intros e y. unfold diff_of. destruct (other !! e.1); [|done].
  destruct (negb _); [|done]. by intros [= <-].
Qed.

End CompareFacts.

Lemma ascending_strings (l : list string) :
  ascending str_lt l <-> StronglySorted String.le l.
Proof.
  rewrite <- (list_fmap_id l) at 2. apply (ascending_str_lt id).
Qed.

(** Sorting names has one result, whatever the routine. *)
Lemma sort_Strings_unique (go go' : GoLib) (l1 l2 : list string) :
  l1 ≡ₚ l2 -> sort_Strings go l1 = sort_Strings go' l2.
Proof.
  intros Hp. apply (StronglySorted_unique String.le).
  - apply ascending_strings, sort_Strings_sorted.
  - apply ascending_strings, sort_Strings_sorted.
  - by rewrite !sort_Strings_perm.
Qed.

Lemma swap_diff_involutive (d : DiffVar) : swap_diff (swap_diff d) = d.
Proof. by destruct d. Qed.

Global Instance swap_diff_inj : Inj (=) (=) swap_diff.
Proof.
  intros a b H. by rewrite <- (swap_diff_involutive a), H, swap_diff_involutive.
Qed.

Lemma by_DiffName_strict_weak : strict_weak by_DiffName.
Proof. apply (str_lt_strict_weak DiffName). Qed.

Lemma ascending_swap_diff (l : list DiffVar) :
  ascending by_DiffName l -> ascending by_DiffName (swap_diff <$> l).
Proof.
  unfold ascending. apply StronglySorted_fmap. by intros [] [].
Qed.

(** Two sorted lists of entries with the same elements, no two of which
    share a name, are the same list. *)
Lemma sorted_by_DiffName_unique (l1 l2 : list DiffVar) :
  (forall x y, x ∈ l1 -> y ∈ l1 -> DiffName x = DiffName y -> x = y) ->
  ascending by_DiffName l1 -> ascending by_DiffName l2 -> l1 ≡ₚ l2 -> l1 = l2.
Proof.
  intros Hinj H1 H2 Hp.
  apply (StronglySorted_unique_strong _ _ _ (fun x1 x2 Hx1 Hx2 Hle Hge =>
    Hinj x1 x2 Hx1 ltac:(by rewrite Hp)
      (anti_symm String.le _ _
         (proj1 (str_lt_false _ _) Hle) (proj1 (str_lt_false _ _) Hge)))
    H1 H2 Hp).
Qed.

(** C9.  Comparing in the other direction exchanges the two lists of names
    found on one side only and the two values of every pair of the list of
    differences, and leaves the list of names with equal values as it is;
    the four lists are in ascending order of name, and do not depend on the
    order in which the maps are ranged over nor on the sorting routine. *)
Theorem Compare_symmetric (go go' : GoLib) (first second : Resolution) :
  let ab := Compare go first second in
  let ba := Compare go' second first in
  OnlyInFirst ab = OnlyInSecond ba
  /\ OnlyInSecond ab = OnlyInFirst ba
  /\ Different ba = swap_diff <$> Different ab
  /\ Same ba = Same ab
  /\ StronglySorted String.le (OnlyInFirst ab)
  /\ StronglySorted String.le (OnlyInSecond ab)
  /\ StronglySorted String.le (DiffName <$> Different ab)
  /\ StronglySorted String.le (Same ab)
  /\ Compare go' first second = ab.
Proof.
  cbn zeta. rewrite !Compare_unfold. cbn zeta.
  cbn [OnlyInFirst OnlyInSecond Different Same].
  set (fA := finalValues first). set (fB := finalValues second).
  assert (forall g g' : GoLib, forall m : gmap string string,
            map_range g (map_to_list m) ≡ₚ map_range g' (map_to_list m)) as Hr.
  { intros. by rewrite !map_range_perm. }
  assert (forall g g' (m other : gmap string string),
            sort_Slice g by_DiffName
              (omap (diff_of other) (map_range g (map_to_list m)))
            = sort_Slice g' by_DiffName
                (omap (diff_of other) (map_range g' (map_to_list m)))) as Hd.
  { intros g g' m other. apply sorted_by_DiffName_unique.
    - intros x y Hx Hy Hn. rewrite sort_Slice_perm in Hx, Hy.
      apply elem_diff in Hx as (Hx1 & Hx2 & _).
      apply elem_diff in Hy as (Hy1 & Hy2 & _).
      rewrite Hn in Hx1, Hx2. destruct x, y. cbn in *. congruence.
    - apply sort_Slice_sorted, by_DiffName_strict_weak.
    - apply sort_Slice_sorted, by_DiffName_strict_weak.
    - by rewrite !sort_Slice_perm, (Hr g g'). }
  split; [|split; [|split; [|split; [|split; [|split; [|split; [|split]]]]]]].
  - apply sort_Strings_unique. by rewrite (Hr go go').
  - apply sort_Strings_unique. by rewrite (Hr go go').
  - rewrite (Hd go' go fB fA). apply sorted_by_DiffName_unique.
    + intros x y Hx Hy Hn. rewrite sort_Slice_perm in Hx, Hy.
      apply elem_diff in Hx as (Hx1 & Hx2 & _).
      apply elem_diff in Hy as (Hy1 & Hy2 & _).
      rewrite Hn in Hx1, Hx2. destruct x, y. cbn in *. congruence.
    + apply sort_Slice_sorted, by_DiffName_strict_weak.
    + apply ascending_swap_diff, sort_Slice_sorted, by_DiffName_strict_weak.
    + rewrite !sort_Slice_perm. apply NoDup_Permutation.
      * apply NoDup_diff.
      * apply NoDup_fmap_2; [apply _|apply NoDup_diff].
      * intros d. rewrite list_elem_of_fmap, elem_diff. split.
        -- intros (H1 & H2 & H3). exists (swap_diff d).
           split; [by rewrite swap_diff_involutive|].
           apply elem_diff. destruct d. cbn in *. auto.
        -- intros (d' & -> & Hd'). apply elem_diff in Hd' as (H1 & H2 & H3).
           destruct d'. cbn in *. auto.
  - apply sort_Strings_unique. apply NoDup_Permutation.
    + apply NoDup_same.
    + apply NoDup_same.
    + intros n. rewrite !elem_same. split; intros (v & ? & ?); eauto.
  - apply ascending_strings, sort_Strings_sorted.
  - apply ascending_strings, sort_Strings_sorted.
  - apply (ascending_str_lt DiffName), sort_Slice_sorted, by_DiffName_strict_weak.
  - apply ascending_strings, sort_Strings_sorted.
  - f_equal.
    + apply sort_Strings_unique. by rewrite (Hr go' go).
    + apply sort_Strings_unique. by rewrite (Hr go' go).
    + apply Hd.
    + apply sort_Strings_unique. by rewrite (Hr go' go).
Qed.

(** * Further properties of the resolver *)

(** ** Layers *)

(** X1.  The rank of a layer is the integer of its constant: the seven
    ranks are the numbers 0 to 6, no two layers share a rank, and the order
    of the ranks is the order of the declarations. *)
Theorem Precedence_total_order (l1 l2 : Layer) :
  Precedence l1 = Layer_int l1
  /\ (0 <= Precedence l1 <= 6)%Z
  /\ (Precedence l1 = Precedence l2 -> l1 = l2)
  /\ ((Precedence l1 < Precedence l2)%Z \/ l1 = l2
      \/ (Precedence l2 < Precedence l1)%Z).
Proof.
  split; [by destruct l1|]. split; [destruct l1; simpl; lia|].
  split; [destruct l1, l2; simpl; intros H; try done; lia|].
  destruct l1, l2; simpl; auto; (left; lia) || (right; right; lia).
Qed.

Lemma Precedence_total_order_witness :
  Precedence LayerEnvLocal = 2%Z /\ LayerEnvLocal = LayerEnvLocal.
Proof.
  split; [reflexivity|].
  apply (Precedence_total_order LayerEnvLocal LayerEnvLocal). reflexivity.
Defined.

(** X2.  The seven layers have seven different labels, none of them empty
    and none of them the label [unknown] of the default arm. *)
Theorem Layer_String_injective (l1 l2 : Layer) :
  (Layer_String l1 = Layer_String l2 -> l1 = l2)
  /\ Layer_String l1 <> "" /\ Layer_String l1 <> "unknown".
Proof.
  split; [|by destruct l1].
  destruct l1, l2; try done; intros H; vm_compute in H; discriminate H.
Qed.

Lemma Layer_String_injective_witness :
  Layer_String LayerEnv = ".env" /\ LayerEnv = LayerEnv.
Proof.
  split; [reflexivity|].
  apply (Layer_String_injective LayerEnv LayerEnv). reflexivity.
Defined.

(** ** Unquoting, once more *)

(** X3.  [unquote] removes two bytes or none: a string shorter than two
    bytes (the empty string, a lone quote) is returned as it is, and the
    result is the argument exactly when the ends are no pair of quotes. *)
Theorem unquote_length (s : string) :
  (len s < 2 -> unquote s = s)
  /\ (len (unquote s) = len s \/ len (unquote s) + 2 = len s)
  /\ (len (unquote s) + 2 = len s ->
      exists q, (q = DQ \/ q = SQ) /\ s = wrap q (unquote s)).
Proof.
  split; [apply unquote_short|].
  destruct s as [|c s]; [split; [by left|cbn; lia]|].
  destruct s as [|c' s']; [split; [by left|cbn; lia]|].
  destruct (string_snoc_inv (String c' s')) as (x & q & Hx); [done|].
  rewrite Hx, unquote_ends.
  assert (len (String c (x +:+ String q EmptyString)) = len x + 2) as Hlen.
  { unfold len. cbn [String.length]. rewrite length_snoc. lia. }
  destruct (quote_pair c q) eqn:Hp.
  - apply quote_pair_true in Hp as [-> Hq]. split; [right; lia|].
    intros _. by exists q.
  - split; [by left|]. lia.
Qed.

Lemma unquote_length_witness : unquote (String DQ EmptyString) = String DQ EmptyString.
Proof. apply unquote_length. cbn. lia. Defined.

(** ** Adding observations *)

Lemma set_Chain_id (v : Variable_) : set_Chain (Chain v) v = v.
Proof. by destruct v. Qed.

Lemma set_Chain_set_Chain (c c' : list Source) (v : Variable_) :
  set_Chain c (set_Chain c' v) = set_Chain c v.
Proof. done. Qed.

Lemma addSource_cell (name : string) (src : Source) (r : Resolution) (k : string) :
  cell (addSource name src r) k
  = if String.eqb name k then set_Chain (Chain (cell r k) ++ [src]) (cell r k)
    else cell r k.
Proof.
  unfold cell, addSource. cbn [ByName set_ByName].
  destruct (String.eqb_spec name k) as [->|Hne].
  - by rewrite lookup_insert_eq.
  - by rewrite lookup_insert_ne.
Qed.

Lemma addSource_tracked (name : string) (src : Source) (r : Resolution) (k : string) :
  is_Some (ByName (addSource name src r) !! k)
  <-> name = k \/ is_Some (ByName r !! k).
Proof. unfold addSource. cbn. apply lookup_insert_is_Some'. Qed.

Lemma named_cons (name : string) (e : string * Source) (obs : list (string * Source)) :
  named name (e :: obs)
  = if String.eqb e.1 name then e.2 :: named name obs else named name obs.
Proof. unfold named. rewrite omap_cons. by destruct (String.eqb e.1 name). Qed.

Lemma named_elem (name : string) (obs : list (string * Source)) (src : Source) :
  src ∈ named name obs <-> (name, src) ∈ obs.
Proof.
  unfold named. rewrite list_elem_of_omap. split.
  - intros ([n s] & Hin & Hf). cbn in Hf.
    destruct (String.eqb_spec n name) as [->|]; [|done]. by injection Hf as ->.
  - intros Hin. exists (name, src). split; [done|]. cbn.
    by rewrite String.eqb_refl.
Qed.

Lemma addSources_chain_facts (obs : list (string * Source)) (r : Resolution)
    (name : string) :
  let r' := addSources obs r in
  cell r' name = set_Chain (Chain (cell r name) ++ named name obs) (cell r name)
  /\ (is_Some (ByName r' !! name)
      <-> is_Some (ByName r !! name) \/ name ∈ obs.*1)
  /\ Variables r' = Variables r /\ same_report r r'
  /\ Undefined r' = Undefined r.
Proof.
  cbn zeta. unfold addSources. revert r.
  induction obs as [|[n src] obs IH]; intros r; cbn [foldl].
  { rewrite app_nil_r, set_Chain_id. repeat split; try done; auto.
    intros [?|Hin]; [done|]. by inv Hin. }
  destruct (IH (addSource n src r)) as (Hc & Ht & Hv & Hr & Hu).
  rewrite Hc, Ht, Hv, Hu, addSource_cell, addSource_tracked, named_cons.
  cbn [fst snd]. split; [|split; [|split; [done|split; [|done]]]].
  - destruct (String.eqb n name); [|done].
    cbn [Chain set_Chain]. by rewrite set_Chain_set_Chain, <- app_assoc.
  - rewrite fmap_cons, elem_of_cons. cbn [fst]. split.
    + intros [[->|?]|?]; auto.
    + intros [?|[->|?]]; auto.
  - destruct Hr as (? & ? & ? & ?). done.
Qed.

(** X4.  Adding a list of observations appends to the chain of every name
    the observations of that name, in the order of the list, after what the
    chain held; a name is tracked afterwards if and only if it was tracked
    or the list holds an observation of it; nothing but the index is
    written. *)
Theorem addSources_chain (obs : list (string * Source)) (r : Resolution)
    (name : string) :
  let r' := addSources obs r in
  cell r' name = set_Chain (Chain (cell r name) ++ named name obs) (cell r name)
  /\ (is_Some (ByName r' !! name)
      <-> is_Some (ByName r !! name) \/ name ∈ obs.*1)
  /\ Variables r' = Variables r /\ same_report r r'
  /\ Undefined r' = Undefined r.
Proof.
  apply addSources_chain_facts.
Qed.

(** ** The parsers as lists of observations *)

Lemma addSources_app (o1 o2 : list (string * Source)) (r : Resolution) :
  addSources (o1 ++ o2) r = addSources o2 (addSources o1 r).
Proof. unfold addSources. by rewrite foldl_app. Qed.

Lemma addSources_ByName (obs : list (string * Source)) (r1 r2 : Resolution) :
  ByName r1 = ByName r2 ->
  ByName (addSources obs r1) = ByName (addSources obs r2).
Proof.
  unfold addSources. revert r1 r2.
  induction obs as [|[n src] obs IH]; intros r1 r2 H; cbn [foldl]; [done|].
  apply IH. unfold addSource. cbn. by rewrite H.
Qed.

Section ParserObs.

Context (go : GoLib) (fs : FS).

Lemma parseEnvFile_line_obs path layer n text r :
  parseEnvFile_line go path layer n text r
  = addSources (option_list (env_line_obs go path layer n text)) r.
Proof.
  unfold parseEnvFile_line, env_line_obs.
  destruct (_ || _); [done|].
  destruct (SplitN_eq _) as [|k [|v [|? ?]]]; try done.
  by destruct (String.eqb _ _).
Qed.

Lemma parseEnvFileRef_line_obs envPath serviceName n text r :
  parseEnvFileRef_line go envPath serviceName n text r
  = addSources (option_list (ref_line_obs go envPath serviceName n text)) r.
Proof.
  unfold parseEnvFileRef_line, ref_line_obs.
  destruct (_ || _); [done|].
  by destruct (SplitN_eq _) as [|k [|v [|? ?]]].
Qed.

Lemma scan_as_obs body f lines lineNum r :
  (forall n text r, body n text r = addSources (option_list (f n text)) r) ->
  scan body lineNum lines r = addSources (scan_obs f lineNum lines) r.
Proof.
  intros Hbody. revert lineNum r.
  induction lines as [|text lines IH]; intros lineNum r; [done|].
  cbn [scan scan_obs]. cbn zeta. by rewrite IH, Hbody, addSources_app.
Qed.

Lemma parseEnvFile_obs path layer r :
  fst (parseEnvFile go fs path layer r) = addSources (file_obs go fs path layer) r.
Proof.
  unfold parseEnvFile, file_obs.
  destruct (Open fs path) as [err|[lines scan_err]]; [done|]. cbn [fst].
  apply scan_as_obs. intros. apply parseEnvFile_line_obs.
Qed.

Lemma parseEnvFileRef_obs composePath serviceName envFile r :
  parseEnvFileRef go fs composePath serviceName envFile r
  = addSources (ref_obs go fs composePath serviceName envFile) r.
Proof.
  unfold parseEnvFileRef, ref_obs. cbn zeta.
  generalize (envFile_files envFile) as files. intros files. revert r.
  induction files as [|f files IH]; intros r; [done|].
  cbn [foldl fmap list_fmap mjoin list_join]. rewrite IH, addSources_app.
  f_equal. destruct (Stat fs _); [|done].
  destruct (Open fs _) as [err|[lines scan_err]]; [done|].
  apply scan_as_obs. intros. apply parseEnvFileRef_line_obs.
Qed.

Lemma parseInlineEnv_obs composePath serviceName env r :
  parseInlineEnv go composePath serviceName env r
  = addSources (inline_obs go composePath serviceName env) r.
Proof.
  unfold parseInlineEnv, inline_obs. destruct env as [| |items|entries|]; try done.
  - revert r. induction items as [|item items IH]; intros r; [done|].
    cbn [foldl]. rewrite IH, omap_cons. by destruct item.
  - generalize (map_range go (map_to_list entries)) as l. intros l. revert r.
    induction l as [|[key val] l IH]; intros r; [done|].
    cbn [foldl fmap list_fmap]. by rewrite IH.
Qed.

Lemma parseComposeFile_obs path r :
  fst (parseComposeFile go fs path r) = addSources (compose_obs go fs path) r.
Proof.
  unfold parseComposeFile, compose_obs.
  destruct (ReadYaml fs path) as [err|compose]; [done|]. cbn [fst].
  generalize (map_range go (map_to_list (Services compose))) as l.
  intros l. revert r.
  induction l as [|[serviceName svc] l IH]; intros r; [done|].
  cbn [foldl fmap list_fmap mjoin list_join fst snd].
  rewrite IH, !addSources_app. f_equal.
  assert (match EnvFile svc with
          | INil => r
          | envFile => parseEnvFileRef go fs path serviceName envFile r
          end = addSources (ref_obs go fs path serviceName (EnvFile svc)) r)
    as Href.
  { destruct (EnvFile svc); try apply parseEnvFileRef_obs. done. }
  rewrite Href. destruct (Environment svc); try apply parseInlineEnv_obs.
  done.
Qed.

End ParserObs.

Lemma warn_ByName what res : ByName (warn what res) = ByName (fst res).
Proof. by destruct res as [r [err|]]. Qed.

Lemma mjoin_cons {Y} (x : list Y) (l : list (list Y)) :
  mjoin (x :: l) = x ++ mjoin l.
Proof. reflexivity. Qed.

Lemma fold_obs {X} (step : Resolution -> X -> Resolution)
    (obs : X -> list (string * Source)) (l : list X) (r : Resolution) :
  (forall r x, ByName (step r x) = ByName (addSources (obs x) r)) ->
  ByName (foldl step r l) = ByName (addSources (mjoin (obs <$> l)) r).
Proof.
  intros Hstep. revert r. induction l as [|x l IH]; intros r; [done|].
  cbn [foldl]. rewrite fmap_cons, mjoin_cons.
  rewrite IH, addSources_app. apply addSources_ByName, Hstep.
Qed.

Lemma mjoin_filter {X Y} (P : X -> bool) (f : X -> list Y) (l : list X) :
  mjoin (f <$> List.filter P l)
  = mjoin ((fun x => if P x then f x else []) <$> l).
Proof.
  induction l as [|x l IH]; [done|]. cbn [List.filter].
  destruct (P x) eqn:HP.
  - by rewrite !fmap_cons, !mjoin_cons, HP, IH.
  - by rewrite fmap_cons, mjoin_cons, HP, IH.
Qed.

Lemma ingest_chain_facts (go : GoLib) (fs : FS) (basePath name : string) :
  ByName (ingest go fs basePath)
  = ByName (addSources (ingest_obs go fs basePath) (empty_Resolution basePath))
  /\ cell (ingest go fs basePath) name
     = set_Chain (named name (ingest_obs go fs basePath)) (new_Variable name)
  /\ (is_Some (ByName (ingest go fs basePath) !! name)
      <-> name ∈ (ingest_obs go fs basePath).*1).
Proof.
  assert (ByName (ingest go fs basePath)
          = ByName (addSources (ingest_obs go fs basePath)
                      (empty_Resolution basePath))) as Hidx.
  { rewrite ingest_unfold. unfold ingest_obs.
    rewrite !addSources_app, mjoin_filter.
    rewrite (fold_obs (compose_step go fs basePath)
               (fun pattern =>
                  match Stat fs (filepath_Join go basePath pattern) with
                  | Some _ => compose_obs go fs (filepath_Join go basePath pattern)
                  | None => []
                  end)).
    2:{ intros r pattern. unfold compose_step.
        destruct (Stat fs _); [|done].
        rewrite warn_ByName, parseComposeFile_obs.
        by apply addSources_ByName. }
    apply addSources_ByName.
    rewrite (fold_obs (other_step go fs basePath)
               (fun name =>
                  if other_variant name
                  then file_obs go fs (filepath_Join go basePath name)
                         LayerEnvOther
                  else [])).
    2:{ intros r x. unfold other_step, other_variant.
        destruct (_ && _); [|done].
        rewrite warn_ByName, parseEnvFile_obs.
        by apply addSources_ByName. }
    apply addSources_ByName.
    apply (fold_obs (envPattern_step go fs basePath)
             (fun e => match Stat fs (filepath_Join go basePath e.1) with
                       | Some _ =>
                           file_obs go fs (filepath_Join go basePath e.1) e.2
                       | None => []
                       end)).
    intros r [pattern layer]. unfold envPattern_step. cbn [fst snd].
    destruct (Stat fs _); [|done].
    rewrite warn_ByName, parseEnvFile_obs. by apply addSources_ByName. }
  split; [done|].
  destruct (addSources_chain_facts (ingest_obs go fs basePath)
              (empty_Resolution basePath) name) as (Hc & Ht & _).
  cbn zeta in Hc, Ht. unfold cell in *. rewrite Hidx. split.
  - rewrite Hc. cbn [ByName empty_Resolution]. by rewrite lookup_empty.
  - rewrite Ht. cbn [ByName empty_Resolution]. rewrite lookup_empty.
    split; [intros [[? ?]|?]|]; auto. done.
Qed.

(** X5.  The index after ingestion is the one that adding the observations
    of the directory, in the order of [ingest_obs], gives: the chain of a
    name holds its observations in the order template, base, local
    override, other variants in the order of the listing, then manifest
    after manifest in the fixed order of their names, each service with its
    referenced files before its inline declarations.  A name is tracked if
    and only if some observation carries it. *)
Theorem ingest_chain (go : GoLib) (fs : FS) (basePath name : string) :
  ByName (ingest go fs basePath)
  = ByName (addSources (ingest_obs go fs basePath) (empty_Resolution basePath))
  /\ cell (ingest go fs basePath) name
     = set_Chain (named name (ingest_obs go fs basePath)) (new_Variable name)
  /\ (is_Some (ByName (ingest go fs basePath) !! name)
      <-> name ∈ (ingest_obs go fs basePath).*1).
Proof.
  apply ingest_chain_facts.
Qed.

(** ** The observations of a file *)

Section ScanObs.

Context (f : Z -> string -> option (string * Source)).

Hypothesis f_Line : forall n text e, f n text = Some e -> Line e.2 = n.

Lemma scan_obs_length (lineNum : Z) (lines : list string) :
  length (scan_obs f lineNum lines) <= length lines.
Proof.
  revert lineNum. induction lines as [|text lines IH]; intros lineNum; [done|].
  cbn [scan_obs]. rewrite length_app. specialize (IH (lineNum + 1)%Z).
  destruct (f _ text); cbn; lia.
Qed.

Lemma scan_obs_elem (lineNum : Z) (lines : list string) (e : string * Source) :
  e ∈ scan_obs f lineNum lines ->
  (lineNum < Line e.2 <= lineNum + Z.of_nat (length lines))%Z
  /\ exists text, lines !! Z.to_nat (Line e.2 - lineNum - 1) = Some text
                  /\ f (Line e.2) text = Some e.
Proof.
  revert lineNum. induction lines as [|text lines IH]; intros lineNum Hin.
  { by inv Hin. }
  cbn [scan_obs] in Hin. apply elem_of_app in Hin as [Hin|Hin].
  - destruct (f (lineNum + 1)%Z text) as [e'|] eqn:He; [|by inv Hin].
    cbn in Hin. apply list_elem_of_singleton in Hin as ->.
    rewrite (f_Line _ _ _ He). split; [cbn [length]; lia|].
    exists text. replace (lineNum + 1 - lineNum - 1)%Z with 0%Z by lia.
    done.
  - destruct (IH _ Hin) as (Hb & text' & Hl & Hf).
    split; [cbn [length]; lia|]. exists text'. split; [|done].
    replace (Z.to_nat (Line e.2 - lineNum - 1))
      with (S (Z.to_nat (Line e.2 - (lineNum + 1) - 1))) by lia.
    done.
Qed.

Lemma scan_obs_sorted (lineNum : Z) (lines : list string) :
  StronglySorted (fun a b => (Line a.2 < Line b.2)%Z) (scan_obs f lineNum lines).
Proof.
  revert lineNum. induction lines as [|text lines IH]; intros lineNum;
    [constructor|].
  cbn [scan_obs]. destruct (f (lineNum + 1)%Z text) as [e|] eqn:He; [|apply IH].
  cbn. constructor; [apply IH|].
  apply Forall_forall. intros e' He'.
  apply scan_obs_elem in He' as [Hb _].
  rewrite (f_Line _ _ _ He). lia.
Qed.

End ScanObs.

Lemma env_line_obs_Some go path layer n text e :
  env_line_obs go path layer n text = Some e ->
  e.1 <> "" /\ Layer_ e.2 = layer /\ File e.2 = path /\ Line e.2 = n
  /\ Service e.2 = "" /\ IsInline e.2 = false
  /\ HasPrefix (TrimSpace go text) "#" = false.
Proof.
  unfold env_line_obs.
  destruct (String.eqb _ _ || HasPrefix _ _) eqn:Hskip; [done|].
  apply orb_false_iff in Hskip as [_ Hhash].
  destruct (SplitN_eq _) as [|k [|v [|? ?]]]; try done.
  destruct (String.eqb_spec (TrimSpace go k) EmptyString); [done|].
  by intros [= <-].
Qed.

Lemma ref_line_obs_Some go envPath serviceName n text e :
  ref_line_obs go envPath serviceName n text = Some e ->
  Layer_ e.2 = LayerComposeEnvFile /\ File e.2 = envPath /\ Line e.2 = n
  /\ Service e.2 = serviceName /\ IsInline e.2 = false.
Proof.
  unfold ref_line_obs. destruct (_ || _); [done|].
  destruct (SplitN_eq _) as [|k [|v [|? ?]]]; try done.
  by intros [= <-].
Qed.

Lemma parseEnvFile_observations_facts (go : GoLib) (fs : FS) (path : string)
    (layer : Layer) (r : Resolution) :
  fst (parseEnvFile go fs path layer r) = addSources (file_obs go fs path layer) r
  /\ match Open fs path with
     | inl err =>
         parseEnvFile go fs path layer r = (r, Some err)
     | inr (lines, scan_err) =>
         snd (parseEnvFile go fs path layer r) = scan_err
         /\ length (file_obs go fs path layer) <= length lines
         /\ StronglySorted (fun a b => (Line a.2 < Line b.2)%Z)
              (file_obs go fs path layer)
         /\ forall e, e ∈ file_obs go fs path layer ->
              e.1 <> "" /\ Layer_ e.2 = layer /\ File e.2 = path
              /\ Service e.2 = "" /\ IsInline e.2 = false
              /\ (1 <= Line e.2 <= Z.of_nat (length lines))%Z
              /\ exists text,
                   lines !! Z.to_nat (Line e.2 - 1) = Some text
                   /\ HasPrefix (TrimSpace go text) "#" = false
     end.
Proof.
  split; [apply parseEnvFile_obs|].
  unfold parseEnvFile, file_obs.
  destruct (Open fs path) as [err|[lines scan_err]]; [done|].
  assert (forall n text e,
            env_line_obs go path layer n text = Some e -> Line e.2 = n) as HL.
  { intros n text e He. by apply env_line_obs_Some in He as (_ & _ & _ & ? & _). }
  split; [done|]. split; [by apply scan_obs_length|].
  split; [by apply scan_obs_sorted|].
  intros e He. apply (scan_obs_elem _ HL) in He as (Hb & text & Hl & Hf).
  apply env_line_obs_Some in Hf as (? & ? & ? & _ & ? & ? & ?).
  repeat split; try done; try lia.
  exists text. split; [|done].
  by replace (Line e.2 - 1)%Z with (Line e.2 - 0 - 1)%Z by lia.
Qed.

(** X6.  [parseEnvFile] on a file that cannot be opened leaves the
    resolution as it is.  On a file that is read it adds at most one
    observation per line, in the order of the lines: each has a name that
    is not empty, the layer and the path of the call, no service and no
    inline flag, and the number of its line, counted from 1; a line whose
    trimmed text begins with [#] gives none. *)
Theorem parseEnvFile_observations (go : GoLib) (fs : FS) (path : string)
    (layer : Layer) (r : Resolution) :
  fst (parseEnvFile go fs path layer r) = addSources (file_obs go fs path layer) r
  /\ match Open fs path with
     | inl err =>
         parseEnvFile go fs path layer r = (r, Some err)
     | inr (lines, scan_err) =>
         snd (parseEnvFile go fs path layer r) = scan_err
         /\ length (file_obs go fs path layer) <= length lines
         /\ StronglySorted (fun a b => (Line a.2 < Line b.2)%Z)
              (file_obs go fs path layer)
         /\ forall e, e ∈ file_obs go fs path layer ->
              e.1 <> "" /\ Layer_ e.2 = layer /\ File e.2 = path
              /\ Service e.2 = "" /\ IsInline e.2 = false
              /\ (1 <= Line e.2 <= Z.of_nat (length lines))%Z
              /\ exists text,
                   lines !! Z.to_nat (Line e.2 - 1) = Some text
                   /\ HasPrefix (TrimSpace go text) "#" = false
     end.
Proof.
  apply parseEnvFile_observations_facts.
Qed.

(** ** How observations are tagged *)

Lemma file_obs_tagged go fs path layer e :
  env_layer layer -> e ∈ file_obs go fs path layer ->
  tagged e.1 e.2 /\ env_layer (Layer_ e.2).
Proof.
  intros Hl He.
  destruct (parseEnvFile_observations_facts go fs path layer (empty_Resolution ""))
    as [_ H].
  unfold file_obs in He.
  destruct (Open fs path) as [err|[lines scan_err]] eqn:Ho; [by inv He|].
  destruct H as (_ & _ & _ & H).
  destruct (H e) as (Hn & HL & _ & Hs & Hi & Hb & _).
  { unfold file_obs. by rewrite Ho. }
  unfold tagged. rewrite HL. split; [|done].
  destruct Hl as [-> | [-> | [-> | ->]]]; repeat split; try done; lia.
Qed.

Lemma ref_obs_tagged go fs composePath serviceName envFile e :
  e ∈ ref_obs go fs composePath serviceName envFile ->
  tagged e.1 e.2 /\ Layer_ e.2 = LayerComposeEnvFile
  /\ Service e.2 = serviceName.
Proof.
  unfold ref_obs. rewrite list_elem_of_join.
  intros (l & He & Hl). apply list_elem_of_fmap in Hl as (f & -> & _).
  destruct (Stat fs _); [|by inv He].
  destruct (Open fs _) as [err|[lines scan_err]]; [by inv He|].
  apply scan_obs_elem in He as (Hb & text & _ & Hf).
  - apply ref_line_obs_Some in Hf as (HL & _ & _ & Hs & Hi).
    unfold tagged. rewrite HL. repeat split; try done. lia.
  - intros ln t e' He'. by apply ref_line_obs_Some in He' as (_ & _ & ? & _).
Qed.

Lemma inline_obs_tagged go composePath serviceName env e :
  e ∈ inline_obs go composePath serviceName env ->
  tagged e.1 e.2 /\ Layer_ e.2 = LayerComposeInline
  /\ Service e.2 = serviceName /\ File e.2 = composePath.
Proof.
  unfold inline_obs. destruct env as [| |items|entries|]; try (by inversion 1).
  - rewrite list_elem_of_omap. intros ([s|] & _ & Hf); [|done].
    by injection Hf as <-.
  - rewrite list_elem_of_fmap. by intros (x & -> & _).
Qed.

Lemma compose_obs_tagged go fs path e :
  e ∈ compose_obs go fs path ->
  tagged e.1 e.2
  /\ (Layer_ e.2 = LayerComposeEnvFile \/ Layer_ e.2 = LayerComposeInline).
Proof.
  unfold compose_obs. destruct (ReadYaml fs path) as [err|compose]; [by inversion 1|].
  rewrite list_elem_of_join. intros (l & He & Hl).
  apply list_elem_of_fmap in Hl as ([serviceName svc] & -> & _).
  apply elem_of_app in He as [He|He].
  - apply ref_obs_tagged in He as (? & ? & _). auto.
  - apply inline_obs_tagged in He as (? & ? & _). auto.
Qed.

Lemma ingest_obs_tagged go fs basePath e :
  e ∈ ingest_obs go fs basePath ->
  tagged e.1 e.2 /\ Layer_ e.2 <> LayerOSEnv.
Proof.
  unfold ingest_obs. rewrite !elem_of_app, !list_elem_of_join.
  intros [(l & He & Hl)|[(l & He & Hl)|(l & He & Hl)]];
    apply list_elem_of_fmap in Hl as (x & -> & Hx).
  - destruct (Stat fs _); [|by inv He].
    apply file_obs_tagged in He as [Ht Hl].
    + split; [done|]. by destruct Hl as [-> | [-> | [-> | ->]]].
    + unfold envPatterns in Hx. apply list_elem_of_In in Hx. cbn in Hx.
      unfold env_layer.
      destruct Hx as [<- | [<- | [<- | []]]]; cbn; auto.
  - apply file_obs_tagged in He as [Ht Hl]; [|unfold env_layer; auto].
    split; [done|]. by destruct Hl as [-> | [-> | [-> | ->]]].
  - destruct (Stat fs _); [|by inv He].
    apply compose_obs_tagged in He as [Ht Hl].
    split; [done|]. by destruct Hl as [-> | ->].
Qed.

(** ** The variables of the returned resolution *)

Lemma finalize_chain_sorted (go : GoLib) (v : Variable_) :
  Chain (finalize go v) ≡ₚ Chain v
  /\ StronglySorted by_rank (Chain (finalize go v)).
Proof.
  rewrite finalize_Chain. split; [apply sort_Slice_perm|].
  apply ascending_chain_less, sort_Slice_sorted, chain_less_strict_weak.
Qed.

Lemma by_rank_osenv (vals : list string) :
  StronglySorted by_rank (osenv_Source <$> vals).
Proof.
  induction vals as [|x vals IH]; [constructor|].
  rewrite fmap_cons. constructor; [done|].
  apply Forall_forall. intros s Hs.
  apply list_elem_of_fmap in Hs as (y & -> & _). by unfold by_rank, rank.
Qed.

Lemma resolved_cell_facts (go : GoLib) (fs : FS) (environ : list string)
    (basePath : string) (opts : Options) (name : string) (v : Variable_) :
  ByName (fst (ResolveWithOptions go fs environ basePath opts)) !! name = Some v ->
  Name v = name
  /\ Chain v <> []
  /\ last (Chain v) = Some (FinalFrom v)
  /\ StronglySorted by_rank (Chain v)
  /\ Chain v
     = sort_Slice go chain_less (named name (ingest_obs go fs basePath))
       ++ (osenv_Source
             <$> (if IncludeOSEnv opts then environ_values name environ else [])).
Proof.
  rewrite ResolveWithOptions_cell. intros Hv.
  destruct (ByName (ingest go fs basePath) !! name) as [v0|] eqn:Hv0; [|done].
  cbn in Hv. injection Hv as <-.
  destruct (fresh_ingest go fs basePath name v0 Hv0) as [Hfresh Hne].
  destruct (ingest_chain_facts go fs basePath name) as (_ & Hcell & _).
  unfold cell in Hcell. rewrite Hv0 in Hcell. cbn [default] in Hcell.
  assert (Chain v0 = named name (ingest_obs go fs basePath)) as Hchain.
  { apply (f_equal Chain) in Hcell. exact Hcell. }
  set (vals := if IncludeOSEnv opts then _ else _).
  destruct (merge_cell_fold vals (finalize go v0)) as (HN & HC & _ & HF & _).
  cbn zeta in HN, HC, HF.
  destruct (finalize_last go v0 Hne) as (src & Hl & HFF & _ & _).
  destruct (finalize_chain_sorted go v0) as [_ Hsorted].
  rewrite HN, HC, HF, finalize_Name.
  split; [by rewrite Hfresh|]. split.
  { intros Hnil. apply app_eq_nil in Hnil as [Hnil _].
    rewrite Hnil in Hl. done. }
  split.
  { destruct vals as [|x vals _] using rev_ind.
    - cbn. by rewrite app_nil_r, Hl, HFF.
    - rewrite fmap_app.
      change (osenv_Source <$> [x]) with [osenv_Source x].
      by rewrite app_assoc, !last_snoc. }
  split.
  { apply StronglySorted_app_2; [|done|apply by_rank_osenv].
    intros x1 x2 _ Hx2. apply list_elem_of_fmap in Hx2 as (y & -> & _).
    unfold by_rank. apply rank_le_6. }
  by rewrite finalize_Chain, Hchain.
Qed.

(** X7.  Every variable of the returned resolution holds the name it is
    indexed by and at least one observation; its chain is the sorted chain
    of the observations ingested for that name, followed by the ambient
    observations when the merge is on; the chain is in ascending order of
    rank, also after the ambient merge, and the winner [FinalFrom] is its
    last element. *)
Theorem resolved_cell (go : GoLib) (fs : FS) (environ : list string)
    (basePath : string) (opts : Options) (name : string) (v : Variable_) :
  ByName (fst (ResolveWithOptions go fs environ basePath opts)) !! name = Some v ->
  Name v = name
  /\ Chain v <> []
  /\ last (Chain v) = Some (FinalFrom v)
  /\ StronglySorted by_rank (Chain v)
  /\ Chain v
     = sort_Slice go chain_less (named name (ingest_obs go fs basePath))
       ++ (osenv_Source
             <$> (if IncludeOSEnv opts then environ_values name environ else [])).
Proof.
  apply resolved_cell_facts.
Qed.

Lemma resolved_cell_witness :
  Chain (deref (fst (ResolveWithOptions go_lib fs_base_local environ_api
                       "proj" opts_ambient)) "API_KEY") <> [].
Proof.
  eapply (resolved_cell go_lib fs_base_local environ_api "proj" opts_ambient
            "API_KEY").
  vm_compute. reflexivity.
Defined.

Lemma resolved_sources_tagged_facts (go : GoLib) (fs : FS) (environ : list string)
    (basePath : string) (opts : Options) (name : string) (v : Variable_)
    (s : Source) :
  ByName (fst (ResolveWithOptions go fs environ basePath opts)) !! name = Some v ->
  s ∈ Chain v ->
  tagged name s
  /\ (IsInline s = true <-> Layer_ s = LayerComposeInline)
  /\ (Layer_ s = LayerOSEnv -> IncludeOSEnv opts = true).
Proof.
  intros Hv Hs.
  destruct (resolved_cell_facts go fs environ basePath opts name v Hv)
    as (_ & _ & _ & _ & HC).
  rewrite HC in Hs. apply elem_of_app in Hs as [Hs|Hs].
  - rewrite sort_Slice_perm in Hs. apply named_elem in Hs.
    apply ingest_obs_tagged in Hs as [Ht Hl]. cbn [fst snd] in *.
    split; [done|]. split; [|done].
    unfold tagged in Ht. destruct (Layer_ s); intuition congruence.
  - apply list_elem_of_fmap in Hs as (x & -> & Hx).
    split; [done|]. split; [done|]. intros _.
    destruct (IncludeOSEnv opts); [done|]. by inv Hx.
Qed.

(** X8.  Every observation of a returned variable is tagged by its layer:
    one from a plain env file has no service, no inline flag, a line number
    from 1 on and a name that is not empty; one from a file a manifest
    refers to has no inline flag and a line number from 1 on; an inline one
    has the inline flag and no line number; an ambient one, which only the
    enabled merge adds, has the artifact [environment], no service, no
    inline flag and no line number. *)
Theorem resolved_sources_tagged (go : GoLib) (fs : FS) (environ : list string)
    (basePath : string) (opts : Options) (name : string) (v : Variable_)
    (s : Source) :
  ByName (fst (ResolveWithOptions go fs environ basePath opts)) !! name = Some v ->
  s ∈ Chain v ->
  tagged name s
  /\ (IsInline s = true <-> Layer_ s = LayerComposeInline)
  /\ (Layer_ s = LayerOSEnv -> IncludeOSEnv opts = true).
Proof.
  apply resolved_sources_tagged_facts.
Qed.

Lemma resolved_sources_tagged_witness :
  tagged "API_KEY" (osenv_Source "override_from_ambient").
Proof.
  eapply (resolved_sources_tagged go_lib fs_base_local environ_api "proj"
            opts_ambient "API_KEY").
  - vm_compute. reflexivity.
  - vm_compute. right. right. left.
Defined.

(** ** The list of variables *)

Lemma ingest_Variables go fs basePath : Variables (ingest go fs basePath) = [].
Proof. by apply (ingest_inv go fs (fun r => Variables r = [])). Qed.

Lemma StronglySorted_bool_filter {A} (R : relation A) (f : A -> bool) (l : list A) :
  StronglySorted R l -> StronglySorted R (List.filter f l).
Proof.
  induction 1 as [|x l Hs IH Hx]; cbn [List.filter]; [constructor|].
  destruct (f x); [|done]. constructor; [done|].
  apply Forall_forall. intros y Hy.
  apply list_elem_of_In, filter_In in Hy as [Hy _].
  rewrite Forall_forall in Hx. by apply Hx, list_elem_of_In.
Qed.

Lemma buildVariables_sorted go (r : Resolution) :
  Variables r = [] ->
  (forall k v, ByName r !! k = Some v -> Name v = k) ->
  StronglySorted String.le (Variables (buildVariables go r))
  /\ NoDup (Variables (buildVariables go r))
  /\ forall p, p ∈ Variables (buildVariables go r) <-> is_Some (ByName r !! p).
Proof.
  intros Hnil Hname.
  pose proof (buildVariables_Variables go r) as Hp.
  rewrite Hnil, app_nil_l in Hp.
  assert (forall p, p ∈ Variables (buildVariables go r)
                    <-> is_Some (ByName r !! p)) as Hin.
  { intros p. rewrite Hp, list_elem_of_fmap. split.
    - intros ([k v] & -> & Hkv). apply elem_of_map_to_list in Hkv. by exists v.
    - intros [v Hv]. exists (p, v). split; [done|].
      by apply elem_of_map_to_list. }
  split; [|split; [|done]].
  - assert (forall p, p ∈ Variables (buildVariables go r) ->
                      Name (deref (buildVariables go r) p) = p) as Hnm.
    { intros p [v Hv]%Hin. unfold deref.
      rewrite buildVariables_ByName, lookup_fmap, Hv. cbn.
      rewrite finalize_Name. by apply Hname. }
    assert (StronglySorted String.le
              ((fun p => Name (deref (buildVariables go r) p))
                 <$> Variables (buildVariables go r))) as Hs.
    { apply ascending_str_lt. rewrite buildVariables_unfold. cbn zeta.
      cbn [Variables set_Variables].
      apply (sort_Slice_sorted go ptr), (str_lt_strict_weak
        (fun p => Name (deref _ p))). }
    rewrite <- (list_fmap_id (Variables (buildVariables go r))).
    erewrite list_fmap_ext; [exact Hs|].
    intros i p Hp'. cbn. symmetry. apply Hnm. by eapply list_elem_of_lookup_2.
  - rewrite Hp. apply NoDup_fst_map_to_list.
Qed.

Lemma ResolveWithOptions_Variables go fs environ basePath opts :
  Variables (fst (ResolveWithOptions go fs environ basePath opts))
  = let vs := Variables (buildVariables go (ingest go fs basePath)) in
    if String.eqb (ServiceName opts) "" then vs
    else List.filter
           (fun p => usedByService (ServiceName opts)
                       (deref (fst (ResolveWithOptions go fs environ basePath
                                      opts)) p))
           vs.
Proof.
  assert (Variables (fst (ResolveWithOptions go fs environ basePath opts))
          = Variables (filtered go fs environ basePath opts)) as ->.
  { rewrite ResolveWithOptions_unfold. cbn zeta.
    destruct (StrictMode opts); [|done].
    destruct (0 <? _)%nat; cbn [fst]; apply findUndefinedVars_Variables. }
  assert (Variables (merged go fs environ basePath opts)
          = Variables (buildVariables go (ingest go fs basePath))) as Hm.
  { unfold merged. destruct (IncludeOSEnv opts); [|done].
    apply mergeOSEnv_frame. }
  unfold filtered. cbn zeta. destruct (String.eqb _ _) eqn:He; [done|].
  unfold filterToService. cbn [Variables set_Variables]. rewrite Hm.
  apply filter_ext. intros p. unfold deref.
  by rewrite ResolveWithOptions_ByName.
Qed.

Lemma Variables_sorted_by_name_facts (go : GoLib) (fs : FS) (environ : list string)
    (basePath : string) (opts : Options) :
  let r := fst (ResolveWithOptions go fs environ basePath opts) in
  StronglySorted String.le (Variables r)
  /\ NoDup (Variables r)
  /\ (forall p, p ∈ Variables r ->
        exists v, ByName r !! p = Some v /\ Name v = p)
  /\ (forall p v, ByName r !! p = Some v ->
        (p ∈ Variables r
         <-> ServiceName opts = ""
             \/ usedByService (ServiceName opts) v = true)).
Proof.
  cbn zeta.
  destruct (buildVariables_sorted go (ingest go fs basePath))
    as (Hs & Hnd & Hin).
  { apply ingest_Variables. }
  { intros k v Hv. destruct (fresh_ingest go fs basePath k v Hv) as [-> _].
    done. }
  assert (forall p, is_Some (ByName (ingest go fs basePath) !! p)
            <-> is_Some (ByName (fst (ResolveWithOptions go fs environ
                                        basePath opts)) !! p)) as Hkeys.
  { intros p. rewrite ResolveWithOptions_cell.
    by rewrite fmap_is_Some. }
  rewrite ResolveWithOptions_Variables. cbn zeta.
  destruct (String.eqb_spec (ServiceName opts) "") as [He|Hne].
  - split; [done|]. split; [done|]. split.
    + intros p [v Hv]%Hin%Hkeys. exists v. split; [done|].
      by apply (resolved_cell_facts go fs environ basePath opts p v).
    + intros p v Hv. split; [auto|]. intros _. apply Hin, Hkeys. eauto.
  - split; [by apply StronglySorted_bool_filter|].
    split; [by apply NoDup_ListNoDup, List.NoDup_filter, NoDup_ListNoDup|].
    split.
    + intros p Hp. apply list_elem_of_In, filter_In in Hp as [Hp _].
      apply list_elem_of_In, Hin, Hkeys in Hp as [v Hv]. exists v.
      split; [done|].
      by apply (resolved_cell_facts go fs environ basePath opts p v).
    + intros p v Hv. rewrite list_elem_of_In, filter_In, <- list_elem_of_In.
      assert (deref (fst (ResolveWithOptions go fs environ basePath opts)) p
              = v) as ->.
      { unfold deref. transitivity (default (new_Variable "") (Some v));
          [f_equal; exact Hv|done]. }
      rewrite Hin, Hkeys.
      split; [intros [_ ?]; auto|]. intros [?|?]; [done|]. split; [eauto|done].
Qed.

(** X9.  The list [Variables] of the returned resolution is in ascending
    order of name and without repetition, and each of its entries is a
    tracked variable.  Without a service filter it lists every tracked
    variable; with a filter it lists the tracked variables that have an
    observation of that service or of no service. *)
Theorem Variables_sorted_by_name (go : GoLib) (fs : FS) (environ : list string)
    (basePath : string) (opts : Options) :
  let r := fst (ResolveWithOptions go fs environ basePath opts) in
  StronglySorted String.le (Variables r)
  /\ NoDup (Variables r)
  /\ (forall p, p ∈ Variables r ->
        exists v, ByName r !! p = Some v /\ Name v = p)
  /\ (forall p v, ByName r !! p = Some v ->
        (p ∈ Variables r
         <-> ServiceName opts = ""
             \/ usedByService (ServiceName opts) v = true)).
Proof.
  apply Variables_sorted_by_name_facts.
Qed.

(** ** Conflicts *)

Lemma conflicts_loop_Conflicts (l : list (string * bool)) (v : Variable_) :
  Conflicts (foldl (fun v '(val, _) =>
                      if String.eqb val (FinalValue v) then v
                      else add_Conflict val v) v l)
  = Conflicts v
    ++ List.filter (fun val => negb (String.eqb val (FinalValue v))) l.*1.
Proof.
  revert v. induction l as [|[val b] l IH]; intros v; cbn [foldl].
  { cbn. by rewrite app_nil_r. }
  rewrite fmap_cons. cbn [fst List.filter].
  destruct (String.eqb val (FinalValue v)) eqn:He; cbn [negb]; [apply IH|].
  rewrite IH. cbn [Conflicts add_Conflict FinalValue].
  by rewrite <- app_assoc.
Qed.

Lemma finalize_Conflicts (go : GoLib) (v : Variable_) :
  Conflicts (finalize go v)
  = Conflicts v
    ++ (if (1 <? size (chain_values (sort_Slice go chain_less (Chain v))))%nat
        then List.filter
               (fun val => negb (String.eqb val (FinalValue (finalize go v))))
               (map_range go
                  (map_to_list
                     (chain_values (sort_Slice go chain_less (Chain v))))).*1
        else []).
Proof.
  rewrite finalize_FinalValue. unfold finalize. cbn [Chain set_Chain].
  destruct (last _) as [src|]; cbn [Chain set_Final set_Chain];
    destruct (1 <? size _)%nat; rewrite ?app_nil_r; try done;
    by rewrite conflicts_loop_Conflicts.
Qed.

(** X10.  For every variable of the returned resolution, [Conflicts] holds
    no value twice and never the empty string.  Without the ambient merge
    it holds exactly the non-empty values of the chain other than the final
    value, and only when the variable is overridden.  The ambient merge
    does not write [Conflicts]: the list is the one of the run without the
    merge, whatever the environment holds. *)
Theorem conflicts_spec (go : GoLib) (fs : FS) (environ : list string)
    (basePath : string) (opts : Options) (name : string) (v : Variable_) :
  ByName (fst (ResolveWithOptions go fs environ basePath opts)) !! name = Some v ->
  NoDup (Conflicts v)
  /\ ("" ∉ Conflicts v)
  /\ (IncludeOSEnv opts = false ->
      forall x, x ∈ Conflicts v
                <-> Overridden v = true /\ x <> "" /\ x <> FinalValue v
                    /\ exists s, s ∈ Chain v /\ Value s = x)
  /\ (forall environ' v0,
        ByName (fst (ResolveWithOptions go fs environ' basePath
                       (without_ambient opts))) !! name = Some v0 ->
        Conflicts v = Conflicts v0).
Proof.
  setoid_rewrite ResolveWithOptions_cell.
  cbn [IncludeOSEnv without_ambient]. intros Hv.
  destruct (ByName (ingest go fs basePath) !! name) as [v0|] eqn:Hv0; [|done].
  cbn in Hv. injection Hv as <-.
  destruct (fresh_ingest go fs basePath name v0 Hv0) as [Hfresh Hne].
  assert (Conflicts v0 = []) as Hc0 by (by rewrite Hfresh).
  assert (Overridden v0 = false) as Ho0 by (by rewrite Hfresh).
  set (vals := if IncludeOSEnv opts then _ else _).
  destruct (merge_cell_fold vals (finalize go v0)) as (_ & _ & HCo & _).
  cbn zeta in HCo. rewrite HCo.
  pose proof (finalize_Conflicts go v0) as HC. rewrite Hc0, app_nil_l in HC.
  set (values := chain_values (sort_Slice go chain_less (Chain v0))) in *.
  assert (NoDup (map_range go (map_to_list values)).*1) as Hnd.
  { rewrite (map_range_perm go). apply NoDup_fst_map_to_list. }
  assert (forall x, x ∈ (map_range go (map_to_list values)).*1
                    <-> x <> "" /\ exists s, s ∈ Chain v0 /\ Value s = x) as Hin.
  { intros x. rewrite (map_range_perm go).
    transitivity (is_Some (values !! x)).
    - rewrite list_elem_of_fmap. split.
      + intros ([k b] & -> & Hk). apply elem_of_map_to_list in Hk. by exists b.
      + intros [b Hb]. exists (x, b). split; [done|].
        by apply elem_of_map_to_list.
    - unfold values. rewrite chain_values_lookup.
      by setoid_rewrite (sort_Slice_perm go Source chain_less (Chain v0)). }
  assert (forall x, x ∈ Conflicts (finalize go v0)
            <-> Overridden (finalize go v0) = true /\ x <> ""
                /\ x <> FinalValue (finalize go v0)
                /\ exists s, s ∈ Chain v0 /\ Value s = x) as Hspec.
  { intros x. rewrite HC, finalize_Overridden, Ho0, orb_false_r.
    fold values. destruct (1 <? size values)%nat.
    - rewrite list_elem_of_In, filter_In, <- list_elem_of_In, Hin.
      rewrite negb_true_iff, String.eqb_neq. tauto.
    - split; [by inversion 1|]. by intros [? _]. }
  split; [|split; [|split]].
  - rewrite HC. destruct (1 <? size values)%nat; [|constructor].
    by apply NoDup_ListNoDup, List.NoDup_filter, NoDup_ListNoDup.
  - intros H. apply Hspec in H as (_ & ? & _). done.
  - intros Hos x. unfold vals. rewrite Hos. cbn [foldl].
    rewrite Hspec.
    by setoid_rewrite (proj1 (finalize_chain_sorted go v0)).
  - intros environ' v1 Hv1. cbn in Hv1. by injection Hv1 as <-.
Qed.

Lemma conflicts_spec_witness :
  Conflicts (deref (fst (ResolveWithOptions go_lib fs_base_local environ_api
                           "proj" opts_ambient)) "API_KEY")
  = ["from_base"]
  /\ NoDup (Conflicts (deref (fst (ResolveWithOptions go_lib fs_base_local
                                     environ_api "proj" opts_ambient))
                         "API_KEY")).
Proof.
  split; [by vm_compute|].
  eapply (conflicts_spec go_lib fs_base_local environ_api "proj" opts_ambient
            "API_KEY").
  vm_compute. reflexivity.
Defined.

(** ** The ambient merge, as a whole *)

(** X11.  The ambient merge tracks no new name and drops none: an entry of
    the environment whose name is not tracked, or that has no [=], is
    ignored.  A tracked variable to which the environment gives no value
    is left as it is; one to which it gives values gets them appended to
    its chain, in the order of the environment, the last one as final
    value; its name and its [Conflicts] are not written.  The list
    [Variables] and the report fields are not written either. *)
Theorem mergeOSEnv_spec (environ : list string) (r : Resolution) (name : string) :
  let r' := mergeOSEnv environ r in
  (is_Some (ByName r' !! name) <-> is_Some (ByName r !! name))
  /\ (forall v, ByName r !! name = Some v ->
        exists v', ByName r' !! name = Some v'
          /\ Name v' = Name v /\ Conflicts v' = Conflicts v
          /\ Chain v' = Chain v ++ (osenv_Source <$> environ_values name environ)
          /\ (environ_values name environ = [] -> v' = v)
          /\ (forall value, last (environ_values name environ) = Some value ->
                FinalValue v' = value /\ FinalFrom v' = osenv_Source value
                /\ Overridden v' = true))
  /\ Variables r' = Variables r /\ same_report r r'
  /\ Undefined r' = Undefined r.
Proof.
  cbn zeta. rewrite mergeOSEnv_lookup.
  destruct (mergeOSEnv_frame environ r) as (Hrep & HV & HU).
  split; [by rewrite fmap_is_Some|]. split; [|done].
  intros v Hv. rewrite Hv. cbn [fmap option_fmap option_map].
  eexists. split; [done|].
  destruct (merge_cell_fold (environ_values name environ) v)
    as (HN & HC & HCo & HF & HFV & HO).
  cbn zeta in *. split; [done|]. split; [done|]. split; [done|]. split.
  - by intros ->.
  - intros value Hl. rewrite HFV, HF, HO, Hl. split; [done|].
    apply last_Some in Hl as [l' Hl]. rewrite Hl, fmap_app.
    change (osenv_Source <$> [value]) with [osenv_Source value].
    rewrite last_snoc. split; [done|]. by destruct l'.
Qed.

Lemma mergeOSEnv_spec_witness :
  exists v',
    ByName (mergeOSEnv environ_api
              (buildVariables go_lib (ingest go_lib fs_base_local "proj")))
      !! "API_KEY" = Some v'
    /\ FinalValue v' = "override_from_ambient".
Proof.
  destruct (mergeOSEnv_spec environ_api
              (buildVariables go_lib (ingest go_lib fs_base_local "proj"))
              "API_KEY") as (_ & H & _).
  destruct (H (deref (buildVariables go_lib (ingest go_lib fs_base_local "proj"))
                 "API_KEY")) as (v' & Hv' & _ & _ & _ & _ & Hl).
  { vm_compute. reflexivity. }
  exists v'. split; [done|]. apply Hl. vm_compute. reflexivity.
Defined.

(** ** The service filter, as a whole *)

Lemma bool_filter_filter {A} (f g : A -> bool) (l : list A) :
  List.filter f (List.filter g l) = List.filter (fun x => g x && f x) l.
Proof.
  induction l as [|x l IH]; [done|]. cbn [List.filter].
  destruct (g x); cbn [List.filter andb]; [|done].
  by destruct (f x); rewrite IH.
Qed.

Lemma bool_filter_sublist {A} (f : A -> bool) (l : list A) :
  sublist (List.filter f l) l.
Proof.
  induction l as [|x l IH]; [constructor|]. cbn [List.filter].
  destruct (f x); by constructor.
Qed.

(** X12.  The service filter keeps the order of [Variables] and adds
    nothing to it; filtering twice by one service is filtering once, and
    two filters give the same list in either order. *)
Theorem filterToService_idempotent (s1 s2 : string) (r : Resolution) :
  sublist (Variables (filterToService s1 r)) (Variables r)
  /\ filterToService s1 (filterToService s1 r) = filterToService s1 r
  /\ filterToService s1 (filterToService s2 r)
     = filterToService s2 (filterToService s1 r).
Proof.
  split; [apply bool_filter_sublist|].
  unfold filterToService, set_Variables.
  cbn [Variables ByName Path EnvFiles ComposeFiles Warnings Undefined].
  unfold deref. cbn [ByName].
  split; f_equal; rewrite !bool_filter_filter; apply filter_ext; intros p.
  - by destruct (usedByService s1 _).
  - apply andb_comm.
Qed.

(** ** What the service filter drops *)

Lemma usedByService_spec (serviceName : string) (v : Variable_) :
  usedByService serviceName v = true
  <-> exists s, s ∈ Chain v /\ (Service s = serviceName \/ Service s = "").
Proof.
  unfold usedByService. rewrite existsb_exists. split.
  - intros (s & Hs & H). exists s. split; [by apply list_elem_of_In|].
    apply orb_true_iff in H as [H|H]; apply String.eqb_eq in H; auto.
  - intros (s & Hs & H). exists s. split; [by apply list_elem_of_In|].
    apply orb_true_iff. destruct H as [H|H]; [left|right];
      by apply String.eqb_eq.
Qed.

(** X13.  A variable with an observation from a plain env file or from the
    ambient environment is listed whatever the service filter is.  A
    tracked variable is missing from [Variables] only when a filter is set
    and every observation of it belongs to another service, and then every
    observation comes from a manifest; the variable stays in the index
    [ByName] all the same. *)
Theorem filter_drops_only_other_services (go : GoLib) (fs : FS)
    (environ : list string) (basePath : string) (opts : Options)
    (name : string) (v : Variable_) :
  let r := fst (ResolveWithOptions go fs environ basePath opts) in
  ByName r !! name = Some v ->
  ((exists s, s ∈ Chain v /\ (env_layer (Layer_ s) \/ Layer_ s = LayerOSEnv)) ->
   name ∈ Variables r)
  /\ (name ∉ Variables r
      <-> ServiceName opts <> ""
          /\ forall s, s ∈ Chain v ->
               Service s <> ServiceName opts /\ Service s <> ""
               /\ (Layer_ s = LayerComposeEnvFile
                   \/ Layer_ s = LayerComposeInline)).
Proof.
  cbn zeta. intros Hv.
  destruct (Variables_sorted_by_name_facts go fs environ basePath opts)
    as (_ & _ & _ & Hin).
  specialize (Hin name v Hv). rewrite usedByService_spec in Hin.
  assert (forall s, s ∈ Chain v -> Service s <> "" ->
            Layer_ s = LayerComposeEnvFile \/ Layer_ s = LayerComposeInline)
    as Hscoped.
  { intros s Hs Hne.
    destruct (resolved_sources_tagged_facts go fs environ basePath opts name
                v s Hv Hs) as (Ht & _).
    unfold tagged in Ht. destruct (Layer_ s); intuition. }
  split.
  - intros (s & Hs & Hl). apply Hin. right. exists s. split; [done|]. right.
    destruct (String.eqb_spec (Service s) "") as [|Hne]; [done|].
    destruct (Hscoped s Hs Hne) as [H|H], Hl as [[?|[?|[?|?]]]|?]; congruence.
  - rewrite Hin. split.
    + intros Hnot. split; [tauto|]. intros s Hs.
      assert (Service s <> "") as Hne.
      { intros He. apply Hnot. right. eauto. }
      split; [|split; [done|by apply Hscoped]].
      intros He. apply Hnot. right. eauto.
    + intros [Hne Hall] [He|(s & Hs & [He|He])]; [done| |];
        destruct (Hall s Hs) as (? & ? & _); done.
Qed.

Lemma filter_drops_only_other_services_witness :
  "API_KEY" ∈ Variables (fst (ResolveWithOptions go_lib fs_base_local
                                environ_api "proj" opts_ambient)).
Proof.
  eapply (filter_drops_only_other_services go_lib fs_base_local environ_api
            "proj" opts_ambient "API_KEY").
  - vm_compute. reflexivity.
  - exists (osenv_Source "override_from_ambient"). split.
    + vm_compute. right. right. left.
    + right. reflexivity.
Defined.

(** ** The list of undefined variables *)

Lemma resolved_final go fs environ basePath opts (name : string) (v : Variable_) :
  ByName (fst (ResolveWithOptions go fs environ basePath opts)) !! name = Some v ->
  FinalValue v = Value (FinalFrom v) /\ FinalFrom v ∈ Chain v.
Proof.
  rewrite ResolveWithOptions_cell. intros Hv.
  destruct (ByName (ingest go fs basePath) !! name) as [v0|] eqn:Hv0; [|done].
  cbn in Hv. injection Hv as <-.
  destruct (fresh_ingest go fs basePath name v0 Hv0) as [_ Hne].
  set (vals := if IncludeOSEnv opts then _ else _).
  destruct (merged_cell_final go v0 vals Hne) as [HV [Hw _]]. done.
Qed.

Lemma ResolveWithOptions_Undefined go fs environ basePath opts :
  let r := fst (ResolveWithOptions go fs environ basePath opts) in
  Undefined r
  = if StrictMode opts
    then List.filter (fun p => isUndefined (deref r p)) (Variables r)
    else [].
Proof.
  cbn zeta.
  destruct (Variables_sorted_by_name_facts go fs environ basePath opts)
    as (_ & _ & Hname & _).
  revert Hname. rewrite ResolveWithOptions_unfold. cbn zeta.
  destruct (filtered_frame go fs environ basePath opts) as [_ Hu].
  rewrite ingest_Undefined in Hu.
  destruct (StrictMode opts); [|done].
  set (r := filtered go fs environ basePath opts) in *.
  assert (forall R, R = findUndefinedVars r ->
            (forall p, p ∈ Variables R ->
               exists v, ByName R !! p = Some v /\ Name v = p) ->
            Undefined R
            = List.filter (fun p => isUndefined (deref R p)) (Variables R))
    as Hgen.
  { intros R -> Hname.
    rewrite findUndefinedVars_Undefined, Hu, app_nil_l.
    rewrite findUndefinedVars_Variables in *.
    assert (forall p, deref (findUndefinedVars r) p = deref r p) as Hd.
    { intros p. unfold deref. by rewrite findUndefinedVars_ByName. }
    rewrite (filter_ext (fun p => isUndefined (deref (findUndefinedVars r) p))
               (fun p => isUndefined (deref r p)))
      by (intros p; by rewrite Hd).
    rewrite <- (list_fmap_id (List.filter _ _)) at 2.
    apply list_fmap_ext. intros i p Hp. cbn.
    apply list_elem_of_lookup_2, list_elem_of_In, filter_In in Hp as [Hp _].
    apply list_elem_of_In, Hname in Hp as (v & Hv & Hn).
    rewrite findUndefinedVars_ByName in Hv. unfold deref.
    transitivity (Name (default (new_Variable "") (Some v)));
      [do 2 f_equal; exact Hv|done]. }
  destruct (0 <? _)%nat; cbn [fst]; intros Hname; by apply Hgen.
Qed.

(** X14.  Without strict mode [Undefined] is empty.  Under strict mode it
    lists, in the order of [Variables] and so in ascending order of name
    and without repetition, exactly the listed variables all of whose
    observations carry the empty value; a variable the service filter
    dropped is never reported. *)
Theorem Undefined_spec (go : GoLib) (fs : FS) (environ : list string)
    (basePath : string) (opts : Options) :
  let r := fst (ResolveWithOptions go fs environ basePath opts) in
  (StrictMode opts = false -> Undefined r = [])
  /\ sublist (Undefined r) (Variables r)
  /\ StronglySorted String.le (Undefined r)
  /\ NoDup (Undefined r)
  /\ (StrictMode opts = true ->
      forall name v, ByName r !! name = Some v ->
        (name ∈ Undefined r
         <-> name ∈ Variables r /\ forall s, s ∈ Chain v -> Value s = "")).
Proof.
  cbn zeta.
  destruct (Variables_sorted_by_name_facts go fs environ basePath opts)
    as (Hs & Hnd & _ & _).
  pose proof (ResolveWithOptions_Undefined go fs environ basePath opts) as HU.
  cbn zeta in *. rewrite HU.
  destruct (StrictMode opts).
  - split; [done|]. split; [apply bool_filter_sublist|].
    split; [by apply StronglySorted_bool_filter|].
    split; [by apply NoDup_ListNoDup, List.NoDup_filter, NoDup_ListNoDup|].
    intros _ name v Hv.
    rewrite list_elem_of_In, filter_In, <- list_elem_of_In.
    assert (deref (fst (ResolveWithOptions go fs environ basePath opts)) name
            = v) as ->.
    { unfold deref. transitivity (default (new_Variable "") (Some v));
        [f_equal; exact Hv|done]. }
    rewrite isUndefined_spec. apply and_iff_compat_l.
    split; [tauto|]. intros Hall. split; [|done].
    destruct (resolved_final _ _ _ _ _ _ _ Hv) as [-> Hin]. by apply Hall.
  - split; [done|]. split; [apply sublist_nil_l|].
    split; [constructor|]. split; [constructor|]. done.
Qed.

Lemma Undefined_spec_witness :
  "REF_A" ∈ Undefined (fst (ResolveWithOptions go_lib fs_two_refs [] "proj"
                              opts_strict_a))
  /\ "REF_B" ∉ Undefined (fst (ResolveWithOptions go_lib fs_two_refs [] "proj"
                                 opts_strict_a)).
Proof.
  pose proof (Undefined_spec go_lib fs_two_refs [] "proj" opts_strict_a)
    as (_ & _ & _ & _ & H).
  specialize (H eq_refl). split.
  - apply (H "REF_A" (deref (fst (ResolveWithOptions go_lib fs_two_refs []
                                    "proj" opts_strict_a)) "REF_A")).
    + vm_compute. reflexivity.
    + split; [vm_compute; left|]. intros s Hs. vm_compute in Hs.
      apply list_elem_of_singleton in Hs as ->. reflexivity.
  - intros Hin.
    apply (H "REF_B" (deref (fst (ResolveWithOptions go_lib fs_two_refs []
                                    "proj" opts_strict_a)) "REF_B")) in Hin.
    + destruct Hin as [Hin _]. vm_compute in Hin.
      apply list_elem_of_singleton in Hin. discriminate.
    + vm_compute. reflexivity.
Defined.

(** ** Comparison, as a whole *)

Lemma finalValues_is_Some (r : Resolution) (n : string) :
  is_Some (finalValues r !! n)
  <-> exists p, p ∈ Variables r /\ Name (deref r p) = n.
Proof.
  unfold finalValues. generalize (Variables r) as l. intros l.
  induction l as [|p l IH] using rev_ind.
  - cbn [foldl]. rewrite lookup_empty. split; [by intros [? ?]|].
    intros (p & Hp & _). by inv Hp.
  - rewrite foldl_app. cbn [foldl].
    destruct (decide (Name (deref r p) = n)) as [He|Hne].
    + rewrite He, lookup_insert_eq. split; [|eauto]. intros _. exists p.
      split; [|done]. apply elem_of_app. right. left.
    + rewrite lookup_insert_ne by done. rewrite IH.
      split; intros (q & Hq & Hn).
      * exists q. split; [|done]. apply elem_of_app. by left.
      * exists q. split; [|done]. apply elem_of_app in Hq as [Hq|Hq]; [done|].
        apply list_elem_of_singleton in Hq as ->. done.
Qed.

Lemma finalValues_lookup (r : Resolution) (n : string) :
  (forall p, p ∈ Variables r -> Name (deref r p) = p) ->
  finalValues r !! n
  = if decide (n ∈ Variables r) then Some (FinalValue (deref r n)) else None.
Proof.
  unfold finalValues. generalize (Variables r) as l. intros l.
  induction l as [|p l IH] using rev_ind; intros Hk.
  - cbn [foldl]. rewrite lookup_empty.
    destruct (decide _) as [H|]; [by inv H|done].
  - rewrite foldl_app. cbn [foldl].
    rewrite (Hk p) by (apply elem_of_app; right; left).
    destruct (decide (p = n)) as [->|Hne].
    + rewrite lookup_insert_eq. rewrite decide_True; [done|].
      apply elem_of_app. right. left.
    + rewrite lookup_insert_ne by done.
      rewrite IH by (intros q Hq; apply Hk, elem_of_app; by left).
      destruct (decide (n ∈ l)) as [Hin|Hnin].
      * rewrite decide_True; [done|]. apply elem_of_app. by left.
      * rewrite decide_False; [done|]. intros [Hin|Hin]%elem_of_app; [done|].
        apply list_elem_of_singleton in Hin. congruence.
Qed.

Lemma Compare_elem (go : GoLib) (first second : Resolution) :
  let c := Compare go first second in
  let a := finalValues first in
  let b := finalValues second in
  (forall n, n ∈ OnlyInFirst c <-> is_Some (a !! n) /\ b !! n = None)
  /\ (forall n, n ∈ OnlyInSecond c <-> is_Some (b !! n) /\ a !! n = None)
  /\ (forall d, d ∈ Different c
        <-> a !! DiffName d = Some (FirstValue d)
            /\ b !! DiffName d = Some (SecondValue d)
            /\ FirstValue d <> SecondValue d)
  /\ (forall n, n ∈ Same c <-> exists v, a !! n = Some v /\ b !! n = Some v).
Proof.
  cbn zeta. rewrite Compare_unfold. cbn zeta.
  cbn [OnlyInFirst OnlyInSecond Different Same].
  split; [|split; [|split]].
  - intros n. rewrite sort_Strings_perm. apply elem_only.
  - intros n. rewrite sort_Strings_perm. apply elem_only.
  - intros d. rewrite sort_Slice_perm. apply elem_diff.
  - intros n. rewrite sort_Strings_perm. apply elem_same.
Qed.

(** X15.  The four lists of a comparison partition the names: a name that
    either side lists is in exactly one of [OnlyInFirst], [OnlyInSecond],
    [Different] and [Same], once, and the lists hold no other name.  The
    names of the first side are those of [OnlyInFirst], [Different] and
    [Same]; a pair of [Different] holds the two final values, which
    differ. *)
Theorem Compare_partition (go : GoLib) (first second : Resolution) :
  let c := Compare go first second in
  let a := finalValues first in
  let b := finalValues second in
  NoDup (OnlyInFirst c ++ OnlyInSecond c ++ (DiffName <$> Different c)
         ++ Same c)
  /\ (forall n, n ∈ OnlyInFirst c ++ OnlyInSecond c
                    ++ (DiffName <$> Different c) ++ Same c
                <-> is_Some (a !! n) \/ is_Some (b !! n))
  /\ OnlyInFirst c ++ (DiffName <$> Different c) ++ Same c
     ≡ₚ (map_to_list a).*1
  /\ (forall d, d ∈ Different c ->
        a !! DiffName d = Some (FirstValue d)
        /\ b !! DiffName d = Some (SecondValue d)
        /\ FirstValue d <> SecondValue d).
Proof.
  cbn zeta.
  destruct (Compare_elem go first second) as (H1 & H2 & HD & HS).
  cbn zeta in *.
  assert (NoDup (OnlyInFirst (Compare go first second))
          /\ NoDup (OnlyInSecond (Compare go first second))
          /\ NoDup (DiffName <$> Different (Compare go first second))
          /\ NoDup (Same (Compare go first second))) as (N1 & N2 & ND & NS).
  { rewrite Compare_unfold. cbn zeta.
    cbn [OnlyInFirst OnlyInSecond Different Same].
    rewrite !sort_Strings_perm, sort_Slice_perm.
    split; [apply NoDup_only|]. split; [apply NoDup_only|].
    split; [|apply NoDup_same].
    set (l := map_range go (map_to_list (finalValues first))).
    assert (NoDup l.*1) as Hnd by apply range_NoDup.
    clearbody l. induction l as [|e l IH]; [constructor|].
    rewrite fmap_cons in Hnd. apply NoDup_cons in Hnd as [Hnot Hnd].
    rewrite omap_cons. destruct (diff_of _ e) as [d|] eqn:Hd; [|by apply IH].
    rewrite fmap_cons. apply NoDup_cons. split; [|by apply IH].
    assert (DiffName d = e.1) as Hn.
    { unfold diff_of in Hd. destruct (_ !! e.1); [|done].
      destruct (negb _); [|done]. by injection Hd as <-. }
    intros Hin. apply list_elem_of_fmap in Hin as (d' & Hn' & Hin).
    apply list_elem_of_omap in Hin as (e' & He' & Hd').
    apply Hnot. rewrite <- Hn, Hn'. apply list_elem_of_fmap. exists e'.
    split; [|done].
    unfold diff_of in Hd'. destruct (_ !! e'.1); [|done].
    destruct (negb _); [|done]. by injection Hd' as <-. }
  assert (forall n, n ∈ DiffName <$> Different (Compare go first second)
            <-> exists x y, finalValues first !! n = Some x
                  /\ finalValues second !! n = Some y /\ x <> y) as HDn.
  { intros n. rewrite list_elem_of_fmap. split.
    - intros (d & -> & Hd). apply HD in Hd. eauto.
    - intros (x & y & Hx & Hy & Hne).
      exists {| DiffName := n; FirstValue := x; SecondValue := y |}.
      split; [done|]. by apply HD. }
  split; [|split; [|split]].
  - apply NoDup_app. split; [done|]. split.
    { intros n Hn. apply H1 in Hn as [[x Hx] Hb].
      rewrite !elem_of_app, H2, HDn, HS.
      intros [[_ Ha]|[(? & ? & _ & ? & _)|(? & _ & ?)]]; congruence. }
    apply NoDup_app. split; [done|]. split.
    { intros n Hn. apply H2 in Hn as [[y Hy] Ha].
      rewrite !elem_of_app, HDn, HS.
      intros [(? & ? & ? & _)|(? & ? & _)]; congruence. }
    apply NoDup_app. split; [done|]. split; [|done].
    intros n Hn. apply HDn in Hn as (x & y & Hx & Hy & Hne).
    rewrite HS. intros (v & ? & ?). congruence.
  - intros n. rewrite !elem_of_app, H1, H2, HDn, HS. split.
    + intros [[? _]|[[? _]|[(x & ? & -> & _)|(v & -> & _)]]]; eauto.
    + destruct (finalValues first !! n) as [x|] eqn:Hx,
               (finalValues second !! n) as [y|] eqn:Hy.
      * intros _. destruct (decide (x = y)) as [->|Hne].
        -- right. right. right. eauto.
        -- right. right. left. eauto 6.
      * intros _. left. eauto.
      * intros _. right. left. eauto.
      * intros [[? ?]|[? ?]]; done.
  - apply NoDup_Permutation.
    + apply NoDup_app. split; [done|]. split.
      { intros n Hn. apply H1 in Hn as [[x Hx] Hb].
        rewrite !elem_of_app, HDn, HS.
        intros [(? & ? & _ & ? & _)|(? & _ & ?)]; congruence. }
      apply NoDup_app. split; [done|]. split; [|done].
      intros n Hn. apply HDn in Hn as (x & y & Hx & Hy & Hne).
      rewrite HS. intros (v & ? & ?). congruence.
    + apply NoDup_fst_map_to_list.
    + intros n. rewrite !elem_of_app, H1, HDn, HS, list_elem_of_fmap. split.
      * intros [[[x Hx] _]|[(x & ? & Hx & _)|(x & Hx & _)]];
          exists (n, x); (split; [done|]); by apply elem_of_map_to_list.
      * intros ([k x] & -> & Hx). apply elem_of_map_to_list in Hx.
        cbn [fst]. destruct (finalValues second !! k) as [y|] eqn:Hy.
        -- destruct (decide (x = y)) as [->|Hne]; [right; right; eauto|].
           right. left. eauto 6.
        -- left. eauto.
  - intros d Hd. by apply HD.
Qed.

(** X16.  Comparing a resolution with itself reports nothing on one side
    only and no difference; [Same] lists, once each, the names its
    variables carry. *)
Theorem Compare_self (go : GoLib) (r : Resolution) :
  let c := Compare go r r in
  OnlyInFirst c = [] /\ OnlyInSecond c = [] /\ Different c = []
  /\ NoDup (Same c)
  /\ forall n, n ∈ Same c <-> exists p, p ∈ Variables r /\ Name (deref r p) = n.
Proof.
  cbn zeta.
  destruct (Compare_elem go r r) as (H1 & H2 & HD & HS). cbn zeta in *.
  split; [|split; [|split; [|split]]].
  - apply elem_of_nil_inv. intros n [[x Hx] Hn]%H1. congruence.
  - apply elem_of_nil_inv. intros n [[x Hx] Hn]%H2. congruence.
  - apply elem_of_nil_inv. intros d (Hx & Hy & Hne)%HD. congruence.
  - rewrite Compare_unfold. cbn zeta. cbn [Same].
    rewrite sort_Strings_perm. apply NoDup_same.
  - intros n. rewrite HS, <- finalValues_is_Some. split.
    + intros (v & Hv & _). eauto.
    + intros [v Hv]. eauto.
Qed.

(** X17.  Comparing two returned resolutions compares their lists
    [Variables]: a name is in [OnlyInFirst] when the first lists it and the
    second does not, in [Same] when both list it with equal final values,
    and [Different] holds one pair for every name both list with final
    values that differ, with the value of the first side first. *)
Theorem Compare_resolved (go go1 go2 : GoLib) (fs1 fs2 : FS)
    (environ1 environ2 : list string) (base1 base2 : string)
    (opts1 opts2 : Options) :
  let r1 := fst (ResolveWithOptions go1 fs1 environ1 base1 opts1) in
  let r2 := fst (ResolveWithOptions go2 fs2 environ2 base2 opts2) in
  let c := Compare go r1 r2 in
  (forall n, n ∈ OnlyInFirst c <-> n ∈ Variables r1 /\ n ∉ Variables r2)
  /\ (forall n, n ∈ OnlyInSecond c <-> n ∈ Variables r2 /\ n ∉ Variables r1)
  /\ (forall n, n ∈ Same c
        <-> n ∈ Variables r1 /\ n ∈ Variables r2
            /\ FinalValue (deref r1 n) = FinalValue (deref r2 n))
  /\ (forall d, d ∈ Different c
        <-> DiffName d ∈ Variables r1 /\ DiffName d ∈ Variables r2
            /\ FirstValue d = FinalValue (deref r1 (DiffName d))
            /\ SecondValue d = FinalValue (deref r2 (DiffName d))
            /\ FirstValue d <> SecondValue d).
Proof.
  cbn zeta.
  set (r1 := fst (ResolveWithOptions go1 fs1 environ1 base1 opts1)).
  set (r2 := fst (ResolveWithOptions go2 fs2 environ2 base2 opts2)).
  assert (forall n, finalValues r1 !! n
            = if decide (n ∈ Variables r1)
              then Some (FinalValue (deref r1 n)) else None) as L1.
  { intros n. apply finalValues_lookup. intros p Hp.
    destruct (Variables_sorted_by_name_facts go1 fs1 environ1 base1 opts1)
      as (_ & _ & Hname & _).
    destruct (Hname p Hp) as (v & Hv & Hn). unfold deref.
    transitivity (Name (default (new_Variable "") (Some v)));
      [do 2 f_equal; exact Hv|done]. }
  assert (forall n, finalValues r2 !! n
            = if decide (n ∈ Variables r2)
              then Some (FinalValue (deref r2 n)) else None) as L2.
  { intros n. apply finalValues_lookup. intros p Hp.
    destruct (Variables_sorted_by_name_facts go2 fs2 environ2 base2 opts2)
      as (_ & _ & Hname & _).
    destruct (Hname p Hp) as (v & Hv & Hn). unfold deref.
    transitivity (Name (default (new_Variable "") (Some v)));
      [do 2 f_equal; exact Hv|done]. }
  destruct (Compare_elem go r1 r2) as (H1 & H2 & HD & HS). cbn zeta in *.
  split; [|split; [|split]].
  - intros n. rewrite H1, L1, L2. repeat case_decide; split;
      try (intros [[? ?] ?]; done); try (intros [? ?]; done);
      try (intros _; split; [eauto|done]).
  - intros n. rewrite H2, L1, L2. repeat case_decide; split;
      try (intros [[? ?] ?]; done); try (intros [? ?]; done);
      try (intros _; split; [eauto|done]).
  - intros n. rewrite HS, L1, L2. repeat case_decide; split;
      try (intros (? & ? & ?); done).
    + intros (v & [= <-] & [= <-]). done.
    + intros (_ & _ & ->). eauto.
  - intros d. rewrite HD, L1, L2. repeat case_decide; split;
      try (intros (? & ? & ?); done).
    + intros ([= <-] & [= <-] & Hne). done.
    + intros (_ & _ & -> & -> & Hne). done.
Qed.

(** ** The report of a run *)

Lemma warn_report what (res : Resolution * option string) :
  Path (warn what res) = Path (fst res)
  /\ EnvFiles (warn what res) = EnvFiles (fst res)
  /\ ComposeFiles (warn what res) = ComposeFiles (fst res)
  /\ Warnings (warn what res)
     = Warnings (fst res) ++ option_list (warning what <$> snd res).
Proof.
  destruct res as [r [err|]]; cbn; [done|]. by rewrite app_nil_r.
Qed.

Lemma foldl_found {X} (step : Resolution -> X -> Resolution)
    (files other : Resolution -> list string) (err : string -> option string)
    (f : X -> option (string * string)) (l : list X) (r : Resolution) :
  (forall r x,
     Path (step r x) = Path r
     /\ files (step r x) = files r ++ (option_list (f x)).*2
     /\ other (step r x) = other r
     /\ Warnings (step r x)
        = Warnings r ++ warnings_of err (option_list (f x))) ->
  Path (foldl step r l) = Path r
  /\ files (foldl step r l) = files r ++ (omap f l).*2
  /\ other (foldl step r l) = other r
  /\ Warnings (foldl step r l) = Warnings r ++ warnings_of err (omap f l).
Proof.
  intros Hstep. revert r. induction l as [|x l IH]; intros r; cbn [foldl].
  { cbn. by rewrite !app_nil_r. }
  destruct (IH (step r x)) as (-> & -> & -> & ->).
  destruct (Hstep r x) as (-> & -> & -> & ->).
  rewrite omap_cons. unfold warnings_of.
  destruct (f x) as [e|]; cbn [option_list].
  - change (option_list (Some e)) with [e]. rewrite !omap_cons.
    rewrite <- !app_assoc. split; [done|]. split; [done|]. split; [done|].
    f_equal. by destruct (warning e.1 <$> err e.2).
  - cbn. by rewrite !app_nil_r.
Qed.

Section Report.

Context (go : GoLib) (fs : FS) (basePath : string).

Lemma parseEnvFile_report path layer r :
  same_report r (fst (parseEnvFile go fs path layer r)).
Proof.
  rewrite parseEnvFile_obs. apply (addSources_chain_facts _ r "").
Qed.

Lemma parseComposeFile_report path r :
  same_report r (fst (parseComposeFile go fs path r)).
Proof.
  rewrite parseComposeFile_obs. apply (addSources_chain_facts _ r "").
Qed.

Lemma env_file_report what path layer r :
  let r' := warn what (parseEnvFile go fs path layer (add_EnvFile path r)) in
  Path r' = Path r
  /\ EnvFiles r' = EnvFiles r ++ [path]
  /\ ComposeFiles r' = ComposeFiles r
  /\ Warnings r' = Warnings r ++ warnings_of (env_error fs) [(what, path)].
Proof.
  cbn zeta.
  destruct (warn_report what (parseEnvFile go fs path layer (add_EnvFile path r)))
    as (-> & -> & -> & ->).
  destruct (parseEnvFile_report path layer (add_EnvFile path r))
    as (-> & -> & -> & ->).
  rewrite snd_parseEnvFile. unfold warnings_of. rewrite omap_cons.
  cbn [fst snd]. by destruct (env_error fs path).
Qed.

Lemma compose_file_report what path r :
  let r' := warn what (parseComposeFile go fs path (add_ComposeFile path r)) in
  Path r' = Path r
  /\ ComposeFiles r' = ComposeFiles r ++ [path]
  /\ EnvFiles r' = EnvFiles r
  /\ Warnings r' = Warnings r ++ warnings_of (compose_error fs) [(what, path)].
Proof.
  cbn zeta.
  destruct (warn_report what
              (parseComposeFile go fs path (add_ComposeFile path r)))
    as (-> & -> & -> & ->).
  destruct (parseComposeFile_report path (add_ComposeFile path r))
    as (-> & -> & -> & ->).
  rewrite snd_parseComposeFile. unfold warnings_of. rewrite omap_cons.
  cbn [fst snd]. by destruct (compose_error fs path).
Qed.

Lemma omap_filter_Some {X Y} (P : X -> bool) (g : X -> Y) (l : list X) :
  omap (fun x => if P x then Some (g x) else None) l = g <$> List.filter P l.
Proof.
  induction l as [|x l IH]; [done|]. rewrite omap_cons. cbn [List.filter].
  destruct (P x); [|done]. by rewrite fmap_cons, IH.
Qed.

Lemma ingest_report :
  let r := ingest go fs basePath in
  Path r = basePath
  /\ EnvFiles r = (found_env go fs basePath).*2
  /\ ComposeFiles r = (found_compose go fs basePath).*2
  /\ Warnings r
     = warnings_of (env_error fs) (found_env go fs basePath)
       ++ warnings_of (compose_error fs) (found_compose go fs basePath).
Proof.
  cbn zeta. rewrite ingest_unfold.
  set (r1 := foldl (envPattern_step go fs basePath) _ _).
  set (r2 := foldl (other_step go fs basePath) _ _).
  destruct (foldl_found (envPattern_step go fs basePath) EnvFiles ComposeFiles
              (env_error fs)
              (fun e : string * Layer =>
                 match Stat fs (filepath_Join go basePath e.1) with
                 | Some _ => Some (e.1, filepath_Join go basePath e.1)
                 | None => None
                 end) envPatterns (empty_Resolution basePath))
    as (P1 & E1 & C1 & W1).
  { intros r [pattern layer]. unfold envPattern_step. cbn [fst].
    destruct (Stat fs _); [apply env_file_report|].
    cbn. by rewrite !app_nil_r. }
  destruct (foldl_found (other_step go fs basePath) EnvFiles ComposeFiles
              (env_error fs)
              (fun name => if other_variant name
                           then Some (name, filepath_Join go basePath name)
                           else None) (ReadDir fs basePath) r1)
    as (P2 & E2 & C2 & W2).
  { intros r name. unfold other_step.
    change (HasPrefix name ".env." && negb (String.eqb name ".env.example")
            && negb (String.eqb name ".env.local")) with (other_variant name).
    destruct (other_variant name); [apply env_file_report|].
    cbn. by rewrite !app_nil_r. }
  destruct (foldl_found (compose_step go fs basePath) ComposeFiles EnvFiles
              (compose_error fs)
              (fun pattern =>
                 match Stat fs (filepath_Join go basePath pattern) with
                 | Some _ => Some (pattern, filepath_Join go basePath pattern)
                 | None => None
                 end) composePatterns r2)
    as (P3 & C3 & E3 & W3).
  { intros r pattern. unfold compose_step.
    destruct (Stat fs _); [apply compose_file_report|].
    cbn. by rewrite !app_nil_r. }
  fold r1 in P1, E1, C1, W1. fold r2 in P2, E2, C2, W2.
  rewrite omap_filter_Some in E2, W2.
  rewrite P3, P2, P1, E3, E2, E1, C3, C2, C1, W3, W2, W1.
  unfold found_env, found_compose, warnings_of.
  cbn [empty_Resolution Path EnvFiles ComposeFiles Warnings app].
  rewrite fmap_app, omap_app, <- app_assoc. done.
Qed.

End Report.

Lemma report_spec_facts (go : GoLib) (fs : FS) (environ : list string)
    (basePath : string) (opts : Options) :
  let r := fst (ResolveWithOptions go fs environ basePath opts) in
  Path r = basePath
  /\ EnvFiles r = (found_env go fs basePath).*2
  /\ ComposeFiles r = (found_compose go fs basePath).*2
  /\ Warnings r
     = warnings_of (env_error fs) (found_env go fs basePath)
       ++ warnings_of (compose_error fs) (found_compose go fs basePath)
  /\ length (Warnings r) <= length (EnvFiles r) + length (ComposeFiles r).
Proof.
  cbn zeta.
  assert (same_report (ingest go fs basePath)
            (fst (ResolveWithOptions go fs environ basePath opts)))
    as (HP & HE & HC & HW).
  { rewrite ResolveWithOptions_unfold. cbn zeta.
    destruct (filtered_frame go fs environ basePath opts) as [Hf _].
    destruct (StrictMode opts); [|done].
    eapply same_report_trans; [exact Hf|].
    destruct (findUndefinedVars_fold (filtered go fs environ basePath opts)
                (Variables (filtered go fs environ basePath opts))
                (filtered go fs environ basePath opts))
      as (_ & _ & ? & ? & ? & ? & _).
    by destruct (0 <? _)%nat. }
  destruct (ingest_report go fs basePath) as (P & E & C & W).
  cbn zeta in *. rewrite HP, HE, HC, HW, P, E, C, W.
  repeat (split; [done|]).
  assert (forall err l, length (warnings_of err l) <= length l) as Hlen.
  { intros err l. unfold warnings_of. induction l as [|e l IH]; [done|].
    rewrite omap_cons.
    destruct (warning e.1 <$> err e.2); cbn [length]; lia. }
  rewrite length_app, !length_fmap.
  pose proof (Hlen (env_error fs) (found_env go fs basePath)).
  pose proof (Hlen (compose_error fs) (found_compose go fs basePath)). lia.
Qed.

(** X18.  The report of a run: [Path] is the directory; [EnvFiles] lists
    the paths of the env files found, template, base and local override
    first, then the other variants in the order of the listing;
    [ComposeFiles] lists the manifests found, in the fixed order of their
    names; a file is listed whether or not it can be read.  [Warnings]
    holds one warning for each listed artifact that fails and nothing else,
    env files before manifests, so there are never more warnings than
    artifacts.  None of this depends on the environment or the options. *)
Theorem report_spec (go : GoLib) (fs : FS) (environ : list string)
    (basePath : string) (opts : Options) :
  let r := fst (ResolveWithOptions go fs environ basePath opts) in
  Path r = basePath
  /\ EnvFiles r = (found_env go fs basePath).*2
  /\ ComposeFiles r = (found_compose go fs basePath).*2
  /\ Warnings r
     = warnings_of (env_error fs) (found_env go fs basePath)
       ++ warnings_of (compose_error fs) (found_compose go fs basePath)
  /\ length (Warnings r) <= length (EnvFiles r) + length (ComposeFiles r).
Proof.
  apply report_spec_facts.
Qed.

(** ** The declarations of a manifest *)

Lemma cut_eq_spec (s : string) :
  match cut_eq s with
  | Some (k, v) => s = k +:+ "=" +:+ v /\ no_eq k
  | None => no_eq s
  end.
Proof.
  induction s as [|c s IH]; cbn [cut_eq].
  { apply not_elem_of_nil. }
  destruct (Ascii.eqb_spec c "="%char) as [->|Hne].
  { split; [done|]. apply not_elem_of_nil. }
  destruct (cut_eq s) as [[k v]|].
  - destruct IH as [-> Hk]. split; [done|].
    unfold no_eq. cbn [list_ascii_of_string]. apply not_elem_of_cons. auto.
  - unfold no_eq. cbn [list_ascii_of_string]. apply not_elem_of_cons. auto.
Qed.

Lemma envFile_files_items (items : list elem) :
  envFile_files (ISlice items) = item_strings items.
Proof.
  unfold envFile_files, item_strings.
  assert (forall acc,
            foldl (fun files f =>
                     match f with EString s => files ++ [s] | EOther => files end)
                  acc items
            = acc ++ omap (fun item => match item with
                                       | EString s => Some s
                                       | EOther => None
                                       end) items) as H; [|apply (H [])].
  induction items as [|item items IH]; intros acc; cbn [foldl].
  { by rewrite app_nil_r. }
  rewrite IH, omap_cons. destruct item; [|done]. by rewrite <- app_assoc.
Qed.

(** X19.  [parseInlineEnv] adds one inline observation of the manifest and
    the service for each declaration, and nothing for a value that is
    neither a list nor a map.  Of a list it takes the strings, in order:
    an item is cut at its first [=], the name before it and the value after
    it as they stand, without trimming or unquoting; an item without [=]
    declares its whole text with the empty value.  Of a map it takes every
    key once, with the text of its value, the empty text for nil. *)
Theorem parseInlineEnv_observations (go : GoLib) (composePath serviceName : string)
    (env : iface) (r : Resolution) :
  let obs := inline_obs go composePath serviceName env in
  parseInlineEnv go composePath serviceName env r = addSources obs r
  /\ (forall e, e ∈ obs ->
        e.2 = inline_Source composePath serviceName (Value e.2))
  /\ match env with
     | ISlice items => Forall2 declares (item_strings items) obs
     | IMap entries =>
         NoDup obs.*1
         /\ forall k text,
              (exists src, (k, src) ∈ obs /\ Value src = text)
              <-> exists val, entries !! k = Some val
                              /\ text = mapval_text val
     | _ => obs = []
     end.
Proof.
  cbn zeta. split; [apply parseInlineEnv_obs|].
  destruct env as [|f|items|entries|]; cbn [inline_obs];
    try (split; [by intros e He; inv He|done]).
  - split.
    + intros e He. apply list_elem_of_omap in He as ([s|] & _ & He); [|done].
      by injection He as <-.
    + unfold item_strings. induction items as [|[s|] items IH];
        rewrite ?omap_cons; [constructor| |done].
      constructor; [|done]. unfold declares, SplitN_eq. cbn [fst snd].
      pose proof (cut_eq_spec s) as Hs.
      destruct (cut_eq s) as [[k v]|]; cbn; [left|right]; tauto.
  - split.
    + intros e He. apply list_elem_of_fmap in He as (x & -> & _). done.
    + split.
      * rewrite <- list_fmap_compose.
        change (NoDup (map_range go (map_to_list entries)).*1).
        rewrite (map_range_perm go). apply NoDup_fst_map_to_list.
      * intros k text. split.
        -- intros (src & He & <-).
           apply list_elem_of_fmap in He as ([k' val] & [= -> ->] & He).
           rewrite (map_range_perm go) in He.
           apply elem_of_map_to_list in He. exists val. by destruct val.
        -- intros (val & Hval & ->).
           exists (inline_Source composePath serviceName (mapval_text val)).
           split; [|done]. apply list_elem_of_fmap. exists (k, val).
           split; [by destruct val|].
           rewrite (map_range_perm go). by apply elem_of_map_to_list.
Qed.

Lemma ref_line_obs_inv go envPath serviceName n text e :
  ref_line_obs go envPath serviceName n text = Some e ->
  TrimSpace go text <> ""
  /\ HasPrefix (TrimSpace go text) "#" = false
  /\ exists k v,
       cut_eq (TrimSpace go text) = Some (k, v)
       /\ e = (TrimSpace go k,
               {| Layer_ := LayerComposeEnvFile; File := envPath; Line := n;
                  Service := serviceName; Value := unquote (TrimSpace go v);
                  IsInline := false |}).
Proof.
  unfold ref_line_obs. cbn zeta.
  destruct (String.eqb_spec (TrimSpace go text) "") as [|Hne]; [done|].
  destruct (HasPrefix (TrimSpace go text) "#"); [done|]. cbn [orb].
  unfold SplitN_eq. destruct (cut_eq (TrimSpace go text)) as [[k v]|]; [|done].
  intros [= <-]. eauto 6.
Qed.

(** X20.  [parseEnvFileRef] reads the files a service refers to, a single
    name or the strings of a list, each relative to the directory of the
    manifest.  A file that is missing or cannot be opened is skipped: the
    call never adds a warning or a file to the report, and when no file
    opens the resolution is left as it is.  Every observation it adds
    belongs to the service and the layer of referenced files, and comes
    from a line of an opened file that is cut at its first [=]: the name is
    the trimmed text before it, which may be empty, and the value the
    trimmed and unquoted text after it. *)
Theorem parseEnvFileRef_observations (go : GoLib) (fs : FS)
    (composePath serviceName : string) (envFile : iface) (r : Resolution) :
  let obs := ref_obs go fs composePath serviceName envFile in
  let r' := parseEnvFileRef go fs composePath serviceName envFile r in
  let path f := filepath_Join go (filepath_Dir go composePath) f in
  r' = addSources obs r
  /\ same_report r r' /\ Variables r' = Variables r
  /\ ((forall f lines scan_err,
         f ∈ envFile_files envFile -> Open fs (path f) <> inr (lines, scan_err)) ->
      r' = r)
  /\ forall e, e ∈ obs ->
       Layer_ e.2 = LayerComposeEnvFile /\ Service e.2 = serviceName
       /\ IsInline e.2 = false /\ (1 <= Line e.2)%Z
       /\ exists f lines scan_err text k v,
            f ∈ envFile_files envFile /\ File e.2 = path f
            /\ Open fs (path f) = inr (lines, scan_err)
            /\ lines !! Z.to_nat (Line e.2 - 1) = Some text
            /\ HasPrefix (TrimSpace go text) "#" = false
            /\ cut_eq (TrimSpace go text) = Some (k, v)
            /\ e.1 = TrimSpace go k
            /\ Value e.2 = unquote (TrimSpace go v).
Proof.
  cbn zeta. rewrite parseEnvFileRef_obs.
  destruct (addSources_chain_facts
              (ref_obs go fs composePath serviceName envFile) r "")
    as (_ & _ & HV & HR & _).
  split; [done|]. split; [done|]. split; [done|]. split.
  - intros Hall. unfold ref_obs.
    induction (envFile_files envFile) as [|f files IH]; [done|].
    rewrite fmap_cons, mjoin_cons.
    assert (match Stat fs (filepath_Join go (filepath_Dir go composePath) f) with
            | Some _ =>
                match Open fs (filepath_Join go (filepath_Dir go composePath) f) with
                | inl _ => []
                | inr (lines, _) =>
                    scan_obs (ref_line_obs go
                                (filepath_Join go (filepath_Dir go composePath) f)
                                serviceName) 0 lines
                end
            | None => []
            end = []) as ->.
    { destruct (Stat fs _); [|done].
      destruct (Open fs _) as [err|[lines scan_err]] eqn:Ho; [done|].
      exfalso. apply (Hall f lines scan_err); [left|done]. }
    apply IH. intros f' lines scan_err Hf'. apply Hall. by right.
  - intros e He. unfold ref_obs in He. apply list_elem_of_join in He
      as (l & He & Hl).
    apply list_elem_of_fmap in Hl as (f & -> & Hf).
    destruct (Stat fs _); [|by inv He].
    destruct (Open fs _) as [err|[lines scan_err]] eqn:Ho; [by inv He|].
    apply scan_obs_elem in He as (Hb & text & Ht & Hobs).
    2:{ intros ln t e' He'.
        by apply ref_line_obs_Some in He' as (_ & _ & ? & _). }
    apply ref_line_obs_inv in Hobs as (_ & Hh & k & v & Hc & He).
    rewrite He. cbn [fst snd Layer_ Service IsInline Line File Value].
    rewrite He in Hb, Ht. cbn [snd Line] in Hb, Ht.
    repeat (split; [done || lia|]).
    exists f, lines, scan_err, text, k, v. repeat split; try done.
    by replace (Line e.2 - 0 - 1)%Z with (Line e.2 - 1)%Z in Ht by lia.
Qed.

(** * Properties of the reporter *)

(** ** The order of the variables in the reports *)

Lemma split_overridden_filter (r : Resolution) :
  split_overridden r
  = (List.filter (fun p => Overridden (deref r p)) (Variables r),
     List.filter (fun p => negb (Overridden (deref r p))) (Variables r)).
Proof.
  unfold split_overridden.
  assert (forall l o c,
            foldl (fun '(overridden, clean) p =>
                     if Overridden (deref r p) then (overridden ++ [p], clean)
                     else (overridden, clean ++ [p])) (o, c) l
            = (o ++ List.filter (fun p => Overridden (deref r p)) l,
               c ++ List.filter (fun p => negb (Overridden (deref r p))) l))
    as H; [|apply (H _ [] [])].
  induction l as [|p l IH]; intros o c; cbn [foldl List.filter].
  { by rewrite !app_nil_r. }
  destruct (Overridden (deref r p)); cbn [negb]; rewrite IH;
    by rewrite <- app_assoc.
Qed.

Lemma markdown_less_strict_weak (r : Resolution) : strict_weak (markdown_less r).
Proof.
  destruct (str_lt_strict_weak (fun p : ptr => Name (deref r p)))
    as (Hi & Ht & Hn).
  unfold markdown_less. split; [|split].
  - intros a. rewrite Bool.eqb_reflx. apply Hi.
  - intros a b c. destruct (Overridden (deref r a)), (Overridden (deref r b)),
      (Overridden (deref r c)); cbn; try done; apply Ht.
  - intros a b c. destruct (Overridden (deref r a)), (Overridden (deref r b)),
      (Overridden (deref r c)); cbn; try done; apply Hn.
Qed.

Lemma filter_partition_perm {A} (f : A -> bool) (l : list A) :
  List.filter f l ++ List.filter (fun x => negb (f x)) l ≡ₚ l.
Proof.
  induction l as [|x l IH]; [done|]. cbn [List.filter].
  destruct (f x); cbn [negb app]; [by constructor|].
  rewrite <- Permutation_middle. by constructor.
Qed.

Lemma sorted_filter_weaken {A} (R R' : relation A) (f : A -> bool) (l : list A) :
  (forall a b, f a = true -> f b = true -> R a b -> R' a b) ->
  StronglySorted R l -> StronglySorted R' (List.filter f l).
Proof.
  intros Hw. induction 1 as [|x l Hs IH Hx]; cbn [List.filter]; [constructor|].
  destruct (f x) eqn:Hfx; [|done]. constructor; [done|].
  apply Forall_forall. intros y Hy.
  apply list_elem_of_In, filter_In in Hy as [Hy Hfy].
  rewrite Forall_forall in Hx. apply Hw; [done..|]. by apply Hx, list_elem_of_In.
Qed.

Lemma markdown_partition_sorted (r : Resolution) (l : list ptr) :
  StronglySorted (fun a b => String.le (Name (deref r a)) (Name (deref r b))) l ->
  ascending (markdown_less r)
    (List.filter (fun p => Overridden (deref r p)) l
     ++ List.filter (fun p => negb (Overridden (deref r p))) l).
Proof.
  intros Hs. unfold ascending. apply StronglySorted_app_2.
  - intros a b Ha Hb.
    apply list_elem_of_In, filter_In in Ha as [_ Ha].
    apply list_elem_of_In, filter_In in Hb as [_ Hb].
    apply negb_true_iff in Hb. unfold markdown_less. by rewrite Ha, Hb.
  - eapply sorted_filter_weaken; [|exact Hs]. cbn beta.
    intros a b Ha Hb Hle. unfold markdown_less. rewrite Ha, Hb. cbn.
    by apply str_lt_false.
  - eapply sorted_filter_weaken; [|exact Hs]. cbn beta.
    intros a b Ha%negb_true_iff Hb%negb_true_iff Hle. unfold markdown_less.
    rewrite Ha, Hb. cbn. by apply str_lt_false.
Qed.

Lemma markdown_vars_unique (go : GoLib) (r : Resolution) :
  (forall p, p ∈ Variables r -> Name (deref r p) = p) ->
  StronglySorted String.le (Variables r) ->
  sort_Slice go (markdown_less r) (Variables r)
  = List.filter (fun p => Overridden (deref r p)) (Variables r)
    ++ List.filter (fun p => negb (Overridden (deref r p))) (Variables r).
Proof.
  intros Hname Hs.
  apply (StronglySorted_unique_strong (fun a b => markdown_less r b a = false)).
  - intros x y Hx Hy Hxy Hyx. rewrite sort_Slice_perm in Hx.
    rewrite filter_partition_perm in Hy.
    rewrite <- (Hname x Hx), <- (Hname y Hy).
    unfold markdown_less in Hxy, Hyx.
    destruct (Overridden (deref r x)), (Overridden (deref r y));
      cbn in Hxy, Hyx; try done;
      apply str_lt_false in Hxy, Hyx; by apply (anti_symm String.le).
  - apply sort_Slice_sorted, markdown_less_strict_weak.
  - apply markdown_partition_sorted.
    induction Hs as [|x l Hs IH Hx]; [constructor|].
    constructor.
    + apply IH. intros p Hp. apply Hname. by right.
    + rewrite Forall_forall in Hx. apply Forall_forall. intros y Hy.
      rewrite (Hname x) by left. rewrite (Hname y) by (by right).
      by apply Hx.
  - by rewrite sort_Slice_perm, filter_partition_perm.
Qed.

Lemma resolved_deref go fs environ basePath opts (p : ptr) :
  p ∈ Variables (fst (ResolveWithOptions go fs environ basePath opts)) ->
  exists v,
    ByName (fst (ResolveWithOptions go fs environ basePath opts)) !! p = Some v
    /\ deref (fst (ResolveWithOptions go fs environ basePath opts)) p = v
    /\ Name v = p.
Proof.
  intros Hp.
  destruct (Variables_sorted_by_name_facts go fs environ basePath opts)
    as (_ & _ & Hname & _).
  destruct (Hname p Hp) as (v & Hv & Hn). exists v. split; [done|].
  split; [|done]. unfold deref.
  transitivity (default (new_Variable "") (Some v)); [f_equal; exact Hv|done].
Qed.

Lemma resolved_overridden_length go fs environ basePath opts (name : string)
    (v : Variable_) :
  ByName (fst (ResolveWithOptions go fs environ basePath opts)) !! name = Some v ->
  Overridden v = true -> 2 <= length (Chain v).
Proof.
  rewrite ResolveWithOptions_cell. intros Hv.
  destruct (ByName (ingest go fs basePath) !! name) as [v0|] eqn:Hv0; [|done].
  cbn in Hv. injection Hv as <-.
  destruct (fresh_ingest go fs basePath name v0 Hv0) as [Hfresh Hne].
  assert (Overridden v0 = false) as Hov by (by rewrite Hfresh).
  set (vals := if IncludeOSEnv opts then _ else _).
  destruct (merge_cell_fold vals (finalize go v0)) as (_ & HC & _ & _ & _ & HO).
  cbn zeta in HC, HO. rewrite HO, HC, length_app, length_fmap, finalize_Chain.
  rewrite (Permutation_length (sort_Slice_perm go Source chain_less (Chain v0))).
  destruct vals as [|x vals].
  - rewrite finalize_Overridden, Hov, orb_false_r, chain_values_size.
    intros (s1 & s2 & H1 & H2 & _ & _ & Hne12).
    rewrite !sort_Slice_perm in H1, H2.
    destruct (Chain v0) as [|a [|b l]]; cbn [length]; [by inv H1| |lia].
    apply list_elem_of_singleton in H1, H2. congruence.
  - intros _. destruct (Chain v0); [done|]. cbn [length]. lia.
Qed.

(** X21.  Both reports list the overridden variables first and the others
    after them, each group in ascending order of name.  For a returned
    resolution the comparison of [FormatMarkdown] is a strict weak order
    that tells any two listed variables apart, so the rows of the table
    are those two groups in that order whatever the sorting routine does
    with equal elements, and they are the two lists [FormatText] prints.
    Every variable of the first group has at least two observations, so
    [formatVariable] always prints its chain. *)
Theorem reports_overridden_first (go go1 : GoLib) (fs : FS)
    (environ : list string) (basePath : string) (opts : Options) :
  let r := fst (ResolveWithOptions go1 fs environ basePath opts) in
  let overridden := List.filter (fun p => Overridden (deref r p)) (Variables r) in
  let clean :=
    List.filter (fun p => negb (Overridden (deref r p))) (Variables r) in
  strict_weak (markdown_less r)
  /\ sort_Slice go (markdown_less r) (Variables r) = overridden ++ clean
  /\ split_overridden r = (overridden, clean)
  /\ StronglySorted String.le overridden /\ StronglySorted String.le clean
  /\ (forall p, p ∈ overridden -> 2 <= length (Chain (deref r p)))
  /\ FormatMarkdown go r = FormatMarkdown go1 r.
Proof.
  cbn zeta.
  destruct (Variables_sorted_by_name_facts go1 fs environ basePath opts)
    as (Hs & _ & _ & _). cbn zeta in Hs.
  set (r := fst (ResolveWithOptions go1 fs environ basePath opts)) in *.
  assert (forall g,
            sort_Slice g (markdown_less r) (Variables r)
            = List.filter (fun p => Overridden (deref r p)) (Variables r)
              ++ List.filter (fun p => negb (Overridden (deref r p)))
                   (Variables r)) as Hu.
  { intros g. apply markdown_vars_unique; [|done].
    intros p Hp.
    destruct (resolved_deref go1 fs environ basePath opts p Hp)
      as (v & _ & Hd & Hn).
    fold r in Hd. by rewrite Hd. }
  split; [apply markdown_less_strict_weak|]. split; [apply Hu|].
  split; [apply split_overridden_filter|].
  split; [by apply StronglySorted_bool_filter|].
  split; [by apply StronglySorted_bool_filter|]. split.
  - intros p Hp. apply list_elem_of_In, filter_In in Hp as [Hp Ho].
    apply list_elem_of_In in Hp.
    destruct (resolved_deref go1 fs environ basePath opts p Hp)
      as (v & Hv & Hd & _).
    fold r in Hd. rewrite Hd in *.
    by apply (resolved_overridden_length go1 fs environ basePath opts p v).
  - unfold FormatMarkdown. by rewrite (Hu go), (Hu go1).
Qed.

(** ** The value cell of the table *)

Lemma length_append (s1 s2 : string) :
  String.length (s1 +:+ s2) = String.length s1 + String.length s2.
Proof. induction s1 as [|c s1 IH]; simpl; [done|]. by f_equal. Qed.

Lemma append_string_assoc (s1 s2 s3 : string) :
  (s1 +:+ s2) +:+ s3 = s1 +:+ (s2 +:+ s3).
Proof.
  induction s1 as [|c s1 IH]; [done|].
  change (String c ((s1 +:+ s2) +:+ s3) = String c (s1 +:+ (s2 +:+ s3))).
  by rewrite IH.
Qed.

Lemma substring_0_split (n : nat) (s : string) :
  n <= String.length s ->
  String.length (String.substring 0 n s) = n
  /\ exists rest, s = String.substring 0 n s +:+ rest.
Proof.
  revert s. induction n as [|n IH]; intros s Hn.
  { destruct s; cbn; (split; [done|]); eauto. }
  destruct s as [|c s]; cbn in Hn; [lia|].
  destruct (IH s) as (Hl & rest & Hr); [lia|]. cbn [String.substring].
  split; [simpl; by rewrite Hl|]. exists rest.
  change (String c s = String c (String.substring 0 n s +:+ rest)).
  by rewrite <- Hr.
Qed.

(** X22.  The value cell of a row of the table never holds more than 30
    bytes of the value between its two backticks.  A final value of at most
    30 bytes is shown in full; of a longer one the first 27 bytes are shown,
    followed by three dots. *)
Theorem markdown_val_length (v : Variable_) :
  len (markdown_val v) <= 32
  /\ (len (FinalValue v) <= 30 ->
      markdown_val v = "`" +:+ FinalValue v +:+ "`")
  /\ (30 < len (FinalValue v) ->
      exists shown rest,
        FinalValue v = shown +:+ rest /\ len shown = 27
        /\ markdown_val v = "`" +:+ shown +:+ "...`"
        /\ len (markdown_val v) = 32).
Proof.
  unfold markdown_val, len, slice. cbn zeta.
  destruct (30 <? String.length (FinalValue v))%nat eqn:Hlt.
  - apply Nat.ltb_lt in Hlt.
    destruct (substring_0_split 27 (FinalValue v)) as (Hl & rest & Hr); [lia|].
    change (27 - 0) with 27.
    assert (String.length
              ("`" +:+ (String.substring 0 27 (FinalValue v) +:+ "...") +:+ "`")
            = 32) as H32.
    { rewrite !length_append, Hl. done. }
    split; [lia|]. split; [lia|]. intros _.
    exists (String.substring 0 27 (FinalValue v)), rest.
    split; [done|]. split; [done|]. split; [|done].
    f_equal. apply append_string_assoc.
  - apply Nat.ltb_ge in Hlt. split; [|split; [done|lia]].
    rewrite !length_append. cbn. lia.
Qed.

(** ** The exported document *)

Lemma json_chain_fold (jv : jsonVariable) (chain : list Source) :
  foldl (fun jv s =>
           {| jv_Name := jv_Name jv; jv_FinalValue := jv_FinalValue jv;
              jv_FinalFrom := jv_FinalFrom jv;
              jv_Overridden := jv_Overridden jv;
              jv_Chain := jv_Chain jv ++ [json_Source s] |}) jv chain
  = {| jv_Name := jv_Name jv; jv_FinalValue := jv_FinalValue jv;
       jv_FinalFrom := jv_FinalFrom jv; jv_Overridden := jv_Overridden jv;
       jv_Chain := jv_Chain jv ++ (json_Source <$> chain) |}.
Proof.
  revert jv. induction chain as [|s chain IH]; intros jv; cbn [foldl].
  { cbn. rewrite app_nil_r. by destruct jv. }
  rewrite IH. cbn. by rewrite <- app_assoc.
Qed.

Lemma json_out_Variables (r : Resolution) :
  jo_Variables (json_out r)
  = (fun p => {| jv_Name := Name (deref r p);
                 jv_FinalValue := FinalValue (deref r p);
                 jv_FinalFrom := json_Source (FinalFrom (deref r p));
                 jv_Overridden := Overridden (deref r p);
                 jv_Chain := if Overridden (deref r p)
                             then json_Source <$> Chain (deref r p) else [] |})
      <$> Variables r
  /\ jo_Path (json_out r) = Path r /\ jo_EnvFiles (json_out r) = EnvFiles r
  /\ jo_ComposeFiles (json_out r) = ComposeFiles r
  /\ jo_Warnings (json_out r) = Warnings r.
Proof.
  unfold json_out. cbn zeta.
  set (step := fun out p => _).
  assert (forall l out,
            jo_Variables (foldl step out l)
            = jo_Variables out
              ++ ((fun p => {| jv_Name := Name (deref r p);
                     jv_FinalValue := FinalValue (deref r p);
                     jv_FinalFrom := json_Source (FinalFrom (deref r p));
                     jv_Overridden := Overridden (deref r p);
                     jv_Chain := if Overridden (deref r p)
                                 then json_Source <$> Chain (deref r p)
                                 else [] |}) <$> l)
            /\ jo_Path (foldl step out l) = jo_Path out
            /\ jo_EnvFiles (foldl step out l) = jo_EnvFiles out
            /\ jo_ComposeFiles (foldl step out l) = jo_ComposeFiles out
            /\ jo_Warnings (foldl step out l) = jo_Warnings out) as H.
  { induction l as [|p l IH]; intros out; cbn [foldl].
    { cbn. by rewrite app_nil_r. }
    destruct (IH (step out p)) as (-> & -> & -> & -> & ->).
    unfold step. cbn [jo_Variables jo_Path jo_EnvFiles jo_ComposeFiles
                      jo_Warnings].
    rewrite fmap_cons, <- app_assoc. repeat split. do 2 f_equal.
    destruct (Overridden (deref r p)); [|done]. by rewrite json_chain_fold. }
  apply H.
Qed.

(** X23.  The document [FormatJSON] marshals for a returned resolution
    carries its path, file lists and warnings and one entry per listed
    variable, in ascending order of name.  An entry carries the chain if
    and only if the variable is overridden; an exported chain has at least
    two observations, in ascending order of precedence, and ends with the
    observation exported as [final_from], whose value is the final value.
    The list of undefined names, the conflicts and the inline flag are not
    exported. *)
Theorem json_out_spec (go : GoLib) (fs : FS) (environ : list string)
    (basePath : string) (opts : Options) :
  let r := fst (ResolveWithOptions go fs environ basePath opts) in
  let out := json_out r in
  jo_Path out = basePath /\ jo_EnvFiles out = EnvFiles r
  /\ jo_ComposeFiles out = ComposeFiles r /\ jo_Warnings out = Warnings r
  /\ jv_Name <$> jo_Variables out = Variables r
  /\ StronglySorted String.le (jv_Name <$> jo_Variables out)
  /\ forall jv, jv ∈ jo_Variables out ->
       exists v, ByName r !! jv_Name jv = Some v
         /\ jv_FinalValue jv = FinalValue v
         /\ jv_FinalFrom jv = json_Source (FinalFrom v)
         /\ js_Value (jv_FinalFrom jv) = jv_FinalValue jv
         /\ jv_Overridden jv = Overridden v
         /\ (jv_Overridden jv = false -> jv_Chain jv = [])
         /\ (jv_Overridden jv = true ->
             jv_Chain jv = json_Source <$> Chain v
             /\ 2 <= length (jv_Chain jv)
             /\ last (jv_Chain jv) = Some (jv_FinalFrom jv)
             /\ StronglySorted by_rank (Chain v)).
Proof.
  cbn zeta.
  destruct (json_out_Variables
              (fst (ResolveWithOptions go fs environ basePath opts)))
    as (HV & -> & -> & -> & ->).
  destruct (Variables_sorted_by_name_facts go fs environ basePath opts)
    as (Hs & _ & _ & _). cbn zeta in Hs.
  assert (jv_Name <$> jo_Variables
                        (json_out (fst (ResolveWithOptions go fs environ
                                          basePath opts)))
          = Variables (fst (ResolveWithOptions go fs environ basePath opts)))
    as Hnames.
  { rewrite HV, <- list_fmap_compose.
    rewrite <- (list_fmap_id (Variables _)) at 2.
    apply list_fmap_ext. intros i p Hp. cbn.
    apply list_elem_of_lookup_2 in Hp.
    by destruct (resolved_deref _ _ _ _ _ p Hp) as (v & _ & -> & ?). }
  split.
  { assert (same_report (ingest go fs basePath)
              (fst (ResolveWithOptions go fs environ basePath opts)))
      as (-> & _).
    { rewrite ResolveWithOptions_unfold. cbn zeta.
      destruct (filtered_frame go fs environ basePath opts) as [Hf _].
      destruct (StrictMode opts); [|done].
      eapply same_report_trans; [exact Hf|].
      destruct (findUndefinedVars_fold (filtered go fs environ basePath opts)
                  (Variables (filtered go fs environ basePath opts))
                  (filtered go fs environ basePath opts))
        as (_ & _ & ? & ? & ? & ? & _).
      by destruct (0 <? _)%nat. }
    apply (ingest_report go fs basePath). }
  split; [done|]. split; [done|]. split; [done|]. split; [done|].
  split; [by rewrite Hnames|].
  intros jv Hjv. rewrite HV in Hjv.
  apply list_elem_of_fmap in Hjv as (p & -> & Hp).
  destruct (resolved_deref _ _ _ _ _ p Hp) as (v & Hv & Hd & Hn).
  rewrite Hd. cbn [jv_Name jv_FinalValue jv_FinalFrom jv_Overridden jv_Chain].
  rewrite Hn. exists v. split; [done|]. split; [done|]. split; [done|].
  destruct (resolved_final _ _ _ _ _ _ _ Hv) as [HF _].
  destruct (resolved_cell_facts go fs environ basePath opts p v Hv)
    as (_ & _ & Hl & Hsorted & _).
  split; [by rewrite HF|]. split; [done|]. split.
  - by intros ->.
  - intros Ho. rewrite Ho. split; [done|].
    split; [rewrite length_fmap; by eapply resolved_overridden_length|].
    split; [|done]. rewrite fmap_last, Hl. done.
Qed.

Lemma markdown_val_length_witness :
  markdown_val
    {| Name := "TOKEN"; FinalValue := "0123456789012345678901234567890";
       FinalFrom := zero_Source; Chain := []; Overridden := false;
       Conflicts := [] |}
  = "`012345678901234567890123456...`".
Proof.
  destruct (markdown_val_length
              {| Name := "TOKEN"; FinalValue := "0123456789012345678901234567890";
                 FinalFrom := zero_Source; Chain := []; Overridden := false;
                 Conflicts := [] |}) as (_ & _ & H).
  destruct H as (shown & rest & _ & _ & _ & _); [vm_compute; lia|].
  reflexivity.
Defined.

(** * The plain call *)

(** X24.  [Resolve] runs with the zero options: it never returns an error
    and never reports an undefined name, it does not look at the process
    environment, so no observation of a returned variable comes from it,
    and it lists every tracked variable. *)
Theorem Resolve_plain (go : GoLib) (fs : FS) (environ : list string)
    (basePath : string) :
  let r := fst (Resolve go fs environ basePath) in
  snd (Resolve go fs environ basePath) = None
  /\ Resolve go fs environ basePath = Resolve go fs [] basePath
  /\ Undefined r = []
  /\ (forall name, name ∈ Variables r <-> is_Some (ByName r !! name))
  /\ (forall name v s, ByName r !! name = Some v -> s ∈ Chain v ->
        Layer_ s <> LayerOSEnv)
  /\ (forall name v, ByName r !! name = Some v ->
        Chain v
        = sort_Slice go chain_less (named name (ingest_obs go fs basePath))).
Proof.
  cbn zeta. unfold Resolve.
  set (opts := {| IncludeOSEnv := false; ServiceName := ""; StrictMode := false;
                  CompareWith := "" |}).
  split; [done|]. split; [done|].
  split; [apply (ResolveWithOptions_Undefined go fs environ basePath opts)|].
  destruct (Variables_sorted_by_name_facts go fs environ basePath opts)
    as (_ & _ & Hname & Hin). cbn zeta in Hname, Hin.
  split; [|split].
  - intros name. split.
    + intros Hn. destruct (Hname name Hn) as (v & Hv & _). eauto.
    + intros [v Hv]. apply (Hin name v Hv). by left.
  - intros name v s Hv Hs Hl.
    by destruct (resolved_sources_tagged_facts go fs environ basePath opts name
                   v s Hv Hs) as (_ & _ & Hos); specialize (Hos Hl).
  - intros name v Hv.
    destruct (resolved_cell_facts go fs environ basePath opts name v Hv)
      as (_ & _ & _ & _ & ->). cbn. by rewrite app_nil_r.
Qed.

(** * The chain of a variable in the text report *)

Lemma chain_loop (f : nat -> string -> string) (line : Source -> string)
    (l : list Source) (sb : string) :
  (forall i s sb, l !! i = Some s -> f i sb = sb +:+ line s) ->
  foldl (fun sb i => f i sb) sb (reverse (seq 0 (length l)))
  = sb +:+ foldr (fun s acc => line s +:+ acc) "" (reverse l).
Proof.
  revert sb. induction l as [|x l IH] using rev_ind; intros sb Hf.
  { cbn. clear. induction sb as [|c sb IH]; [done|].
    change (String c sb = String c (sb +:+ "")). by rewrite <- IH. }
  rewrite length_app, Nat.add_comm. cbn [length Nat.add].
  rewrite seq_S, !reverse_app. cbn [reverse rev_append app Nat.add foldl foldr].
  change (rev_append [length l] []) with [length l].
  change (rev_append [x] []) with [x]. cbn [app foldl foldr].
  rewrite (Hf (length l) x) by (by rewrite lookup_app_r, Nat.sub_diag).
  rewrite IH.
  - by rewrite append_string_assoc.
  - intros i s sb' Hi. apply Hf. rewrite lookup_app_l; [done|].
    by eapply lookup_lt_Some.
Qed.

(** X25.  For an overridden variable of a returned resolution
    [formatVariable] with [showChain] set prints what it prints without it
    and, before the closing empty line, the chain: the heading, then one
    line per observation from the highest precedence down.  The first of
    these lines is the one of [FinalFrom] and it alone carries the arrow. *)
Theorem formatVariable_chain (paint : Color) (go : GoLib) (fs : FS)
    (environ : list string) (basePath : string) (opts : Options)
    (name : string) (v : Variable_) (sb : string) :
  ByName (fst (ResolveWithOptions go fs environ basePath opts)) !! name = Some v ->
  Overridden v = true ->
  exists rest pre,
    Chain v = rest ++ [FinalFrom v] /\ rest <> []
    /\ StronglySorted by_rank (Chain v)
    /\ formatVariable paint v false sb = pre +:+ NL
    /\ formatVariable paint v true sb
       = (pre +:+ HiBlackString paint ("  chain:" +:+ NL))
         +:+ (chain_line "→ " (FinalFrom v)
              +:+ foldr (fun s acc => chain_line "  " s +:+ acc) ""
                    (reverse rest))
         +:+ NL.
Proof.
  intros Hv Ho.
  pose proof (resolved_overridden_length go fs environ basePath opts name v
                Hv Ho) as Hlen.
  destruct (resolved_cell_facts go fs environ basePath opts name v Hv)
    as (_ & _ & Hl & Hs & _).
  apply last_Some in Hl as [rest Hrest]. exists rest. eexists.
  split; [done|]. split.
  { intros ->. rewrite Hrest in Hlen. cbn in Hlen. lia. }
  split; [done|]. split; [reflexivity|].
  unfold formatVariable. cbn zeta.
  assert ((1 <? length (Chain v))%nat = true) as -> by (apply Nat.ltb_lt; lia).
  cbn [andb]. rewrite Hrest, length_app, Nat.add_comm. cbn [length Nat.add].
  rewrite seq_S, reverse_app. cbn [Nat.add].
  change (reverse [length rest]) with [length rest]. cbn [app foldl].
  rewrite lookup_app_r, Nat.sub_diag by done. cbn [lookup list_lookup].
  replace (length rest =? S (length rest) - 1)%nat with true
    by (symmetry; apply Nat.eqb_eq; lia).
  rewrite (chain_loop
             (fun i sb => match (rest ++ [FinalFrom v]) !! i with
                          | Some s =>
                              sb +:+ chain_line
                                       (if (i =? S (length rest) - 1)%nat
                                        then "→ " else "  ") s
                          | None => sb
                          end)
             (chain_line "  ") rest).
  - by rewrite !append_string_assoc.
  - intros i s sb' Hi. pose proof (lookup_lt_Some _ _ _ Hi) as Hlt.
    rewrite lookup_app_l, Hi by done.
    replace (i =? S (length rest) - 1)%nat with false; [done|].
    symmetry. apply Nat.eqb_neq. lia.
Qed.

Lemma formatVariable_chain_witness :
  exists rest,
    Chain (deref (fst (ResolveWithOptions go_lib fs_base_local environ_api
                         "proj" opts_ambient)) "API_KEY")
    = rest ++ [osenv_Source "override_from_ambient"].
Proof.
  destruct (formatVariable_chain no_color go_lib fs_base_local environ_api
              "proj" opts_ambient "API_KEY"
              (deref (fst (ResolveWithOptions go_lib fs_base_local environ_api
                             "proj" opts_ambient)) "API_KEY") "")
    as (rest & pre & Hc & _).
  - vm_compute. reflexivity.
  - vm_compute. reflexivity.
  - exists rest. exact Hc.
Defined.

(** * Runs that do not depend on the library *)

Lemma bind_perm {X Y} (f f' : X -> list Y) (l l' : list X) :
  (forall x, f x ≡ₚ f' x) -> l ≡ₚ l' ->
  mjoin (f <$> l) ≡ₚ mjoin (f' <$> l').
Proof.
  intros Hf Hl. rewrite <- Hl. clear Hl.
  induction l as [|x l IH]; [done|].
  rewrite !fmap_cons, !mjoin_cons. by rewrite Hf, IH.
Qed.

Lemma bool_filter_perm {A} (f : A -> bool) (l l' : list A) :
  l ≡ₚ l' -> List.filter f l ≡ₚ List.filter f l'.
Proof.
  induction 1 as [|x l l' H IH|x y l|l l' l'' H1 IH1 H2 IH2];
    cbn [List.filter]; [done| | |by etrans].
  - destruct (f x); [by constructor|done].
  - destruct (f x), (f y); try done; by constructor.
Qed.

Section SameText.

Context (go go' : GoLib) (fs : FS).

Hypothesis same : same_text_lib go go'.

Lemma file_obs_same path layer :
  file_obs go fs path layer = file_obs go' fs path layer.
Proof.
  destruct same as (HT & _). unfold file_obs, env_line_obs. by rewrite HT.
Qed.

Lemma ref_obs_same composePath serviceName envFile :
  ref_obs go fs composePath serviceName envFile
  = ref_obs go' fs composePath serviceName envFile.
Proof.
  destruct same as (HT & HJ & HD). unfold ref_obs, ref_line_obs.
  by rewrite HT, HJ, HD.
Qed.

Lemma inline_obs_perm composePath serviceName env :
  inline_obs go composePath serviceName env
  ≡ₚ inline_obs go' composePath serviceName env.
Proof.
  unfold inline_obs. destruct env; try done.
  by rewrite !map_range_perm.
Qed.

Lemma compose_obs_perm path :
  compose_obs go fs path ≡ₚ compose_obs go' fs path.
Proof.
  unfold compose_obs. destruct (ReadYaml fs path) as [err|compose]; [done|].
  apply bind_perm; [|by rewrite !map_range_perm].
  intros e. by rewrite ref_obs_same, inline_obs_perm.
Qed.

Lemma ingest_obs_perm basePath :
  ingest_obs go fs basePath ≡ₚ ingest_obs go' fs basePath.
Proof.
  unfold ingest_obs. destruct same as (_ & HJ & _). rewrite HJ.
  apply Permutation_app; [|apply Permutation_app].
  - apply bind_perm; [|done]. intros e.
    destruct (Stat fs _); [|done]. by rewrite file_obs_same.
  - apply bind_perm; [|done]. intros name. by rewrite file_obs_same.
  - apply bind_perm; [|done]. intros pattern.
    destruct (Stat fs _); [|done]. apply compose_obs_perm.
Qed.

End SameText.

Lemma sorted_by_rank_unique (l1 l2 : list Source) :
  NoDup (rank <$> l1) ->
  StronglySorted by_rank l1 -> StronglySorted by_rank l2 -> l1 ≡ₚ l2 ->
  l1 = l2.
Proof.
  intros Hnd H1 H2 Hp. apply (StronglySorted_unique_strong by_rank); try done.
  intros x y Hx Hy Hxy Hyx. rewrite <- Hp in Hy. unfold by_rank in *.
  assert (rank x = rank y) as He by lia. clear Hxy Hyx H1 H2 Hp.
  induction l1 as [|a l IH]; [by inv Hx|].
  rewrite fmap_cons in Hnd. apply NoDup_cons in Hnd as [Hnot Hnd].
  apply elem_of_cons in Hx as [->|Hx], Hy as [->|Hy]; try done.
  - exfalso. apply Hnot. rewrite He. by apply list_elem_of_fmap_2.
  - exfalso. apply Hnot. rewrite <- He. by apply list_elem_of_fmap_2.
  - by apply IH.
Qed.

Lemma sort_chain_unique (go go' : GoLib) (l l' : list Source) :
  NoDup (rank <$> l) -> l ≡ₚ l' ->
  sort_Slice go chain_less l = sort_Slice go' chain_less l'.
Proof.
  intros Hnd Hp. apply sorted_by_rank_unique.
  - by rewrite sort_Slice_perm.
  - apply ascending_chain_less, sort_Slice_sorted, chain_less_strict_weak.
  - apply ascending_chain_less, sort_Slice_sorted, chain_less_strict_weak.
  - by rewrite !sort_Slice_perm.
Qed.

Lemma finalize_same (go go' : GoLib) (name : string) (c c' : list Source) :
  NoDup (rank <$> c) -> c ≡ₚ c' ->
  same_cell (finalize go (set_Chain c (new_Variable name)))
            (finalize go' (set_Chain c' (new_Variable name))).
Proof.
  intros Hnd Hp. pose proof (sort_chain_unique go go' c c' Hnd Hp) as Hs.
  unfold same_cell.
  rewrite !finalize_Name, !finalize_FinalValue, !finalize_FinalFrom,
    !finalize_Chain, !finalize_Overridden, !finalize_Conflicts.
  rewrite !finalize_FinalValue. cbn [Chain set_Chain]. rewrite <- Hs.
  repeat (split; [done|]).
  cbn [Conflicts set_Chain new_Variable app].
  destruct (1 <? size _)%nat; [|done].
  apply bool_filter_perm. by rewrite !map_range_perm.
Qed.

Lemma merge_cell_same (vals : list string) (v v' : Variable_) :
  same_cell v v' ->
  same_cell (foldl merge_cell v vals) (foldl merge_cell v' vals).
Proof.
  intros (HN & HV & HF & HC & HO & HCo). unfold same_cell.
  destruct (merge_cell_fold vals v) as (-> & -> & -> & -> & -> & ->).
  destruct (merge_cell_fold vals v') as (-> & -> & -> & -> & -> & ->).
  rewrite HN, HV, HF, HC, HO. by destruct vals.
Qed.

Lemma ResolveWithOptions_snd go fs environ basePath opts :
  snd (ResolveWithOptions go fs environ basePath opts)
  = let u := Undefined (fst (ResolveWithOptions go fs environ basePath opts)) in
    if StrictMode opts && (0 <? length u)%nat
    then Some ("strict mode: " +:+ Sprint_d (length u)
               +:+ " undefined variable(s): " +:+ Join u ", ")
    else None.
Proof.
  rewrite ResolveWithOptions_unfold. cbn zeta.
  destruct (StrictMode opts); [|done]. cbn [andb].
  by destruct (0 <? _)%nat eqn:He; cbn [fst snd]; rewrite He.
Qed.

Lemma option_Forall2_Some_l {A} (R : A -> A -> Prop) (mx my : option A) (x : A) :
  option_Forall2 R mx my -> mx = Some x -> exists y, my = Some y /\ R x y.
Proof. intros [a b HR|] [= ->]. eauto. Qed.

Lemma option_Forall2_Some_r {A} (R : A -> A -> Prop) (mx my : option A) (y : A) :
  option_Forall2 R mx my -> my = Some y -> exists x, mx = Some x /\ R x y.
Proof. intros [a b HR|] [= ->]. eauto. Qed.

Lemma resolved_cells_same (go go' : GoLib) (fs : FS) (environ : list string)
    (basePath : string) (opts : Options) (name : string) :
  same_text_lib go go' ->
  once_per_layer (ingest_obs go fs basePath) ->
  option_Forall2 same_cell
    (ByName (fst (ResolveWithOptions go fs environ basePath opts)) !! name)
    (ByName (fst (ResolveWithOptions go' fs environ basePath opts)) !! name).
Proof.
  intros Hsame Honce. rewrite !ResolveWithOptions_cell.
  pose proof (ingest_obs_perm go go' fs Hsame basePath) as Hp.
  destruct (ingest_chain_facts go fs basePath name) as (_ & Hc & Ht).
  destruct (ingest_chain_facts go' fs basePath name) as (_ & Hc' & Ht').
  unfold cell in Hc, Hc'.
  destruct (ByName (ingest go fs basePath) !! name) as [v0|] eqn:H0,
           (ByName (ingest go' fs basePath) !! name) as [v0'|] eqn:H0';
    cbn [fmap option_fmap option_map default] in *.
  - constructor. apply merge_cell_same.
    change (id v0) with v0 in Hc. change (id v0') with v0' in Hc'.
    rewrite Hc, Hc'.
    apply finalize_same; [apply Honce|]. unfold named. by rewrite Hp.
  - exfalso. apply (is_Some_None (A:=Variable_)), Ht'. rewrite <- Hp.
    apply Ht. eauto.
  - exfalso. apply (is_Some_None (A:=Variable_)), Ht. rewrite Hp.
    apply Ht'. eauto.
  - constructor.
Qed.

(** X26.  When no name is observed twice in one layer, the run does not
    depend on how the library sorts equal elements nor on the order in
    which it ranges over maps: two libraries that trim and join alike give
    the same error, the same report, the same lists of variables and of
    undefined names, and for every name the same final value, winner, chain
    and overridden flag; only the order of [Conflicts] may differ. *)
Theorem resolve_deterministic (go go' : GoLib) (fs : FS) (environ : list string)
    (basePath : string) (opts : Options) :
  same_text_lib go go' ->
  once_per_layer (ingest_obs go fs basePath) ->
  let r := fst (ResolveWithOptions go fs environ basePath opts) in
  let r' := fst (ResolveWithOptions go' fs environ basePath opts) in
  snd (ResolveWithOptions go' fs environ basePath opts)
  = snd (ResolveWithOptions go fs environ basePath opts)
  /\ Variables r' = Variables r /\ same_report r r'
  /\ Undefined r' = Undefined r
  /\ forall name, option_Forall2 same_cell (ByName r !! name) (ByName r' !! name).
Proof.
  intros Hsame Honce. cbn zeta.
  pose proof (fun name => resolved_cells_same go go' fs environ basePath opts
                            name Hsame Honce) as Hcells.
  set (r := fst (ResolveWithOptions go fs environ basePath opts)) in *.
  set (r' := fst (ResolveWithOptions go' fs environ basePath opts)) in *.
  assert (Variables r' = Variables r) as HV.
  { destruct (Variables_sorted_by_name_facts go fs environ basePath opts)
      as (Hs & Hnd & Hname & Hin).
    destruct (Variables_sorted_by_name_facts go' fs environ basePath opts)
      as (Hs' & Hnd' & Hname' & Hin').
    cbn zeta in *. fold r in Hs, Hnd, Hname, Hin.
    fold r' in Hs', Hnd', Hname', Hin'.
    apply (StronglySorted_unique String.le); [done..|].
    apply NoDup_Permutation; [done..|]. intros p.
    split; intros Hp.
    - destruct (Hname' p Hp) as (v' & Hv' & _).
      destruct (option_Forall2_Some_r _ _ _ _ (Hcells p) Hv')
        as (v & Hv & _ & _ & _ & HC & _).
      apply (Hin p v Hv). apply (Hin' p v' Hv') in Hp.
      unfold usedByService in *. by rewrite <- HC.
    - destruct (Hname p Hp) as (v & Hv & _).
      destruct (option_Forall2_Some_l _ _ _ _ (Hcells p) Hv)
        as (v' & Hv' & _ & _ & _ & HC & _).
      apply (Hin' p v' Hv'). apply (Hin p v Hv) in Hp.
      unfold usedByService in *. by rewrite HC. }
  assert (Undefined r' = Undefined r) as HU.
  { unfold r, r'. rewrite !ResolveWithOptions_Undefined. cbn zeta.
    fold r r'. destruct (StrictMode opts); [|done]. rewrite HV.
    apply filter_ext_in. intros p Hp. apply list_elem_of_In in Hp.
    destruct (resolved_deref go fs environ basePath opts p Hp)
      as (v & Hv & Hd & _).
    fold r in Hv, Hd.
    destruct (option_Forall2_Some_l _ _ _ _ (Hcells p) Hv)
      as (v' & Hv' & _ & HF & _ & HC & _).
    assert (deref r' p = v') as Hd'.
    { unfold deref. transitivity (default (new_Variable "") (Some v'));
        [f_equal; exact Hv'|done]. }
    rewrite Hd, Hd'. unfold isUndefined. by rewrite HF, HC. }
  split.
  { rewrite !ResolveWithOptions_snd. cbn zeta. fold r r'. by rewrite HU. }
  split; [done|]. split; [|done].
  destruct (report_spec_facts go fs environ basePath opts)
    as (P & E & C & W & _).
  destruct (report_spec_facts go' fs environ basePath opts)
    as (P' & E' & C' & W' & _).
  cbn zeta in *. fold r in P, E, C, W. fold r' in P', E', C', W'.
  unfold same_report. rewrite P, P', E, E', C, C', W, W'.
  unfold found_env, found_compose. destruct Hsame as (_ & -> & _). done.
Qed.

Lemma resolve_deterministic_witness :
  FinalValue (deref (fst (ResolveWithOptions go_lib_rev fs_base_local
                            environ_api "proj" opts_ambient)) "API_KEY")
  = "override_from_ambient"
  /\ Variables (fst (ResolveWithOptions go_lib_rev fs_base_local environ_api
                       "proj" opts_ambient))
     = Variables (fst (ResolveWithOptions go_lib fs_base_local environ_api
                         "proj" opts_ambient)).
Proof.
  destruct (resolve_deterministic go_lib go_lib_rev fs_base_local environ_api
              "proj" opts_ambient) as (_ & HV & _).
  - repeat split.
  - intros name. unfold named.
    set (obs := ingest_obs go_lib fs_base_local "proj").
    vm_compute in obs. subst obs. rewrite !omap_cons.
    cbn [fst snd omap]. destruct (String.eqb "API_KEY" name).
    + vm_compute. apply NoDup_cons. split; [|apply NoDup_singleton].
      intros H. apply list_elem_of_singleton in H. discriminate H.
    + constructor.
  - split; [reflexivity|exact HV].
Defined.
